(** * The copy engine and identity cache of appifi: a shallow embedding

    Two parts of the repository are embedded here:

    - [Forest] (src/vfs/forest.js): the registry of live directories with its two
      schedulers (directory read, file hash) and [createRoot];
    - [XCopy]: the File and Directory state machines of the recursive copy
      (file.js, directory.js), run over a tree of nodes.

    JavaScript objects are records, [Set]s whose iteration order the code relies on
    are duplicate-free lists in insertion order, [Map]s are [gmap]s, and the
    asynchronous collaborators are answered by the environment: their completions
    are inputs of the model. *)

From stdpp Require Import gmap strings list.

(** ** JavaScript [Set], in insertion order *)

Section js_set.
Context {A : Type} `{EqDecision A}.

(** [Set.prototype.add]: a value already present keeps its place. *)
Definition set_add (x : A) (s : list A) : list A :=
  if decide (x ∈ s) then s else s ++ [x].

(** [Set.prototype.delete]. *)
Definition set_delete (x : A) (s : list A) : list A :=
  filter (λ y, y ≠ x) s.

(** [s[Symbol.iterator]().next().value]: the oldest member. *)
Definition set_first (s : list A) : option A := head s.
End js_set.

(** * Forest (src/vfs/forest.js) *)

Module Forest.

(** The runtime's [process.nextTick] queue holds the callbacks the two
    [reqSched*] methods register. *)
Inductive Task := RunScheduleDirRead | RunScheduleFileHash.

#[global] Instance Task_eq_dec : EqDecision Task.
Proof. solve_decision. Defined.

(** Whether a Directory still has to be created at its destination. *)
Inductive Phase := InCreation | PastCreation.

(** What [forceXstat] hands back, as far as forest.js reads it. *)
Record Xstat := mkXstat { xs_uuid : string }.

(** The Directory object as forest.js uses it: [dir.uuid] keys the buckets and
    the index. *)
Record Directory := mkDirectory {
  dir_uuid : string;
  dir_parent : option string;
  dir_phase : Phase
}.

(** The fields the constructor of [Forest] initialises, then the two
    [*Scheduled] flags (first assigned by [reqSched*]; [undefined] reads as
    [false]), then what the runtime holds for this object: the next-tick queue
    and the events it emitted. Files are known to the Forest by reference; a
    string stands for the reference. *)
Record Forest := mkForest {
  dir : string;
  mediaMap : list string;
  roots : gmap string Directory;
  uuidMap : gmap string Directory;
  initDirs : list string;
  pendingDirs : list string;
  readingDirs : list string;
  hashlessFiles : list string;
  hashingFiles : list string;
  hashFailedFiles : list string;
  dirReadScheduled : bool;
  fileHashScheduled : bool;
  nextTick : list Task;
  emitted : list string
}.

Definition with_mediaMap (f : Forest) v :=
  mkForest (dir f) v (roots f) (uuidMap f) (initDirs f) (pendingDirs f)
    (readingDirs f) (hashlessFiles f) (hashingFiles f) (hashFailedFiles f)
    (dirReadScheduled f) (fileHashScheduled f) (nextTick f) (emitted f).
Definition with_roots (f : Forest) v :=
  mkForest (dir f) (mediaMap f) v (uuidMap f) (initDirs f) (pendingDirs f)
    (readingDirs f) (hashlessFiles f) (hashingFiles f) (hashFailedFiles f)
    (dirReadScheduled f) (fileHashScheduled f) (nextTick f) (emitted f).
Definition with_uuidMap (f : Forest) v :=
  mkForest (dir f) (mediaMap f) (roots f) v (initDirs f) (pendingDirs f)
    (readingDirs f) (hashlessFiles f) (hashingFiles f) (hashFailedFiles f)
    (dirReadScheduled f) (fileHashScheduled f) (nextTick f) (emitted f).
Definition with_initDirs (f : Forest) v :=
  mkForest (dir f) (mediaMap f) (roots f) (uuidMap f) v (pendingDirs f)
    (readingDirs f) (hashlessFiles f) (hashingFiles f) (hashFailedFiles f)
    (dirReadScheduled f) (fileHashScheduled f) (nextTick f) (emitted f).
Definition with_pendingDirs (f : Forest) v :=
  mkForest (dir f) (mediaMap f) (roots f) (uuidMap f) (initDirs f) v
    (readingDirs f) (hashlessFiles f) (hashingFiles f) (hashFailedFiles f)
    (dirReadScheduled f) (fileHashScheduled f) (nextTick f) (emitted f).
Definition with_readingDirs (f : Forest) v :=
  mkForest (dir f) (mediaMap f) (roots f) (uuidMap f) (initDirs f)
    (pendingDirs f) v (hashlessFiles f) (hashingFiles f) (hashFailedFiles f)
    (dirReadScheduled f) (fileHashScheduled f) (nextTick f) (emitted f).
Definition with_hashlessFiles (f : Forest) v :=
  mkForest (dir f) (mediaMap f) (roots f) (uuidMap f) (initDirs f)
    (pendingDirs f) (readingDirs f) v (hashingFiles f) (hashFailedFiles f)
    (dirReadScheduled f) (fileHashScheduled f) (nextTick f) (emitted f).
Definition with_hashingFiles (f : Forest) v :=
  mkForest (dir f) (mediaMap f) (roots f) (uuidMap f) (initDirs f)
    (pendingDirs f) (readingDirs f) (hashlessFiles f) v (hashFailedFiles f)
    (dirReadScheduled f) (fileHashScheduled f) (nextTick f) (emitted f).
Definition with_hashFailedFiles (f : Forest) v :=
  mkForest (dir f) (mediaMap f) (roots f) (uuidMap f) (initDirs f)
    (pendingDirs f) (readingDirs f) (hashlessFiles f) (hashingFiles f) v
    (dirReadScheduled f) (fileHashScheduled f) (nextTick f) (emitted f).
Definition with_dirReadScheduled (f : Forest) v :=
  mkForest (dir f) (mediaMap f) (roots f) (uuidMap f) (initDirs f)
    (pendingDirs f) (readingDirs f) (hashlessFiles f) (hashingFiles f)
    (hashFailedFiles f) v (fileHashScheduled f) (nextTick f) (emitted f).
Definition with_fileHashScheduled (f : Forest) v :=
  mkForest (dir f) (mediaMap f) (roots f) (uuidMap f) (initDirs f)
    (pendingDirs f) (readingDirs f) (hashlessFiles f) (hashingFiles f)
    (hashFailedFiles f) (dirReadScheduled f) v (nextTick f) (emitted f).
Definition with_nextTick (f : Forest) v :=
  mkForest (dir f) (mediaMap f) (roots f) (uuidMap f) (initDirs f)
    (pendingDirs f) (readingDirs f) (hashlessFiles f) (hashingFiles f)
    (hashFailedFiles f) (dirReadScheduled f) (fileHashScheduled f) v
    (emitted f).
Definition with_emitted (f : Forest) v :=
  mkForest (dir f) (mediaMap f) (roots f) (uuidMap f) (initDirs f)
    (pendingDirs f) (readingDirs f) (hashlessFiles f) (hashingFiles f)
    (hashFailedFiles f) (dirReadScheduled f) (fileHashScheduled f)
    (nextTick f) v.

(** [path.join(froot, 'drives')]. *)
Definition path_join (a b : string) : string := a +:+ "/" +:+ b.

(** The fields [new Forest(froot, mediaMap)] sets; the two flags are first
    read while still undefined. The constructor also creates [this.dir] on disk
    ([mkdirp.sync]): see [started]. *)
Definition new_Forest (froot : string) : Forest :=
  mkForest (path_join froot "drives") [] ∅ ∅ [] [] [] [] [] [] false false [] [].

(** *** File buckets *)

Definition fileEnterHashless (file : string) (f : Forest) : Forest :=
  with_hashlessFiles f (set_add file (hashlessFiles f)).
Definition fileExitHashless (file : string) (f : Forest) : Forest :=
  with_hashlessFiles f (set_delete file (hashlessFiles f)).
Definition fileEnterHashing (file : string) (f : Forest) : Forest :=
  with_hashingFiles f (set_add file (hashingFiles f)).
Definition fileExitHashing (file : string) (f : Forest) : Forest :=
  with_hashingFiles f (set_delete file (hashingFiles f)).
Definition fileEnterHashFailed (file : string) (f : Forest) : Forest :=
  with_hashFailedFiles f (set_add file (hashFailedFiles f)).
Definition fileExitHashFailed (file : string) (f : Forest) : Forest :=
  with_hashFailedFiles f (set_delete file (hashFailedFiles f)).

(** [this.mediaMap.indexFile(file)] / [unindexFile]: the hash index is the
    collaborator's; a set of the indexed files stands for it. *)
Definition fileEnterHashed (file : string) (f : Forest) : Forest :=
  with_mediaMap f (set_add file (mediaMap f)).
Definition fileExitHashed (file : string) (f : Forest) : Forest :=
  with_mediaMap f (set_delete file (mediaMap f)).

Definition reqSchedFileHash (f : Forest) : Forest :=
  if fileHashScheduled f then f
  else with_nextTick (with_fileHashScheduled f true)
         (nextTick f ++ [RunScheduleFileHash]).

(** Modelled from the spec: the File class of the identity cache (its
    [calcFingerprint] is called by [scheduleFileHash]) is not among the sources.
    Spec 4.3: the hash scheduler "maintains a ceiling of 2 concurrently hashing
    Files", each bucket operation being "the sole side effect triggered by the
    corresponding state transition": starting the fingerprint moves the file
    from the hashless bucket to the hashing bucket. *)
Definition File_calcFingerprint (file : string) (f : Forest) : Forest :=
  fileEnterHashing file (fileExitHashless file f).

(** The [while] loop of [scheduleFileHash]; [None] when the fuel runs out
    before the loop condition fails. *)
Fixpoint scheduleFileHash_loop (fuel : nat) (f : Forest) : option Forest :=
  if bool_decide (0 < length (hashlessFiles f) ∧ length (hashingFiles f) < 2)
  then match fuel with
       | 0 => None
       | S fuel' =>
           match set_first (hashlessFiles f) with
           | Some file => scheduleFileHash_loop fuel' (File_calcFingerprint file f)
           | None => Some f
           end
       end
  else Some f.

Definition scheduleFileHash (fuel : nat) (f : Forest) : option Forest :=
  scheduleFileHash_loop fuel (with_fileHashScheduled f false).

(** *** Directory index and buckets *)

Definition indexDirectory (d : Directory) (f : Forest) : Forest :=
  with_uuidMap f (<[dir_uuid d := d]> (uuidMap f)).
Definition unindexDirectory (d : Directory) (f : Forest) : Forest :=
  with_uuidMap f (delete (dir_uuid d) (uuidMap f)).

Definition reqSchedDirRead (f : Forest) : Forest :=
  if dirReadScheduled f then f
  else with_nextTick (with_dirReadScheduled f true)
         (nextTick f ++ [RunScheduleDirRead]).

Definition dirEnterInit (d : Directory) (f : Forest) : Forest :=
  reqSchedDirRead (with_initDirs f (set_add (dir_uuid d) (initDirs f))).
Definition dirExitInit (d : Directory) (f : Forest) : Forest :=
  reqSchedDirRead (with_initDirs f (set_delete (dir_uuid d) (initDirs f))).
Definition dirEnterPending (d : Directory) (f : Forest) : Forest :=
  reqSchedDirRead (with_pendingDirs f (set_add (dir_uuid d) (pendingDirs f))).
Definition dirExitPending (d : Directory) (f : Forest) : Forest :=
  reqSchedDirRead (with_pendingDirs f (set_delete (dir_uuid d) (pendingDirs f))).
Definition dirEnterReading (d : Directory) (f : Forest) : Forest :=
  reqSchedDirRead (with_readingDirs f (set_add (dir_uuid d) (readingDirs f))).
Definition dirExitReading (d : Directory) (f : Forest) : Forest :=
  reqSchedDirRead (with_readingDirs f (set_delete (dir_uuid d) (readingDirs f))).

Definition dirReadSettled (f : Forest) : bool :=
  bool_decide (length (initDirs f) = 0) &&
  bool_decide (length (pendingDirs f) = 0) &&
  bool_decide (length (readingDirs f) = 0).

(** Modelled from the spec: the Directory class that forest.js requires as
    ./directory is not among the sources (the Directory of the copy engine takes
    other constructor arguments and talks to another context). Spec 4.3: a pass
    "pulls directories out of the 'needs probing' bucket and issues a probe/read
    request to each": [read] takes the directory out of the init bucket and puts
    it into the reading bucket. *)
Definition Directory_read (d : Directory) (f : Forest) : Forest :=
  dirEnterReading d (dirExitInit d f).

(** The [while] loop of [scheduleDirRead]. An init uuid that the index does
    not know is skipped without being removed ([if (dir) dir.read()]), so the
    loop condition stays true. *)
Fixpoint scheduleDirRead_loop (fuel : nat) (f : Forest) : option Forest :=
  if bool_decide (0 < length (initDirs f) ∧ length (readingDirs f) < 6)
  then match fuel with
       | 0 => None
       | S fuel' =>
           match set_first (initDirs f) with
           | Some uuid =>
               match uuidMap f !! uuid with
               | Some d => scheduleDirRead_loop fuel' (Directory_read d f)
               | None => scheduleDirRead_loop fuel' f
               end
           | None => Some f
           end
       end
  else Some f.

Definition scheduleDirRead (fuel : nat) (f : Forest) : option Forest :=
  let f := with_dirReadScheduled f false in
  if dirReadSettled f
  then Some (with_emitted f (emitted f ++ ["dirReadSettled"]))
  else scheduleDirRead_loop fuel f.

(** *** createRoot *)

(** The disk, as far as [createRoot] touches it: which directories exist and
    the identifier stamped on each. *)
Abbreviation Disk := (gmap string (option string)).

(** How the two file-system collaborators answer one call of [createRoot]. *)
Record Answers := mkAnswers {
  mkdirp_err : option string;
  forceXstat_err : option string
}.

(** Modelled from the spec: [mkdirp] is an external module. Spec 4.3:
    "materializes (creates if absent) the destination root directory". *)
Definition mkdirp_sync (p : string) (k : Disk) : Disk :=
  match k !! p with Some _ => k | None => <[p := None]> k end.

Definition mkdirp (p : string) (a : Answers) (k : Disk) : string + Disk :=
  match mkdirp_err a with
  | Some e => inl e
  | None => inr (mkdirp_sync p k)
  end.

(** A Forest just constructed, on a disk that held nothing before. *)
Definition started (froot : string) : Forest * Disk :=
  (new_Forest froot, mkdirp_sync (path_join froot "drives") ∅).

(** Modelled from the spec: [forceXstat] (../lib/xstat) is not among the
    sources. Spec 4.3: "stamps it with driveId as its identifier"; it answers
    with the stat of the stamped entry. *)
Definition forceXstat (p uuid : string) (a : Answers) (k : Disk)
  : string + (Disk * Xstat) :=
  match forceXstat_err a with
  | Some e => inl e
  | None =>
      match k !! p with
      | Some _ => inr (<[p := Some uuid]> k, mkXstat uuid)
      | None => inl "ENOENT"
      end
  end.

(** Modelled from the spec: the constructor of the Directory class that
    forest.js requires as ./directory is not among the sources. Spec 4.3:
    [createRoot] "constructs a root Directory already past the creation phase,
    and registers it under both the per-drive root map and the global id map";
    spec 3: "Forest's root entries and global index entries are created on
    createRoot / node construction". The root map is written by [createRoot]
    itself, so the constructor is what writes the global id map. *)
Definition new_Directory (f : Forest) (parent : option string) (x : Xstat)
  : Forest * Directory :=
  let d := mkDirectory (xs_uuid x) parent PastCreation in
  (indexDirectory d f, d).

Definition createRoot (uuid : string) (a : Answers) (f : Forest) (k : Disk)
  : Forest * Disk * (string + Directory) :=
  let dirPath := path_join (dir f) uuid in
  match mkdirp dirPath a k with
  | inl err => (f, k, inl err)
  | inr k1 =>
      match forceXstat dirPath uuid a k1 with
      | inl err => (f, k1, inl err)
      | inr (k2, xstat) =>
          let '(f1, root) := new_Directory f None xstat in
          (with_roots f1 (<[uuid := root]> (roots f1)), k2, inr root)
      end
  end.

(** *** Executions *)

(** Node runs the callbacks of the next-tick queue one at a time, oldest
    first. *)
Definition tick (fuel : nat) (f : Forest) : option Forest :=
  match nextTick f with
  | [] => Some f
  | RunScheduleDirRead :: q => scheduleDirRead fuel (with_nextTick f q)
  | RunScheduleFileHash :: q => scheduleFileHash fuel (with_nextTick f q)
  end.

(** What happens to a Forest: the calls of its methods by the directories and
    files it caches and by its users, and the runtime running a queued callback.
    A directory enters the reading bucket, and a file the hashing bucket, through
    the request a scheduling pass issues ([Directory_read],
    [File_calcFingerprint]); [dirEnterReading] and [fileEnterHashing] are
    therefore no events of their own. *)
Inductive Event :=
| IndexDirectory (d : Directory)
| UnindexDirectory (d : Directory)
| DirEnterInit (d : Directory)
| DirExitInit (d : Directory)
| DirEnterPending (d : Directory)
| DirExitPending (d : Directory)
| DirExitReading (d : Directory)
| FileEnterHashless (file : string)
| FileExitHashless (file : string)
| FileExitHashing (file : string)
| FileEnterHashFailed (file : string)
| FileExitHashFailed (file : string)
| FileEnterHashed (file : string)
| FileExitHashed (file : string)
| ReqSchedDirRead
| ReqSchedFileHash
| CreateRoot (uuid : string) (a : Answers)
| Tick (fuel : nat).

(** One event; [None] when a scheduling pass does not return within the
    fuel. *)
Definition step (ev : Event) (w : Forest * Disk) : option (Forest * Disk) :=
  let '(f, k) := w in
  match ev with
  | IndexDirectory d => Some (indexDirectory d f, k)
  | UnindexDirectory d => Some (unindexDirectory d f, k)
  | DirEnterInit d => Some (dirEnterInit d f, k)
  | DirExitInit d => Some (dirExitInit d f, k)
  | DirEnterPending d => Some (dirEnterPending d f, k)
  | DirExitPending d => Some (dirExitPending d f, k)
  | DirExitReading d => Some (dirExitReading d f, k)
  | FileEnterHashless x => Some (fileEnterHashless x f, k)
  | FileExitHashless x => Some (fileExitHashless x f, k)
  | FileExitHashing x => Some (fileExitHashing x f, k)
  | FileEnterHashFailed x => Some (fileEnterHashFailed x f, k)
  | FileExitHashFailed x => Some (fileExitHashFailed x f, k)
  | FileEnterHashed x => Some (fileEnterHashed x f, k)
  | FileExitHashed x => Some (fileExitHashed x f, k)
  | ReqSchedDirRead => Some (reqSchedDirRead f, k)
  | ReqSchedFileHash => Some (reqSchedFileHash f, k)
  | CreateRoot uuid a => let '(f, k, _) := createRoot uuid a f k in Some (f, k)
  | Tick fuel => f ← tick fuel f; Some (f, k)
  end.

Fixpoint run (evs : list Event) (w : Forest * Disk) : option (Forest * Disk) :=
  match evs with
  | [] => Some w
  | ev :: evs => w ← step ev w; run evs w
  end.

(** The states an execution passes through, from a new Forest on. *)
Inductive reachable : Forest * Disk → Prop :=
| reachable_new froot : reachable (started froot)
| reachable_step w ev w' : reachable w → step ev w = Some w' → reachable w'.

(** *** Requests for a scheduling pass within one turn *)

(** What asks for a pass: each of the six directory bucket methods (they all
    end in [this.reqSchedDirRead()]), and a direct call of either [reqSched*]
    method (the file bucket methods do not ask by themselves). *)
Inductive Request :=
| ByDirEnterInit (d : Directory)
| ByDirExitInit (d : Directory)
| ByDirEnterPending (d : Directory)
| ByDirExitPending (d : Directory)
| ByDirEnterReading (d : Directory)
| ByDirExitReading (d : Directory)
| ByReqSchedDirRead
| ByReqSchedFileHash.

Definition request (r : Request) (f : Forest) : Forest :=
  match r with
  | ByDirEnterInit d => dirEnterInit d f
  | ByDirExitInit d => dirExitInit d f
  | ByDirEnterPending d => dirEnterPending d f
  | ByDirExitPending d => dirExitPending d f
  | ByDirEnterReading d => dirEnterReading d f
  | ByDirExitReading d => dirExitReading d f
  | ByReqSchedDirRead => reqSchedDirRead f
  | ByReqSchedFileHash => reqSchedFileHash f
  end.



(** How many passes of a scheduler wait in the next-tick queue. *)
Definition queued (t : Task) (f : Forest) : nat :=
  length (filter (λ t', t' = t) (nextTick f)).

(** The flag that guards the request of a pass. *)
Definition scheduled (t : Task) (f : Forest) : bool :=
  match t with
  | RunScheduleDirRead => dirReadScheduled f
  | RunScheduleFileHash => fileHashScheduled f
  end.

(** *** Invariants *)


(** A flag is set exactly while its callback waits in the queue, once. *)
Definition debounced (f : Forest) : Prop :=
  queued RunScheduleDirRead f = (if dirReadScheduled f then 1 else 0) ∧
  queued RunScheduleFileHash f = (if fileHashScheduled f then 1 else 0).

(** Every uuid waiting in the init bucket is the key of its own Directory in
    the index. *)
Definition init_indexed (f : Forest) : Prop :=
  ∀ u, u ∈ initDirs f → ∃ d, uuidMap f !! u = Some d ∧ dir_uuid d = u.

(** *** Scenarios *)

(** A burst: eight directories become eligible and three files lose their
    hash within one turn; then the two queued passes run. *)
Definition burst : list Event :=
  let d (u : string) := mkDirectory u None PastCreation in
  [IndexDirectory (d "d1"); DirEnterInit (d "d1");
   IndexDirectory (d "d2"); DirEnterInit (d "d2");
   IndexDirectory (d "d3"); DirEnterInit (d "d3");
   IndexDirectory (d "d4"); DirEnterInit (d "d4");
   IndexDirectory (d "d5"); DirEnterInit (d "d5");
   IndexDirectory (d "d6"); DirEnterInit (d "d6");
   IndexDirectory (d "d7"); DirEnterInit (d "d7");
   IndexDirectory (d "d8"); DirEnterInit (d "d8");
   FileEnterHashless "a"; FileEnterHashless "b"; FileEnterHashless "c";
   ReqSchedFileHash; Tick 8; Tick 3].

Definition after_burst : Forest * Disk :=
  default (started "/data") (run burst (started "/data")).


(** *** What the two schedulers share, and what they do not *)

(** The part of a Forest the directory methods and the directory pass have
    no business with. *)
Definition file_side (f : Forest)
  : list string * list string * list string * list string * bool * nat :=
  (hashlessFiles f, hashingFiles f, hashFailedFiles f, mediaMap f,
   fileHashScheduled f, queued RunScheduleFileHash f).


(** A Forest with one directory waiting for its first read that was never
    indexed. *)
Definition unindexed_waiting : Forest :=
  dirEnterInit (mkDirectory "d1" None PastCreation) (new_Forest "/data").

End Forest.

(** * The copy engine: File and Directory state machines *)

Module XCopy.

(** ** Values *)

(** A policy value: a string, or [null]/[undefined]. *)
Definition Policy := option string.

(** JavaScript truthiness of such a value, and [a || b]. *)
Definition truthy (p : option string) : bool :=
  match p with
  | Some s => negb (String.eqb s "")
  | None => false
  end.

Definition js_or (a b : option string) : option string :=
  if truthy a then a else b.

(** An error object, as far as the machines read it: [err.code] (tested by the
    directory machine) and [err.xcode] (tested by the file machine). *)
Record Err := mkErr { err_code : string; err_xcode : string }.

#[global] Instance Err_eq_dec : EqDecision Err.
Proof. solve_decision. Defined.

(** An entry of a directory listing. *)
Record Xstat := mkXstat { xs_uuid : string; xs_type : string; xs_name : string }.

(** Nodes are objects; a number stands for the reference. *)
Definition NodeId := nat.

(** The events a node emits. *)
Inductive Signal := SigError (e : Err) | SigFinish.

(** The calls made to the asynchronous collaborators of the context. *)
Inductive Call :=
| CpFile (srcDirUUID fileUUID fileName : string) (dstDirUUID : option string)
         (policy : Policy)
| Mkdirc (srcDirUUID : string) (dstDirUUID : option string)
         (policy : Policy * Policy)
| Readdir (srcUUID : string).

(** ** The context *)

(** One bucket per state class of each machine ([ctx.indexPendingFile], ...). *)
Inductive Bucket :=
| PendingFile | WorkingFile | ConflictFile | FailedFile | FinishedFile
| PendingDir | MakingDir | ConflictDir | ReadingDir | ReadDir | FailedDir
| FinishedDir.

#[global] Instance Bucket_eq_dec : EqDecision Bucket.
Proof. solve_decision. Defined.

Definition Bucket_code (b : Bucket) : nat :=
  match b with
  | PendingFile => 0 | WorkingFile => 1 | ConflictFile => 2 | FailedFile => 3
  | FinishedFile => 4 | PendingDir => 5 | MakingDir => 6 | ConflictDir => 7
  | ReadingDir => 8 | ReadDir => 9 | FailedDir => 10 | FinishedDir => 11
  end.

Definition Bucket_of_code (n : nat) : Bucket :=
  match n with
  | 0 => PendingFile | 1 => WorkingFile | 2 => ConflictFile | 3 => FailedFile
  | 4 => FinishedFile | 5 => PendingDir | 6 => MakingDir | 7 => ConflictDir
  | 8 => ReadingDir | 9 => ReadDir | 10 => FailedDir | _ => FinishedDir
  end.

#[global] Instance Bucket_countable : Countable Bucket.
Proof.
  refine (inj_countable' Bucket_code Bucket_of_code _). by intros [].
Defined.

(** Modelled from the spec: the context object ([ctx]) that the machines
    register with is not among the sources. Spec 4.3: the [enter*/exit*]
    operations "for every lifecycle bucket ... are idempotent set operations";
    spec 6: [defaultPolicy.file] and [defaultPolicy.dir[2]] are the process-wide
    fallback policies. [members] holds the pairs (bucket, node); [calls] is the
    log of collaborator invocations with the node whose state made each one;
    [emits] is the log of the events the nodes emitted; [next_id] numbers the
    objects as they are constructed. *)
Record Ctx := mkCtx {
  members : gset (Bucket * NodeId);
  policies_file : Policy;
  policies_dir : Policy * Policy;
  calls : list (NodeId * Call);
  emits : list (NodeId * Signal);
  next_id : NodeId
}.

Definition index (b : Bucket) (n : NodeId) (c : Ctx) : Ctx :=
  mkCtx ({[ (b, n) ]} ∪ members c) (policies_file c) (policies_dir c) (calls c)
    (emits c) (next_id c).

Definition unindex (b : Bucket) (n : NodeId) (c : Ctx) : Ctx :=
  mkCtx (members c ∖ {[ (b, n) ]}) (policies_file c) (policies_dir c) (calls c)
    (emits c) (next_id c).

Definition invoke (n : NodeId) (k : Call) (c : Ctx) : Ctx :=
  mkCtx (members c) (policies_file c) (policies_dir c) (calls c ++ [(n, k)])
    (emits c) (next_id c).

Definition emit (n : NodeId) (s : Signal) (c : Ctx) : Ctx :=
  mkCtx (members c) (policies_file c) (policies_dir c) (calls c)
    (emits c ++ [(n, s)]) (next_id c).

Definition fresh (c : Ctx) : NodeId * Ctx :=
  (next_id c,
   mkCtx (members c) (policies_file c) (policies_dir c) (calls c) (emits c)
     (S (next_id c))).

Definition new_Ctx (file : Policy) (dir : Policy * Policy) : Ctx :=
  mkCtx ∅ file dir [] [] 0.

(** ** Nodes *)

(** The state classes of a File. *)
Inductive FState := FPending | FWorking | FConflict | FFailed | FFinished.

#[global] Instance FState_eq_dec : EqDecision FState.
Proof. solve_decision. Defined.

(** A File. [f_state] is the field [state]: the File's constructor assigns it
    and nothing else does (the State constructor of the file machine stores
    [this.file] and does not write [file.state]; [setState] builds the next State
    and drops the reference). [f_live] is the State object built last: the one
    whose [enter] ran last, and, while it is a Working, the one the pending
    [cpFile] callback closes over; [f_captured] is the [policy] variable of that
    closure. *)
Record XFile := mkXFile {
  f_id : NodeId;
  f_srcUUID : string;
  f_srcName : string;
  f_policy : Policy;
  f_state : FState;
  f_live : FState;
  f_captured : Policy
}.

(** The states of a Directory; [state] is written by every State constructor
    ([this.dir.state = this]). Making carries the [policy] variable its [mkdirc]
    callback closes over; Conflict stores [err] and [policy]. *)
Inductive DState :=
| DPending
| DMaking (policy : Policy * Policy)
| DConflict (err : Err) (policy : Policy * Policy)
| DReading
| DRead
| DFailed
| DFinished.

#[global] Instance DState_eq_dec : EqDecision DState.
Proof. solve_decision. Defined.

(** A Directory without its children. [d_policy] is the two-slot array
    [this.policy] (spec 4.2: "a Directory carries a 2-slot policy [samePolicy,
    diffPolicy]"); [d_fstats] and [d_dstats] are the two queues. *)
Record XDir := mkXDir {
  d_id : NodeId;
  d_srcUUID : string;
  d_dstUUID : option string;
  d_policy : Policy * Policy;
  d_state : DState;
  d_fstats : list Xstat;
  d_dstats : list Xstat
}.

(** The tree of nodes: a Directory owns its [children] list; [parent] is the
    enclosing Directory. *)
#[warnings="-register-all"]
Inductive Node :=
| NFile (f : XFile)
| NDir (d : XDir) (children : list Node).

Definition node_id (n : Node) : NodeId :=
  match n with
  | NFile f => f_id f
  | NDir d _ => d_id d
  end.

Definition with_f_policy (f : XFile) (p : Policy) : XFile :=
  mkXFile (f_id f) (f_srcUUID f) (f_srcName f) p (f_state f) (f_live f)
    (f_captured f).

Definition with_f_live (f : XFile) (s : FState) : XFile :=
  mkXFile (f_id f) (f_srcUUID f) (f_srcName f) (f_policy f) (f_state f) s
    (f_captured f).

Definition with_f_captured (f : XFile) (p : Policy) : XFile :=
  mkXFile (f_id f) (f_srcUUID f) (f_srcName f) (f_policy f) (f_state f)
    (f_live f) p.

Definition with_d_dstUUID (d : XDir) (u : option string) : XDir :=
  mkXDir (d_id d) (d_srcUUID d) u (d_policy d) (d_state d) (d_fstats d)
    (d_dstats d).

Definition with_d_policy (d : XDir) (p : Policy * Policy) : XDir :=
  mkXDir (d_id d) (d_srcUUID d) (d_dstUUID d) p (d_state d) (d_fstats d)
    (d_dstats d).

Definition with_d_state (d : XDir) (s : DState) : XDir :=
  mkXDir (d_id d) (d_srcUUID d) (d_dstUUID d) (d_policy d) s (d_fstats d)
    (d_dstats d).

Definition with_d_fstats (d : XDir) (l : list Xstat) : XDir :=
  mkXDir (d_id d) (d_srcUUID d) (d_dstUUID d) (d_policy d) (d_state d) l
    (d_dstats d).

Definition with_d_dstats (d : XDir) (l : list Xstat) : XDir :=
  mkXDir (d_id d) (d_srcUUID d) (d_dstUUID d) (d_policy d) (d_state d)
    (d_fstats d) l.

(** [l.forEach(x => visit(x))], threading the context; the second form also
    collects what each visit leaves of its node. *)
Section forEach.
Context {A B : Type}.

Fixpoint forEach (visit : A → Ctx → Ctx) (l : list A) (c : Ctx) : Ctx :=
  match l with
  | [] => c
  | x :: l => forEach visit l (visit x c)
  end.

Fixpoint forEach_map (visit : A → Ctx → Ctx * B) (l : list A) (c : Ctx)
  : Ctx * list B :=
  match l with
  | [] => (c, [])
  | x :: l =>
      let '(c, y) := visit x c in
      let '(c, l) := forEach_map visit l c in
      (c, y :: l)
  end.
End forEach.

(** What a method leaves behind when it throws. *)
Inductive Outcome (A : Type) :=
| Returned (a : A)
| Threw (what : string).
Arguments Returned {A} a.
Arguments Threw {A} what.

(** ** The file machine *)

Module File.

(** [getPolicy]: [this.policy || this.ctx.policies.file || null]. *)
Definition getPolicy (f : XFile) (c : Ctx) : Policy :=
  js_or (f_policy f) (js_or (policies_file c) None).

Definition setPolicy (p : Policy) (f : XFile) : XFile := with_f_policy f p.

(** The State classes: what [enter] and [exit] of each do. *)

Definition Pending_enter (f : XFile) (c : Ctx) : Ctx :=
  index PendingFile (f_id f) c.

Definition Pending_exit (f : XFile) (c : Ctx) : Ctx :=
  unindex PendingFile (f_id f) c.

(** [Working.enter]: registers the file, reads the five arguments and calls
    [cpFile]; the callback is [Working_callback] below. *)
Definition Working_enter (parent : XDir) (f : XFile) (c : Ctx) : Ctx * XFile :=
  let c := index WorkingFile (f_id f) c in
  let srcDirUUID := d_srcUUID parent in
  let dstDirUUID := d_dstUUID parent in
  let fileUUID := f_srcUUID f in
  let fileName := f_srcName f in
  let policy := getPolicy f c in
  (invoke (f_id f) (CpFile srcDirUUID fileUUID fileName dstDirUUID policy) c,
   with_f_captured f policy).

Definition Working_exit (f : XFile) (c : Ctx) : Ctx :=
  unindex WorkingFile (f_id f) c.

Definition Conflict_enter (f : XFile) (c : Ctx) : Ctx :=
  index ConflictFile (f_id f) c.

Definition Conflict_exit (f : XFile) (c : Ctx) : Ctx :=
  unindex ConflictFile (f_id f) c.

Definition Failed_enter (e : Err) (f : XFile) (c : Ctx) : Ctx :=
  emit (f_id f) (SigError e) (index FailedFile (f_id f) c).

(** [Failed.exit] calls [unindexWorkingFile]. *)
Definition Failed_exit (f : XFile) (c : Ctx) : Ctx :=
  unindex WorkingFile (f_id f) c.

Definition Finished_enter (f : XFile) (c : Ctx) : Ctx :=
  emit (f_id f) SigFinish (index FinishedFile (f_id f) c).

Definition Finished_exit (f : XFile) (c : Ctx) : Ctx :=
  unindex FinishedFile (f_id f) c.

(** [this.exit()], by the class of [this]. *)
Definition exit (self : FState) (f : XFile) (c : Ctx) : Ctx :=
  match self with
  | FPending => Pending_exit f c
  | FWorking => Working_exit f c
  | FConflict => Conflict_exit f c
  | FFailed => Failed_exit f c
  | FFinished => Finished_exit f c
  end.

(** A class together with the arguments [setState] is called with. *)
Inductive Next :=
| ToPending
| ToWorking
| ToConflict (err : Err) (policy : Policy)
| ToFailed (err : Err)
| ToFinished.

Definition class_of (n : Next) : FState :=
  match n with
  | ToPending => FPending
  | ToWorking => FWorking
  | ToConflict _ _ => FConflict
  | ToFailed _ => FFailed
  | ToFinished => FFinished
  end.

(** [new NextState(file, ...args)]: [this.file = file; this.enter(...args)].
    The new object is stored nowhere: [f_state] stays as it is. [enter] of
    Conflict declares no parameter, so its two arguments are dropped. The signal
    is what the node emitted, for the listeners of the parent. *)
Definition construct (n : Next) (parent : XDir) (f : XFile) (c : Ctx)
  : Ctx * XFile * option Signal :=
  let f := with_f_live f (class_of n) in
  match n with
  | ToPending => (Pending_enter f c, f, None)
  | ToWorking => let '(c, f) := Working_enter parent f c in (c, f, None)
  | ToConflict _ _ => (Conflict_enter f c, f, None)
  | ToFailed e => (Failed_enter e f c, f, Some (SigError e))
  | ToFinished => (Finished_enter f c, f, Some SigFinish)
  end.

(** [State.setState]: [this.exit(); new NextState(this.file, ...args)]. *)
Definition State_setState (self : FState) (n : Next) (parent : XDir)
    (f : XFile) (c : Ctx) : Ctx * XFile * option Signal :=
  construct n parent f (exit self f c).

(** [State.destroy]: [this.exit()]. *)
Definition State_destroy (self : FState) (f : XFile) (c : Ctx) : Ctx :=
  exit self f c.

(** The callback [Working.enter] hands to [cpFile]; [this] is the Working
    state and [policy] the variable read in [enter]. *)
Definition Working_callback (err : option Err) (parent : XDir) (f : XFile)
    (c : Ctx) : Ctx * XFile * option Signal :=
  let policy := f_captured f in
  match err with
  | Some e =>
      if String.eqb (err_xcode e) "ECONFLICT"
      then State_setState FWorking (ToConflict e policy) parent f c
      else State_setState FWorking (ToFailed e) parent f c
  | None => State_setState FWorking ToFinished parent f c
  end.

(** The properties [dir] and [policy] of a State of the file machine: its
    constructor assigns [file] only, so both read as [undefined]. *)
Definition state_dir : option XDir := None.
Definition state_policy : Policy := None.

(** [Conflict.resolve]: [if (this.policy !== this.dir.getPolicy())
    this.setState(Working)]. Reading [getPolicy] off [this.dir] throws when
    [this.dir] is undefined; were it a Directory, its [getPolicy] would answer
    with a new array, which is never identical to [this.policy]. *)
Definition Conflict_resolve (parent : XDir) (f : XFile) (c : Ctx)
  : Outcome (Ctx * XFile) :=
  match state_dir with
  | None => Threw "TypeError"
  | Some _ =>
      let '(c, f, _) := State_setState FConflict ToWorking parent f c in
      Returned (c, f)
  end.

(** [this.resolve()], by the class of [this]: only Conflict overrides the
    empty method of State. *)
Definition State_resolve (self : FState) (parent : XDir) (f : XFile) (c : Ctx)
  : Outcome (Ctx * XFile) :=
  match self with
  | FConflict => Conflict_resolve parent f c
  | _ => Returned (c, f)
  end.

(** [new File(ctx, parent, srcUUID, srcName)]. The super constructor (Node, not
    among the sources) links the file to its parent; the caller appends it to
    the parent's [children]. *)
Definition new_File (srcUUID srcName : string) (c : Ctx) : Ctx * XFile :=
  let '(id, c) := fresh c in
  let f := mkXFile id srcUUID srcName None FPending FPending None in
  (Pending_enter f c, f).

(** [File.destroy(detach)]: [this.state.destroy(); super.destroy(detach)].
    Detaching is done by the owner of the [children] list. *)
Definition destroy (f : XFile) (c : Ctx) : Ctx :=
  State_destroy (f_state f) f c.

(** [File.setState(NextState)]: [this.state.setState(NextState)]. The method
    passes the class on without arguments, so it serves for the classes whose
    [enter] reads none. *)
Definition setState (n : Next) (parent : XDir) (f : XFile) (c : Ctx)
  : Ctx * XFile * option Signal :=
  State_setState (f_state f) n parent f c.

(** [File.resolve()]: [this.state.resolve()]. *)
Definition resolve (parent : XDir) (f : XFile) (c : Ctx)
  : Outcome (Ctx * XFile) :=
  State_resolve (f_state f) parent f c.

End File.

(** ** The directory machine *)

Module Directory.

(** [getPolicy]: each slot of [this.policy], else the context's default for
    that slot, else [null]. *)
Definition getPolicy (d : XDir) (c : Ctx) : Policy * Policy :=
  (js_or (fst (d_policy d)) (js_or (fst (policies_dir c)) None),
   js_or (snd (d_policy d)) (js_or (snd (policies_dir c)) None)).

(** [this.exit()], by the class of [this]. *)
Definition exit (self : DState) (d : XDir) (c : Ctx) : Ctx :=
  match self with
  | DPending => unindex PendingDir (d_id d) c
  | DMaking _ => unindex MakingDir (d_id d) c
  | DConflict _ _ => unindex ConflictDir (d_id d) c
  | DReading => unindex ReadingDir (d_id d) c
  | DRead => unindex ReadDir (d_id d) c
  | DFailed => unindex FailedDir (d_id d) c
  | DFinished => unindex FinishedDir (d_id d) c
  end.

(** [State.destroy]: [this.exit()]. *)
Definition State_destroy (self : DState) (d : XDir) (c : Ctx) : Ctx :=
  exit self d c.

(** [destroy(detach)] of a node. A File: [File.destroy]. A Directory:
    [this.children.forEach(c => c.destroy()); this.state.destroy();
    super.destroy(detach)]. No field of the node is written; detaching is done
    by the owner of the [children] list. *)
Fixpoint destroy (n : Node) (c : Ctx) : Ctx :=
  match n with
  | NFile f => File.destroy f c
  | NDir d children =>
      let c := forEach destroy children c in
      State_destroy (d_state d) d c
  end.

(** A class together with the arguments [setState] is called with. *)
Inductive Next :=
| ToPending
| ToMaking
| ToConflict (err : Err) (policy : Policy * Policy)
| ToReading
| ToRead (xstats : list Xstat)
| ToFailed (err : Err)
| ToFinished.

Definition Pending_enter (d : XDir) (c : Ctx) : Ctx * XDir :=
  (index PendingDir (d_id d) c, with_d_state d DPending).

(** [Making.enter]; [this.dir.parent.dstUUID] is read off the enclosing
    Directory. (A Directory without a parent would throw here; the root of a
    copy is constructed with its [dstUUID] and is never Pending nor in
    Conflict.) *)
Definition Making_enter (parent : option XDir) (d : XDir) (c : Ctx)
  : Ctx * XDir :=
  let c := index MakingDir (d_id d) c in
  let srcDirUUID := d_srcUUID d in
  let dstDirUUID := parent ≫= d_dstUUID in
  let policy := getPolicy d c in
  (invoke (d_id d) (Mkdirc srcDirUUID dstDirUUID policy) c,
   with_d_state d (DMaking policy)).

Definition Conflict_enter (err : Err) (policy : Policy * Policy) (d : XDir)
    (c : Ctx) : Ctx * XDir :=
  (index ConflictDir (d_id d) c, with_d_state d (DConflict err policy)).

Definition Reading_enter (d : XDir) (c : Ctx) : Ctx * XDir :=
  (invoke (d_id d) (Readdir (d_srcUUID d)) (index ReadingDir (d_id d) c),
   with_d_state d DReading).

(** [Failed.enter]: the children are destroyed and stay in the list. *)
Definition Failed_enter (err : Err) (d : XDir) (children : list Node)
    (c : Ctx) : Ctx * XDir :=
  let c := index FailedDir (d_id d) c in
  let c := forEach destroy children c in
  (emit (d_id d) (SigError err) c, with_d_state d DFailed).

Definition Finished_enter (d : XDir) (c : Ctx) : Ctx * XDir :=
  (emit (d_id d) SigFinish (index FinishedDir (d_id d) c),
   with_d_state d DFinished).

(** [new Directory(ctx, parent, srcUUID)] as [Read.next] calls it: no
    [dstUUID], so the new Directory is Pending. The super constructor (Node, not
    among the sources) links it to its parent; the caller appends it to the
    parent's [children]. *)
Definition new_child_Directory (srcUUID : string) (c : Ctx) : Ctx * Node :=
  let '(id, c) := fresh c in
  let d := mkXDir id srcUUID None (None, None) DPending [] [] in
  let '(c, d) := Pending_enter d c in
  (c, NDir d []).

(** [Read.next], with [this] the Read state of [d]. The listeners it attaches
    to the new child are [on_child_signal] below. The last branch is
    [this.setState(Finished)]: [this.exit()], then [new Finished(this.dir)]. *)
Definition Read_next (d : XDir) (children : list Node) (c : Ctx)
  : Ctx * XDir * list Node * option Signal :=
  match d_fstats d with
  | fstat :: fstats =>
      let d := with_d_fstats d fstats in
      let '(c, file) := File.new_File (xs_uuid fstat) (xs_name fstat) c in
      (c, d, children ++ [NFile file], None)
  | [] =>
      match d_dstats d with
      | dstat :: dstats =>
          let d := with_d_dstats d dstats in
          let '(c, dir) := new_child_Directory (xs_uuid dstat) c in
          (c, d, children ++ [dir], None)
      | [] =>
          if bool_decide (length children = 0)
          then
            let '(c, d) := Finished_enter d (exit DRead d c) in
            (c, d, children, Some SigFinish)
          else (c, d, children, None)
      end
  end.

Definition is_type (t : string) (x : Xstat) : bool := String.eqb (xs_type x) t.

(** [Read.enter]. *)
Definition Read_enter (xstats : list Xstat) (d : XDir) (children : list Node)
    (c : Ctx) : Ctx * XDir * list Node * option Signal :=
  let d := with_d_state d DRead in
  let c := index ReadDir (d_id d) c in
  let d := with_d_dstats d (List.filter (is_type "directory") xstats) in
  let d := with_d_fstats d (List.filter (is_type "file") xstats) in
  Read_next d children c.

(** [new NextState(dir, ...args)]: [this.dir = dir; this.dir.state = this;
    this.enter(...args)]. *)
Definition construct (n : Next) (parent : option XDir) (d : XDir)
    (children : list Node) (c : Ctx)
  : Ctx * XDir * list Node * option Signal :=
  match n with
  | ToPending => let '(c, d) := Pending_enter d c in (c, d, children, None)
  | ToMaking => let '(c, d) := Making_enter parent d c in (c, d, children, None)
  | ToConflict e p =>
      let '(c, d) := Conflict_enter e p d c in (c, d, children, None)
  | ToReading => let '(c, d) := Reading_enter d c in (c, d, children, None)
  | ToRead xstats => Read_enter xstats d children c
  | ToFailed e =>
      let '(c, d) := Failed_enter e d children c in
      (c, d, children, Some (SigError e))
  | ToFinished =>
      let '(c, d) := Finished_enter d c in (c, d, children, Some SigFinish)
  end.

(** [State.setState]: [this.exit(); new NextState(this.dir, ...args)]. *)
Definition State_setState (self : DState) (n : Next) (parent : option XDir)
    (d : XDir) (children : list Node) (c : Ctx)
  : Ctx * XDir * list Node * option Signal :=
  construct n parent d children (exit self d c).

(** The callback [Making.enter] hands to [mkdirc]: an error, or the uuid of
    the stat it answers with. [this] is the Making state and [policy] the
    variable read in [enter]. *)
Definition Making_callback (policy : Policy * Policy) (r : Err + string)
    (parent : option XDir) (d : XDir) (children : list Node) (c : Ctx)
  : Ctx * XDir * list Node * option Signal :=
  match r with
  | inl err =>
      if String.eqb (err_code err) "EEXIST"
      then State_setState (DMaking policy) (ToConflict err policy) parent d
             children c
      else State_setState (DMaking policy) (ToFailed err) parent d children c
  | inr uuid =>
      let d := with_d_dstUUID d (Some uuid) in
      State_setState (DMaking policy) ToReading parent d children c
  end.

(** The callback [Reading.enter] hands to [readdir]. *)
Definition Reading_callback (r : Err + list Xstat) (parent : option XDir)
    (d : XDir) (children : list Node) (c : Ctx)
  : Ctx * XDir * list Node * option Signal :=
  match r with
  | inl err => State_setState DReading (ToFailed err) parent d children c
  | inr xstats => State_setState DReading (ToRead xstats) parent d children c
  end.

(** [this.retry()], by the class of [this]: only Conflict overrides the empty
    method of State, with [this.setState(Making)]. *)
Definition State_retry (self : DState) (parent : option XDir) (d : XDir)
    (children : list Node) (c : Ctx) : Ctx * XDir * list Node :=
  match self with
  | DConflict _ _ =>
      let '(c, d, children, _) :=
        State_setState self ToMaking parent d children c in
      (c, d, children)
  | _ => (c, d, children)
  end.

(** [Directory.retry]: [this.children.forEach(c => c.retry());
    this.state.retry()]. Modelled from the spec: a File child has no [retry]
    of its own in file.js and inherits it from Node, which is not among the
    sources; spec 4.2: "only Conflict reacts", so a File does nothing. *)
Fixpoint retry (parent : option XDir) (n : Node) (c : Ctx) : Ctx * Node :=
  match n with
  | NFile f => (c, NFile f)
  | NDir d children =>
      let '(c, children) := forEach_map (retry (Some d)) children c in
      let '(c, d, children) := State_retry (d_state d) parent d children c in
      (c, NDir d children)
  end.

(** [Directory.setPolicy(type, policy)]. *)
Definition setPolicy (type : string) (policy : Policy) (parent : option XDir)
    (d : XDir) (children : list Node) (c : Ctx) : Ctx * Node :=
  let d :=
    if String.eqb type "same"
    then with_d_policy d (policy, snd (d_policy d))
    else with_d_policy d (fst (d_policy d), policy) in
  retry parent (NDir d children) c.

(** [Directory.setState(NextState)]: [this.state.setState(NextState)]. *)
Definition setState (n : Next) (parent : option XDir) (d : XDir)
    (children : list Node) (c : Ctx)
  : Ctx * XDir * list Node * option Signal :=
  State_setState (d_state d) n parent d children c.

(** [new Directory(ctx, null, srcUUID, dstUUID, xstats)]: the root of a copy.
    "dstUUID and xstats must be provided together": with a truthy [dstUUID] the
    Directory starts in Read over the listing, else it is Pending. *)
Definition new_Directory (srcUUID : string) (dstUUID : option string)
    (xstats : list Xstat) (c : Ctx) : Ctx * Node * option Signal :=
  let '(id, c) := fresh c in
  let d := mkXDir id srcUUID None (None, None) DPending [] [] in
  if truthy dstUUID
  then
    let d := with_d_dstUUID d dstUUID in
    let '(c, d, children, s) := construct (ToRead xstats) None d [] c in
    (c, NDir d children, s)
  else
    let '(c, d) := Pending_enter d c in
    (c, NDir d [], None).

(** The two listeners [Read.next] attaches to a child, run when the child
    [ch] (between [pre] and [post] in the list) emits [s]:
    on [error], [this.next()]; on [finish], [child.destroy(true)] then
    [this.next()]. [this] is the Read state that made the child. *)
Definition on_child_signal (s : option Signal) (d : XDir)
    (pre : list Node) (ch : Node) (post : list Node) (c : Ctx)
  : Ctx * XDir * list Node * option Signal :=
  match s with
  | None => (c, d, pre ++ ch :: post, None)
  | Some (SigError _) => Read_next d (pre ++ ch :: post) c
  | Some SigFinish => Read_next d (pre ++ post) (destroy ch c)
  end.

End Directory.

(** ** Executions of a copy *)

(** What happens to a tree of nodes from outside. [Start] is the context
    scheduling a pending node; the three [*Done] events are the collaborators
    calling back; the rest are the calls of a user. *)
Inductive Event :=
| Start (n : NodeId)
| CpFileDone (n : NodeId) (err : option Err)
| MkdircDone (n : NodeId) (r : Err + string)
| ReaddirDone (n : NodeId) (r : Err + list Xstat)
| SetPolicy (n : NodeId) (type : string) (policy : Policy)
| Retry (n : NodeId)
| FileSetPolicy (n : NodeId) (policy : Policy)
| Resolve (n : NodeId)
| DestroyRoot.

Definition target (ev : Event) : option NodeId :=
  match ev with
  | Start n | CpFileDone n _ | MkdircDone n _ | ReaddirDone n _
  | SetPolicy n _ _ | Retry n | FileSetPolicy n _ | Resolve n => Some n
  | DestroyRoot => None
  end.

(** Modelled from the spec: the scheduler of the context is not among the
    sources. Spec 4.1: a Pending File is "registered in [the] pending-file
    bucket; awaits scheduling"; spec 4.2: a Pending Directory "awaits
    scheduling to attempt destination creation". The context starts a node that
    is Pending and in its pending bucket, with [setState(Working)] for a File
    and [setState(Making)] for a Directory. *)
Definition startable_file (f : XFile) (c : Ctx) : bool :=
  bool_decide (f_live f = FPending) &&
  bool_decide ((PendingFile, f_id f) ∈ members c).

Definition startable_dir (d : XDir) (c : Ctx) : bool :=
  bool_decide (d_state d = DPending) &&
  bool_decide ((PendingDir, d_id d) ∈ members c).

(** An event reaching the File it names. A callback runs once, for the
    Working state that made the call. *)
Definition on_file (ev : Event) (parent : option XDir) (f : XFile) (c : Ctx)
  : Ctx * XFile * option Signal :=
  match ev, parent with
  | Start _, Some p =>
      if startable_file f c then File.setState File.ToWorking p f c
      else (c, f, None)
  | CpFileDone _ err, Some p =>
      if bool_decide (f_live f = FWorking)
      then File.Working_callback err p f c
      else (c, f, None)
  | FileSetPolicy _ policy, _ => (c, File.setPolicy policy f, None)
  | Resolve _, Some p =>
      match File.resolve p f c with
      | Returned (c, f) => (c, f, None)
      | Threw _ => (c, f, None)
      end
  | _, _ => (c, f, None)
  end.

(** An event reaching the Directory it names. *)
Definition on_dir (ev : Event) (parent : option XDir) (d : XDir)
    (children : list Node) (c : Ctx) : Ctx * Node * option Signal :=
  match ev with
  | Start _ =>
      match parent with
      | Some _ =>
          if startable_dir d c
          then
            let '(c, d, children, s) :=
              Directory.setState Directory.ToMaking parent d children c in
            (c, NDir d children, s)
          else (c, NDir d children, None)
      | None => (c, NDir d children, None)
      end
  | MkdircDone _ r =>
      match d_state d with
      | DMaking policy =>
          let '(c, d, children, s) :=
            Directory.Making_callback policy r parent d children c in
          (c, NDir d children, s)
      | _ => (c, NDir d children, None)
      end
  | ReaddirDone _ r =>
      match d_state d with
      | DReading =>
          let '(c, d, children, s) :=
            Directory.Reading_callback r parent d children c in
          (c, NDir d children, s)
      | _ => (c, NDir d children, None)
      end
  | SetPolicy _ type policy =>
      let '(c, n) := Directory.setPolicy type policy parent d children c in
      (c, n, None)
  | Retry _ =>
      let '(c, n) := Directory.retry parent (NDir d children) c in
      (c, n, None)
  | _ => (c, NDir d children, None)
  end.

Section first_child.
Context {R : Type} (try : Node → option R).

(** The first child that answers, with the children before and after it. *)
Fixpoint first_child (pre l : list Node) : option (list Node * R * list Node) :=
  match l with
  | [] => None
  | ch :: l =>
      match try ch with
      | Some r => Some (pre, r, l)
      | None => first_child (pre ++ [ch]) l
      end
  end.
End first_child.

(** An event delivered to the node it names, somewhere in the tree [n].
    [None]: the node is not in this tree. Otherwise the new context, the new
    tree and the signal the root of [n] emitted, which the listeners of its
    parent then receive. *)
Fixpoint deliver (ev : Event) (id : NodeId) (parent : option XDir) (n : Node)
    (c : Ctx) {struct n} : option (Ctx * Node * option Signal) :=
  match n with
  | NFile f =>
      if bool_decide (f_id f = id)
      then let '(c, f, s) := on_file ev parent f c in Some (c, NFile f, s)
      else None
  | NDir d children =>
      if bool_decide (d_id d = id)
      then Some (on_dir ev parent d children c)
      else
        match first_child (λ ch, deliver ev id (Some d) ch c) [] children with
        | Some (pre, (c, ch, s), post) =>
            let '(c, d, children, s) :=
              Directory.on_child_signal s d pre ch post c in
            Some (c, NDir d children, s)
        | None => None
        end
  end.

(** A copy in progress: the context and the root of the tree. *)
Record World := mkWorld { ctx : Ctx; root : Node }.

Definition step (ev : Event) (w : World) : World :=
  match target ev with
  | Some id =>
      match deliver ev id None (root w) (ctx w) with
      | Some (c, n, _) => mkWorld c n
      | None => w
      end
  | None => mkWorld (Directory.destroy (root w) (ctx w)) (root w)
  end.

Definition run (evs : list Event) (w : World) : World :=
  foldl (λ w ev, step ev w) w evs.

(** A copy request: the context and the root Directory over the listing of
    the source directory. *)
Definition start_copy (file : Policy) (dir : Policy * Policy)
    (srcUUID dstUUID : string) (xstats : list Xstat) : World :=
  let '(c, n, _) :=
    Directory.new_Directory srcUUID (Some dstUUID) xstats (new_Ctx file dir) in
  mkWorld c n.

(** ** Reading a tree *)

Fixpoint find_node (id : NodeId) (n : Node) : option Node :=
  match n with
  | NFile f => if bool_decide (f_id f = id) then Some n else None
  | NDir d children =>
      if bool_decide (d_id d = id) then Some n
      else
        (fix any (l : list Node) : option Node :=
           match l with
           | [] => None
           | ch :: l =>
               match find_node id ch with
               | Some r => Some r
               | None => any l
               end
           end) children
  end.

Definition dir_state (id : NodeId) (n : Node) : option DState :=
  match find_node id n with
  | Some (NDir d _) => Some (d_state d)
  | _ => None
  end.

Definition find_file (id : NodeId) (n : Node) : option XFile :=
  match find_node id n with
  | Some (NFile f) => Some f
  | _ => None
  end.

Definition find_dir (id : NodeId) (n : Node) : option XDir :=
  match find_node id n with
  | Some (NDir d _) => Some d
  | _ => None
  end.

Definition file_live (id : NodeId) (n : Node) : option FState :=
  match find_node id n with
  | Some (NFile f) => Some (f_live f)
  | _ => None
  end.

Definition children_of (n : Node) : list Node :=
  match n with
  | NFile _ => []
  | NDir _ children => children
  end.

(** A node whose machine can still move: a File that is Pending, Working or
    in Conflict, a Directory that is neither Failed nor Finished. *)
Definition active (n : Node) : bool :=
  match n with
  | NFile f =>
      match f_live f with
      | FPending | FWorking | FConflict => true
      | FFailed | FFinished => false
      end
  | NDir d _ =>
      match d_state d with
      | DFailed | DFinished => false
      | _ => true
      end
  end.

Definition is_dir (n : Node) : bool :=
  match n with
  | NFile _ => false
  | NDir _ _ => true
  end.

(** Every node of a tree, a parent before its children. *)
Fixpoint nodes (n : Node) : list Node :=
  match n with
  | NFile _ => [n]
  | NDir _ children => n :: concat (map nodes children)
  end.

(** The children of a Directory are drained in order: it has children
    exactly while it is in Read; every child but the last one has come to rest;
    and once a subdirectory is among them, the file queue is empty. *)
Definition in_order (d : XDir) (children : list Node) : Prop :=
  (children ≠ [] ↔ d_state d = DRead) ∧
  (∀ pre b, map active children = pre ++ [b] → Forall (λ a, a = false) pre) ∧
  (true ∈ map is_dir children → d_fstats d = []).

(** The same, for every Directory of a tree. *)
Fixpoint ordered (n : Node) : Prop :=
  match n with
  | NFile _ => True
  | NDir d children =>
      in_order d children ∧
      (fix all (l : list Node) : Prop :=
         match l with
         | [] => True
         | ch :: l => ordered ch ∧ all l
         end) children
  end.
Arguments ordered : simpl never.

(** What one event does to a node kept in order: it stays in order and of its
    kind; a node at rest stays at rest and is silent; and a node that signals
    has come to rest. *)
Definition settles (n n' : Node) (s : option Signal) : Prop :=
  ordered n' ∧
  is_dir n' = is_dir n ∧
  (active n = false → active n' = false ∧ s = None) ∧
  (s ≠ None → active n' = false).

(** The bucket that belongs to a state class of the file machine. *)
Definition bucket_of (s : FState) : Bucket :=
  match s with
  | FPending => PendingFile
  | FWorking => WorkingFile
  | FConflict => ConflictFile
  | FFailed => FailedFile
  | FFinished => FinishedFile
  end.

(** The buckets a node is in. *)
Definition buckets_of (id : NodeId) (c : Ctx) : list Bucket :=
  List.filter (λ b, bool_decide ((b, id) ∈ members c))
    [PendingFile; WorkingFile; ConflictFile; FailedFile; FinishedFile;
     PendingDir; MakingDir; ConflictDir; ReadingDir; ReadDir; FailedDir;
     FinishedDir].

(** The File [j], with its copy failed. *)
Definition failed_file (j : NodeId) (n : Node) : Prop :=
  ∃ f, n = NFile f ∧ f_id f = j ∧ f_live f = FFailed.

(** The Directory [i] of the tree is not Finished and has the File [j], whose
    copy failed, among its children. *)
Inductive blocked (i j : NodeId) : Node → Prop :=
| blocked_here d children ch :
    d_id d = i → d_state d ≠ DFinished →
    ch ∈ children → failed_file j ch →
    blocked i j (NDir d children)
| blocked_below d children ch :
    ch ∈ children → blocked i j ch → blocked i j (NDir d children).

(** A node that told its parent it finished: a Finished File, or a Directory
    left without children. *)
Definition finished_leaf (n : Node) : Prop :=
  match n with
  | NFile f => f_live f = FFinished
  | NDir _ children => children = []
  end.

(** A File whose copy failed stays so, and what was blocked stays blocked. *)
Definition evolves (n n' : Node) : Prop :=
  (∀ j, failed_file j n → failed_file j n') ∧
  (∀ i j, blocked i j n → blocked i j n').

(** The same, for the children of one Directory: each failed File and each
    blocked child has a successor in the new list. *)
Definition children_kept (l l' : list Node) : Prop :=
  (∀ j ch, ch ∈ l → failed_file j ch → ∃ ch', ch' ∈ l' ∧ failed_file j ch') ∧
  (∀ i j ch, ch ∈ l → blocked i j ch → ∃ ch', ch' ∈ l' ∧ blocked i j ch').

(** The registrations [destroy] takes away from a node and its descendants:
    for a File those of the class of [f_state], for a Directory those of the
    class of [d_state]. *)
Fixpoint unregistered (n : Node) : gset (Bucket * NodeId) :=
  match n with
  | NFile f =>
      match f_state f with
      | FPending => {[ (PendingFile, f_id f) ]}
      | FWorking | FFailed => {[ (WorkingFile, f_id f) ]}
      | FConflict => {[ (ConflictFile, f_id f) ]}
      | FFinished => {[ (FinishedFile, f_id f) ]}
      end
  | NDir d children =>
      ⋃ (map unregistered children) ∪
      match d_state d with
      | DPending => {[ (PendingDir, d_id d) ]}
      | DMaking _ => {[ (MakingDir, d_id d) ]}
      | DConflict _ _ => {[ (ConflictDir, d_id d) ]}
      | DReading => {[ (ReadingDir, d_id d) ]}
      | DRead => {[ (ReadDir, d_id d) ]}
      | DFailed => {[ (FailedDir, d_id d) ]}
      | DFinished => {[ (FinishedDir, d_id d) ]}
      end
  end.

(** ** Scenarios *)

Definition entry (type uuid name : string) : Xstat := mkXstat uuid type name.

(** A source directory with three files and no subdirectory (scenario A of
    the spec). The root is node 0; the files become nodes 1, 2, 3. *)
Definition three_files : World :=
  start_copy (Some "skip") (None, None) "src" "dst"
    [entry "file" "u1" "a"; entry "file" "u2" "b"; entry "file" "u3" "c"].

(** A source directory with one file and one subdirectory. The root is node
    0, the file node 1, the subdirectory node 2. *)
Definition file_and_subdir : World :=
  start_copy (Some "skip") (None, None) "src" "dst"
    [entry "directory" "u9" "sub"; entry "file" "u1" "a"].


Definition EIO : Err := mkErr "EIO" "".
Definition ECONFLICT : Err := mkErr "EEXIST" "ECONFLICT".

(** The first file of [three_files] fails with an I/O error. *)
Definition first_fails : list Event := [Start 1; CpFileDone 1 (Some EIO)].

(** Then the other two are copied. *)
Definition others_succeed : list Event :=
  [Start 2; CpFileDone 2 None; Start 3; CpFileDone 3 None].

(** The first file of [three_files] meets a conflict. *)
Definition first_conflicts : list Event :=
  [Start 1; CpFileDone 1 (Some ECONFLICT)].


(** ** More ways to read a tree *)

(** A Directory parked in Conflict. *)
Definition in_conflict (n : Node) : bool :=
  match n with
  | NFile _ => false
  | NDir d _ =>
      match d_state d with
      | DConflict _ _ => true
      | _ => false
      end
  end.

(** No Directory of the tree is in Conflict. *)
Definition conflict_free (n : Node) : Prop :=
  Forall (λ m, in_conflict m = false) (nodes n).


(** The bucket that belongs to a state class of the directory machine. *)
Definition dir_bucket_of (s : DState) : Bucket :=
  match s with
  | DPending => PendingDir
  | DMaking _ => MakingDir
  | DConflict _ _ => ConflictDir
  | DReading => ReadingDir
  | DRead => ReadDir
  | DFailed => FailedDir
  | DFinished => FinishedDir
  end.

(** The identifiers of the nodes of a tree. *)
Definition ids (n : Node) : list NodeId := map node_id (nodes n).

(** The nodes of a tree carry distinct identifiers, all handed out by the
    context already. *)
Definition numbered (c : Ctx) (n : Node) : Prop :=
  NoDup (ids n) ∧ Forall (λ i, i < next_id c) (ids n).

(** ** Destinations *)

(** The destination directory a call names, for the calls that name one. *)
Definition call_dst (k : Call) : option (option string) :=
  match k with
  | CpFile _ _ _ dst _ => Some dst
  | Mkdirc _ dst _ => Some dst
  | Readdir _ => None
  end.

(** No call was made with an undefined destination. *)
Definition into_made (c : Ctx) : Prop :=
  Forall (λ ik, call_dst ik.2 ≠ Some None) (calls c).

(** A Directory that is Reading or in Read knows its destination. *)
Definition made_dir (m : Node) : Prop :=
  match m with
  | NFile _ => True
  | NDir d _ =>
      d_state d = DReading ∨ d_state d = DRead → is_Some (d_dstUUID d)
  end.

Definition made (n : Node) : Prop := Forall made_dir (nodes n).

(** The root of a copy has no parent to be made under: it is never Making
    nor in Conflict. *)
Definition root_ok (n : Node) : Prop :=
  match n with
  | NFile _ => True
  | NDir d _ =>
      match d_state d with
      | DMaking _ | DConflict _ _ => False
      | _ => True
      end
  end.

Definition parent_ok (parent : option XDir) (n : Node) : Prop :=
  match parent with
  | Some p => is_Some (d_dstUUID p)
  | None => root_ok n
  end.

(** ** Schedules *)

(** The files numbered [k], [k+1], ... are started and copied, one after
    the other, each without an error. *)
Definition copy_each (k n : nat) : list Event :=
  flat_map (λ i, [Start i; CpFileDone i None]) (seq k n).

(** The [cpFile] calls that copy the entries [xs] out of one directory, made
    by the Files numbered [k], [k+1], ... *)
Fixpoint cpFile_calls (src : string) (dst : option string) (policy : Policy)
    (k : NodeId) (xs : list Xstat) : list (NodeId * Call) :=
  match xs with
  | [] => []
  | x :: xs =>
      (k, CpFile src (xs_uuid x) (xs_name x) dst policy)
      :: cpFile_calls src dst policy (S k) xs
  end.

(** ** Registrations *)

(** The bucket of the state a node is in; for a File, of the state it
    entered last. *)
Definition bucket (m : Node) : Bucket :=
  match m with
  | NFile f => bucket_of (f_live f)
  | NDir d _ => dir_bucket_of (d_state d)
  end.

(** A node is registered in no bucket but the one of its state, and, when
    [strict], it is registered in that one. *)
Definition registered (strict : bool) (c : Ctx) (m : Node) : Prop :=
  (∀ b, (b, node_id m) ∈ members c → b = bucket m) ∧
  (strict = true → (bucket m, node_id m) ∈ members c).

(** The [state] field of a File is the Pending state of its constructor. *)
Definition state_kept (m : Node) : Prop :=
  match m with
  | NFile f => f_state f = FPending
  | NDir _ _ => True
  end.

(** The books of a copy are in order: the nodes are numbered, only numbers
    handed out are registered, every node of the tree is registered as its
    state says, and no File has its [state] field rewritten. *)
Definition accounted (strict : bool) (c : Ctx) (n : Node) : Prop :=
  numbered c n ∧
  (∀ b i, (b, i) ∈ members c → i < next_id c) ∧
  Forall (registered strict c) (nodes n) ∧
  Forall state_kept (nodes n).

(** Two contexts hold the same registrations for the numbers that were
    handed out and belong to no node of [n]. *)
Definition frame (n : Node) (c c' : Ctx) : Prop :=
  ∀ b i, i ∉ ids n → i < next_id c →
         ((b, i) ∈ members c' ↔ (b, i) ∈ members c).

(** What an event may do to the books of the subtree [n] it is delivered
    in. *)
Definition kept (strict : bool) (n : Node) (c c' : Ctx) (n' : Node) : Prop :=
  next_id c ≤ next_id c' ∧
  node_id n' = node_id n ∧
  (∀ i, i ∈ ids n' → (i ∈ ids n ∨ next_id c ≤ i) ∧ i < next_id c') ∧
  frame n c c' ∧
  accounted strict c' n'.

(** ** Logs *)

(** The nodes that emitted a signal, in the order of the signals, and the
    nodes that called [cpFile], in the order of the calls. *)
Definition emitters (c : Ctx) : list NodeId := map fst (emits c).

Definition is_cpFile (k : Call) : bool :=
  match k with
  | CpFile _ _ _ _ _ => true
  | _ => false
  end.

Definition copiers (c : Ctx) : list NodeId :=
  map fst (List.filter (λ ik, is_cpFile ik.2) (calls c)).

(** A File that was not started yet, and a File that was. *)
Definition pending (m : Node) : bool :=
  match m with
  | NFile f => bool_decide (f_live f = FPending)
  | NDir _ _ => false
  end.

Definition started (m : Node) : bool :=
  match m with
  | NFile f => negb (bool_decide (f_live f = FPending))
  | NDir _ _ => false
  end.

(** The signal that tells of the state a node came to rest in: [error] for
    Failed, [finish] for Finished. *)
Definition announces (sg : Signal) (m : Node) : Prop :=
  match m with
  | NFile f =>
      match f_live f with
      | FFailed => ∃ e, sg = SigError e
      | FFinished => sg = SigFinish
      | _ => False
      end
  | NDir d _ =>
      match d_state d with
      | DFailed => ∃ e, sg = SigError e
      | DFinished => sg = SigFinish
      | _ => False
      end
  end.

(** A node is in the logs as its state says: an active node has not emitted
    and a node at rest has emitted the signal of its state; a File not started
    has not called [cpFile] and a File that was started has. *)
Definition logged (c : Ctx) (m : Node) : Prop :=
  (active m = true → node_id m ∉ emitters c) ∧
  (active m = false → ∃ sg, (node_id m, sg) ∈ emits c ∧ announces sg m) ∧
  (pending m = true → node_id m ∉ copiers c) ∧
  (started m = true → node_id m ∈ copiers c).

(** Nobody emitted twice, no File called [cpFile] twice, only numbered nodes
    are in the logs, and the nodes of the tree are in the logs as their states
    say. *)
Definition tallied (c : Ctx) (n : Node) : Prop :=
  NoDup (emitters c) ∧ NoDup (copiers c) ∧
  Forall (λ i, i < next_id c) (emitters c) ∧
  Forall (λ i, i < next_id c) (copiers c) ∧
  Forall (logged c) (nodes n).

(** What an event may do to the logs, seen from the subtree [n] it is
    delivered in: the logs grow; who is new in a log is a node of [n] or a
    node numbered since; and a node of [n] or numbered since that is not in the
    subtree afterwards has emitted [finish]. *)
Definition told (n : Node) (c c' : Ctx) (n' : Node) : Prop :=
  (∀ x, x ∈ emits c → x ∈ emits c') ∧
  (∀ i, i ∈ copiers c → i ∈ copiers c') ∧
  (∀ i, i ∈ emitters c' → i ∈ emitters c ∨ i ∈ ids n ∨ next_id c ≤ i) ∧
  (∀ i, i ∈ copiers c' → i ∈ copiers c ∨ i ∈ ids n ∨ next_id c ≤ i) ∧
  (∀ i, i ∈ ids n ∨ (next_id c ≤ i ∧ i < next_id c') →
        i ∈ ids n' ∨ (i, SigFinish) ∈ emits c') ∧
  tallied c' n'.

(** Every node that was numbered is in the tree or has emitted [finish]. *)
Definition complete (c : Ctx) (n : Node) : Prop :=
  ∀ i, i < next_id c → i ∈ ids n ∨ (i, SigFinish) ∈ emits c.

End XCopy.

(** ** Facts about the JavaScript [Set] model *)

Section js_set_facts.
Context {A : Type} `{EqDecision A}.


Lemma set_add_length_ge (x : A) (s : list A) : length s ≤ length (set_add x s).
Proof.
  unfold set_add. case_decide; [lia|]. rewrite length_app. simpl. lia.
Qed.


Lemma set_delete_head_length (x : A) (s : list A) :
  length (set_delete x (x :: s)) ≤ length s.
Proof.
  unfold set_delete. rewrite filter_cons_False by (intros H; by apply H).
  apply length_filter.
Qed.

Lemma elem_of_set_add (x y : A) (s : list A) : y ∈ set_add x s ↔ y = x ∨ y ∈ s.
Proof.
  unfold set_add. case_decide as Hx.
  - split; [by right|]. by intros [->|?].
  - rewrite elem_of_app, list_elem_of_singleton. tauto.
Qed.

Lemma elem_of_set_delete (x y : A) (s : list A) : y ∈ set_delete x s ↔ y ≠ x ∧ y ∈ s.
Proof. unfold set_delete. by rewrite list_elem_of_filter. Qed.

Lemma set_delete_idemp (x : A) (s : list A) : set_delete x (set_delete x s) = set_delete x s.
Proof.
  unfold set_delete. induction s as [|y s IH]; [done|].
  destruct (decide (y = x)) as [->|Hne].
  - rewrite filter_cons_False by (intros H; by apply H). exact IH.
  - rewrite filter_cons_True by done. rewrite filter_cons_True by done.
    by rewrite IH.
Qed.

Lemma set_add_idemp (x : A) (s : list A) : set_add x (set_add x s) = set_add x s.
Proof.
  unfold set_add at 1. rewrite decide_True; [done|].
  apply elem_of_set_add. by left.
Qed.

Lemma set_delete_add (x : A) (s : list A) :
  set_delete x (set_add x s) = set_delete x s.
Proof.
  unfold set_add. case_decide; [done|]. unfold set_delete.
  rewrite filter_app, filter_cons_False by (intros H'; by apply H').
  by rewrite filter_nil, app_nil_r.
Qed.

Lemma set_delete_absent (x : A) (s : list A) : x ∉ s → set_delete x s = s.
Proof.
  unfold set_delete. induction s as [|y s IH]; [done|].
  rewrite not_elem_of_cons. intros [Hne Hs].
  rewrite filter_cons_True by done. by rewrite IH.
Qed.

Lemma set_add_NoDup (x : A) (s : list A) : NoDup s → NoDup (set_add x s).
Proof.
  unfold set_add. case_decide as Hx; [done|]. intros Hs.
  apply NoDup_app. split_and!; [done| |apply NoDup_singleton].
  intros y Hy. rewrite list_elem_of_singleton. by intros ->.
Qed.

Lemma set_delete_NoDup (x : A) (s : list A) : NoDup s → NoDup (set_delete x s).
Proof. apply NoDup_filter. Qed.
End js_set_facts.

(** * Facts about the Forest *)

Module ForestFacts.
Import Forest.

(** ** What the bucket methods leave alone *)


Lemma readingDirs_reqSchedDirRead (f : Forest) :
  readingDirs (reqSchedDirRead f) = readingDirs f.
Proof. unfold reqSchedDirRead. by destruct (dirReadScheduled f). Qed.


Lemma initDirs_reqSchedDirRead (f : Forest) :
  initDirs (reqSchedDirRead f) = initDirs f.
Proof. unfold reqSchedDirRead. by destruct (dirReadScheduled f). Qed.

Lemma uuidMap_reqSchedDirRead (f : Forest) :
  uuidMap (reqSchedDirRead f) = uuidMap f.
Proof. unfold reqSchedDirRead. by destruct (dirReadScheduled f). Qed.

Lemma readingDirs_reqSchedFileHash (f : Forest) :
  readingDirs (reqSchedFileHash f) = readingDirs f.
Proof. unfold reqSchedFileHash. by destruct (fileHashScheduled f). Qed.

Lemma hashingFiles_reqSchedFileHash (f : Forest) :
  hashingFiles (reqSchedFileHash f) = hashingFiles f.
Proof. unfold reqSchedFileHash. by destruct (fileHashScheduled f). Qed.

(** ** The ceilings *)











(** ** Termination of a directory pass *)


Lemma Directory_read_init (d : Directory) (f : Forest) :
  initDirs (Directory_read d f) = set_delete (dir_uuid d) (initDirs f) ∧
  uuidMap (Directory_read d f) = uuidMap f.
Proof.
  unfold Directory_read, dirEnterReading, dirExitInit.
  rewrite initDirs_reqSchedDirRead, uuidMap_reqSchedDirRead. simpl.
  by rewrite initDirs_reqSchedDirRead, uuidMap_reqSchedDirRead.
Qed.

(** With the init bucket indexed, a pass returns within as many iterations as
    directories wait. *)
Lemma scheduleDirRead_loop_returns (n : nat) :
  ∀ f, length (initDirs f) ≤ n → init_indexed f →
       is_Some (scheduleDirRead_loop n f).
Proof.
  induction n as [|n IH]; intros f Hlen Hidx; simpl.
  - case_bool_decide as Hc; [lia | done].
  - case_bool_decide as Hc; [|done].
    destruct (initDirs f) as [|u l] eqn:Hi; simpl; [done|].
    destruct (Hidx u) as (d & Hd & Hu); [rewrite Hi; left|].
    rewrite Hd. destruct (Directory_read_init d f) as [Hi' Hm'].
    apply IH.
    + rewrite Hi', Hi, Hu. simpl in Hlen.
      pose proof (set_delete_head_length u l). lia.
    + intros v Hv. rewrite Hi' in Hv. apply elem_of_set_delete in Hv as [_ Hv].
      rewrite Hm'. by apply Hidx.
Qed.

(** A waiting uuid the index does not know keeps the loop turning: no amount
    of fuel lets the pass return. *)
Lemma scheduleDirRead_loop_spins (fuel : nat) (f : Forest) (u : string) :
  set_first (initDirs f) = Some u → uuidMap f !! u = None →
  length (readingDirs f) < 6 →
  scheduleDirRead_loop fuel f = None.
Proof.
  intros Hu Hm Hr. induction fuel as [|fuel IH]; simpl.
  - rewrite bool_decide_eq_true_2; [done|].
    destruct (initDirs f); simpl in *; [done | lia].
  - rewrite bool_decide_eq_true_2.
    + by rewrite Hu, Hm.
    + destruct (initDirs f); simpl in *; [done | lia].
Qed.

(** ** The debounce invariant *)


Lemma debounced_same (f g : Forest) :
  nextTick g = nextTick f → dirReadScheduled g = dirReadScheduled f →
  fileHashScheduled g = fileHashScheduled f → debounced f → debounced g.
Proof. unfold debounced, queued. by intros -> -> ->. Qed.

Lemma queued_snoc (t t' : Task) (f : Forest) (q : list Task) :
  nextTick f = q ++ [t'] →
  queued t f = length (filter (λ x, x = t) q) + (if decide (t' = t) then 1 else 0).
Proof.
  unfold queued. intros ->. rewrite filter_app, length_app. f_equal.
  rewrite filter_cons, filter_nil. by case_decide.
Qed.

Lemma reqSchedDirRead_debounced (f : Forest) :
  debounced f → debounced (reqSchedDirRead f).
Proof.
  unfold reqSchedDirRead. destruct (dirReadScheduled f) eqn:Hs; [done|].
  intros [Hd Hf]. rewrite Hs in Hd. unfold debounced. simpl. split.
  - rewrite (queued_snoc _ RunScheduleDirRead _ (nextTick f)) by done.
    unfold queued in Hd. rewrite Hd. by rewrite decide_True.
  - rewrite (queued_snoc _ RunScheduleDirRead _ (nextTick f)) by done.
    unfold queued in Hf. rewrite Hf. rewrite decide_False by done. simpl. lia.
Qed.

Lemma reqSchedFileHash_debounced (f : Forest) :
  debounced f → debounced (reqSchedFileHash f).
Proof.
  unfold reqSchedFileHash. destruct (fileHashScheduled f) eqn:Hs; [done|].
  intros [Hd Hf]. rewrite Hs in Hf. unfold debounced. simpl. split.
  - rewrite (queued_snoc _ RunScheduleFileHash _ (nextTick f)) by done.
    unfold queued in Hd. rewrite Hd. rewrite decide_False by done. simpl. lia.
  - rewrite (queued_snoc _ RunScheduleFileHash _ (nextTick f)) by done.
    unfold queued in Hf. rewrite Hf. by rewrite decide_True.
Qed.

Lemma request_debounced (r : Request) (f : Forest) :
  debounced f → debounced (request r f).
Proof.
  destruct r; simpl; intros H;
    first [ by apply reqSchedFileHash_debounced
          | apply reqSchedDirRead_debounced; by apply (debounced_same f) ].
Qed.






(** The invariant holds in every state of every execution. *)

Lemma scheduleDirRead_loop_debounced (fuel : nat) :
  ∀ f f', scheduleDirRead_loop fuel f = Some f' → debounced f → debounced f'.
Proof.
  induction fuel as [|fuel IH]; intros f f'; simpl.
  - case_bool_decide; [done|]. by intros [= <-].
  - case_bool_decide; [|by intros [= <-]].
    destruct (set_first (initDirs f)) as [uuid|]; [|by intros [= <-]].
    destruct (uuidMap f !! uuid) as [d|]; [|by apply IH].
    intros Hloop Hd. apply (IH _ _ Hloop).
    apply (request_debounced (ByDirEnterReading d)).
    by apply (request_debounced (ByDirExitInit d)).
Qed.

Lemma scheduleFileHash_loop_debounced (fuel : nat) :
  ∀ f f', scheduleFileHash_loop fuel f = Some f' → debounced f → debounced f'.
Proof.
  induction fuel as [|fuel IH]; intros f f'; simpl.
  - case_bool_decide; [done|]. by intros [= <-].
  - case_bool_decide; [|by intros [= <-]].
    destruct (set_first (hashlessFiles f)) as [x|]; [|by intros [= <-]].
    intros Hloop Hd. apply (IH _ _ Hloop).
    by apply (debounced_same f).
Qed.

Lemma tick_debounced (fuel : nat) (f f' : Forest) :
  tick fuel f = Some f' → debounced f → debounced f'.
Proof.
  unfold tick, debounced at 1, queued.
  destruct (nextTick f) as [|[] q] eqn:Hq; intros H [Hd Hf].
  - injection H as <-. unfold debounced, queued. by rewrite Hq.
  - rewrite filter_cons_True in Hd by done.
    rewrite filter_cons_False in Hf by done. simpl in Hd.
    assert (debounced (with_dirReadScheduled (with_nextTick f q) false)) as Hd'.
    { unfold debounced, queued. simpl. split; [|done].
      destruct (dirReadScheduled f); simpl in Hd; lia. }
    unfold scheduleDirRead in H. destruct (dirReadSettled _).
    + injection H as <-. by apply (debounced_same _ _ eq_refl eq_refl eq_refl).
    + by apply (scheduleDirRead_loop_debounced _ _ _ H).
  - rewrite filter_cons_False in Hd by done.
    rewrite filter_cons_True in Hf by done. simpl in Hf.
    apply (scheduleFileHash_loop_debounced _ _ _ H).
    unfold debounced, queued. simpl. split; [done|].
    destruct (fileHashScheduled f); simpl in Hf; lia.
Qed.

Lemma createRoot_debounced (uuid : string) (a : Answers) (f : Forest) (k : Disk) :
  debounced f → debounced (createRoot uuid a f k).1.1.
Proof.
  unfold createRoot.
  destruct (mkdirp _ a k) as [e|k1]; [done|].
  destruct (forceXstat _ uuid a k1) as [e|[k2 x]]; [done|]. simpl.
  by apply debounced_same.
Qed.

Lemma step_debounced (ev : Event) (w w' : Forest * Disk) :
  step ev w = Some w' → debounced w.1 → debounced w'.1.
Proof.
  destruct w as [f k].
  destruct ev; simpl;
    try (intros [= <-] H; simpl;
         first [ by apply (debounced_same f)
               | by apply reqSchedDirRead_debounced
               | by apply reqSchedFileHash_debounced
               | apply reqSchedDirRead_debounced; by apply (debounced_same f) ]).
  - pose proof (createRoot_debounced uuid a f k) as Hc.
    destruct (createRoot uuid a f k) as [[f1 k1] r]. simpl in *.
    intros [= <-]. exact Hc.
  - destruct (tick fuel f) as [f1|] eqn:Ht; simpl; [|done].
    intros [= <-]. simpl. by apply (tick_debounced _ _ _ Ht).
Qed.

Lemma reachable_debounced (w : Forest * Disk) : reachable w → debounced w.1.
Proof.
  induction 1 as [froot|w ev w' _ IH Hstep].
  - by split.
  - by apply (step_debounced _ _ _ Hstep).
Qed.

(** ** The scheduler bound *)

Lemma run_reachable (evs : list Event) :
  ∀ w w', reachable w → run evs w = Some w' → reachable w'.
Proof.
  induction evs as [|ev evs IH]; intros w w' Hw; simpl.
  - by intros [= <-].
  - destruct (step ev w) as [w1|] eqn:Hs; simpl; [|done].
    apply IH. by eapply reachable_step.
Qed.




(** ** The debounce law *)




(** ** createRoot *)

(** C7. For a drive id [d] that the roots map does not know, when the two
    file-system collaborators succeed, [createRoot d] leaves the root directory
    of the drive on disk, stamped with [d]; hands the new root Directory to its
    callback; has it registered under [d] in both the roots map and the global id
    map; and that Directory carries the id [d], has no parent, and is past the
    creation phase. *)
Theorem createRoot_registers (f : Forest) (k : Disk) (d : string) (a : Answers) :
  roots f !! d = None →
  mkdirp_err a = None → forceXstat_err a = None →
  ∃ f' k' root,
    createRoot d a f k = (f', k', inr root) ∧
    k' !! path_join (dir f) d = Some (Some d) ∧
    roots f' !! d = Some root ∧
    uuidMap f' !! d = Some root ∧
    dir_uuid root = d ∧ dir_parent root = None ∧
    dir_phase root = PastCreation.
Proof.
  intros _ Hm Hx. unfold createRoot, mkdirp, mkdirp_sync, forceXstat.
  rewrite Hm, Hx.
  destruct (k !! path_join (dir f) d) as [s|] eqn:Hk.
  - rewrite Hk. simpl. do 3 eexists. split; [reflexivity|].
    repeat split; simpl; first [done | apply lookup_insert_eq].
  - rewrite lookup_insert_eq. simpl. do 3 eexists. split; [reflexivity|].
    repeat split; simpl; first [done | apply lookup_insert_eq].
Qed.

Lemma createRoot_registers_witness :
  let f := (started "/data").1 in
  let k := (started "/data").2 in
  ∃ f' k' root,
    createRoot "drive-1" (mkAnswers None None) f k = (f', k', inr root) ∧
    k' !! path_join (dir f) "drive-1" = Some (Some "drive-1") ∧
    roots f' !! "drive-1" = Some root ∧
    uuidMap f' !! "drive-1" = Some root ∧
    dir_uuid root = "drive-1" ∧ dir_parent root = None ∧
    dir_phase root = PastCreation.
Proof.
  apply (createRoot_registers (started "/data").1 (started "/data").2
           "drive-1" (mkAnswers None None)); reflexivity.
Defined.
(** ** The directory buckets as sets *)

Lemma reqSchedDirRead_idemp (f : Forest) :
  reqSchedDirRead (reqSchedDirRead f) = reqSchedDirRead f.
Proof. unfold reqSchedDirRead. by destruct (dirReadScheduled f) eqn:Hf; simpl; rewrite ?Hf. Qed.

Lemma reqSchedDirRead_with_initDirs (f : Forest) (v : list string) :
  with_initDirs (reqSchedDirRead f) v = reqSchedDirRead (with_initDirs f v).
Proof. unfold reqSchedDirRead. simpl. by destruct (dirReadScheduled f). Qed.

Lemma reqSchedDirRead_with_pendingDirs (f : Forest) (v : list string) :
  with_pendingDirs (reqSchedDirRead f) v = reqSchedDirRead (with_pendingDirs f v).
Proof. unfold reqSchedDirRead. simpl. by destruct (dirReadScheduled f). Qed.

Lemma reqSchedDirRead_with_readingDirs (f : Forest) (v : list string) :
  with_readingDirs (reqSchedDirRead f) v = reqSchedDirRead (with_readingDirs f v).
Proof. unfold reqSchedDirRead. simpl. by destruct (dirReadScheduled f). Qed.

Lemma pendingDirs_reqSchedDirRead (f : Forest) :
  pendingDirs (reqSchedDirRead f) = pendingDirs f.
Proof. unfold reqSchedDirRead. by destruct (dirReadScheduled f). Qed.

(** X1. The three directory buckets are sets keyed by [dir.uuid]: entering
    twice is entering once and leaving twice is leaving once (the whole Forest,
    its next-tick queue included, is the same); after entering the uuid is in
    the bucket, after leaving it is not; and leaving after entering leaves the
    bucket as leaving alone does. *)
Theorem dir_buckets_are_sets (d : Directory) (f : Forest) :
  (dirEnterInit d (dirEnterInit d f) = dirEnterInit d f ∧
   dirExitInit d (dirExitInit d f) = dirExitInit d f ∧
   dir_uuid d ∈ initDirs (dirEnterInit d f) ∧
   (dir_uuid d ∉ initDirs (dirExitInit d f)) ∧
   initDirs (dirExitInit d (dirEnterInit d f)) = initDirs (dirExitInit d f)) ∧
  (dirEnterPending d (dirEnterPending d f) = dirEnterPending d f ∧
   dirExitPending d (dirExitPending d f) = dirExitPending d f ∧
   dir_uuid d ∈ pendingDirs (dirEnterPending d f) ∧
   (dir_uuid d ∉ pendingDirs (dirExitPending d f)) ∧
   pendingDirs (dirExitPending d (dirEnterPending d f))
     = pendingDirs (dirExitPending d f)) ∧
  (dirEnterReading d (dirEnterReading d f) = dirEnterReading d f ∧
   dirExitReading d (dirExitReading d f) = dirExitReading d f ∧
   dir_uuid d ∈ readingDirs (dirEnterReading d f) ∧
   (dir_uuid d ∉ readingDirs (dirExitReading d f)) ∧
   readingDirs (dirExitReading d (dirEnterReading d f))
     = readingDirs (dirExitReading d f)).
Proof.
  unfold dirEnterInit, dirExitInit, dirEnterPending, dirExitPending,
    dirEnterReading, dirExitReading.
  rewrite ?initDirs_reqSchedDirRead, ?pendingDirs_reqSchedDirRead,
    ?readingDirs_reqSchedDirRead.
  rewrite <- ?reqSchedDirRead_with_initDirs, <- ?reqSchedDirRead_with_pendingDirs,
    <- ?reqSchedDirRead_with_readingDirs.
  rewrite ?reqSchedDirRead_idemp.
  rewrite ?initDirs_reqSchedDirRead, ?pendingDirs_reqSchedDirRead,
    ?readingDirs_reqSchedDirRead.
  simpl.
  rewrite ?set_add_idemp, ?set_delete_idemp, ?set_delete_add.
  split_and!; try done;
    first [ apply elem_of_set_add; by left
          | rewrite elem_of_set_delete; by intros [? _] ].
Qed.

(** ** The index *)

(** X2. The index is keyed by [dir.uuid]: an indexed Directory is found under
    its uuid and is gone after [unindexDirectory]; other keys are left alone;
    and two Directory objects with one uuid share the entry: the later
    [indexDirectory] replaces the earlier one, and [unindexDirectory] of either
    drops whichever is stored. *)
Theorem index_is_keyed_by_uuid (d d' : Directory) (f : Forest) :
  uuidMap (indexDirectory d f) !! dir_uuid d = Some d ∧
  uuidMap (unindexDirectory d (indexDirectory d f)) !! dir_uuid d = None ∧
  (∀ u, u ≠ dir_uuid d →
        uuidMap (indexDirectory d f) !! u = uuidMap f !! u ∧
        uuidMap (unindexDirectory d f) !! u = uuidMap f !! u) ∧
  (dir_uuid d' = dir_uuid d →
   uuidMap (indexDirectory d' (indexDirectory d f)) !! dir_uuid d = Some d' ∧
   uuidMap (unindexDirectory d' (indexDirectory d f)) !! dir_uuid d = None).
Proof.
  unfold indexDirectory, unindexDirectory. simpl. split_and!.
  - apply lookup_insert_eq.
  - apply lookup_delete_eq.
  - intros u Hu. split.
    + by apply lookup_insert_ne.
    + by apply lookup_delete_ne.
  - intros ->. split; [apply lookup_insert_eq | apply lookup_delete_eq].
Qed.

Lemma index_is_keyed_by_uuid_witness :
  let d := mkDirectory "u" None PastCreation in
  let d' := mkDirectory "u" (Some "p") InCreation in
  let f := new_Forest "/data" in
  uuidMap (indexDirectory d' (indexDirectory d f)) !! "u" = Some d' ∧
  uuidMap (unindexDirectory d' (indexDirectory d f)) !! "u" = None.
Proof.
  exact (proj2 (proj2 (proj2
    (index_is_keyed_by_uuid (mkDirectory "u" None PastCreation)
       (mkDirectory "u" (Some "p") InCreation) (new_Forest "/data"))))
    eq_refl).
Defined.

(** ** The directory pass *)

Lemma file_side_reqSchedDirRead (f : Forest) :
  file_side (reqSchedDirRead f) = file_side f ∧
  emitted (reqSchedDirRead f) = emitted f.
Proof.
  unfold reqSchedDirRead, file_side.
  destruct (dirReadScheduled f); [done|]. simpl. split; [|done].
  rewrite (queued_snoc _ RunScheduleDirRead _ (nextTick f)) by done.
  rewrite decide_False by done. unfold queued. f_equal. lia.
Qed.

Lemma file_side_Directory_read (d : Directory) (f : Forest) :
  file_side (Directory_read d f) = file_side f ∧
  emitted (Directory_read d f) = emitted f.
Proof.
  unfold Directory_read, dirEnterReading, dirExitInit.
  destruct (file_side_reqSchedDirRead
              (with_readingDirs
                 (reqSchedDirRead
                    (with_initDirs f (set_delete (dir_uuid d) (initDirs f))))
                 (set_add (dir_uuid d)
                    (readingDirs
                       (reqSchedDirRead
                          (with_initDirs f
                             (set_delete (dir_uuid d) (initDirs f)))))))) as [-> ->].
  destruct (file_side_reqSchedDirRead
              (with_initDirs f (set_delete (dir_uuid d) (initDirs f)))) as [H1 H2].
  split; [exact H1 | exact H2].
Qed.

Lemma scheduleDirRead_loop_file_side (fuel : nat) :
  ∀ f f', scheduleDirRead_loop fuel f = Some f' →
          file_side f' = file_side f ∧ emitted f' = emitted f.
Proof.
  induction fuel as [|fuel IH]; intros f f'; simpl.
  - case_bool_decide; [done|]. by intros [= <-].
  - case_bool_decide; [|by intros [= <-]].
    destruct (set_first (initDirs f)) as [uuid|]; [|by intros [= <-]].
    destruct (uuidMap f !! uuid) as [d|]; [|by apply IH].
    intros Hloop. destruct (IH _ _ Hloop) as [-> ->].
    apply file_side_Directory_read.
Qed.

Lemma scheduleDirRead_loop_stops (fuel : nat) :
  ∀ f f', scheduleDirRead_loop fuel f = Some f' →
          initDirs f' = [] ∨ 6 ≤ length (readingDirs f').
Proof.
  induction fuel as [|fuel IH]; intros f f'; simpl.
  - case_bool_decide as Hc; [done|]. intros [= <-].
    destruct (initDirs f); [by left|]. simpl in Hc. right. lia.
  - case_bool_decide as Hc.
    + destruct (initDirs f) as [|u l] eqn:Hi; simpl; [intros [= <-]; by left|].
      destruct (uuidMap f !! u) as [d|]; apply IH.
    + intros [= <-]. destruct (initDirs f); [by left|]. simpl in Hc. right. lia.
Qed.

Lemma scheduleFileHash_loop_stops (fuel : nat) :
  ∀ f f', scheduleFileHash_loop fuel f = Some f' →
          hashlessFiles f' = [] ∨ 2 ≤ length (hashingFiles f').
Proof.
  induction fuel as [|fuel IH]; intros f f'; simpl.
  - case_bool_decide as Hc; [done|]. intros [= <-].
    destruct (hashlessFiles f); [by left|]. simpl in Hc. right. lia.
  - case_bool_decide as Hc.
    + destruct (hashlessFiles f) as [|u l] eqn:Hi; simpl;
        [intros [= <-]; by left|]. apply IH.
    + intros [= <-]. destruct (hashlessFiles f); [by left|].
      simpl in Hc. right. lia.
Qed.

Lemma dirReadSettled_spec (f : Forest) :
  dirReadSettled f = true ↔
  initDirs f = [] ∧ pendingDirs f = [] ∧ readingDirs f = [].
Proof.
  unfold dirReadSettled. rewrite !andb_true_iff, !bool_decide_eq_true.
  rewrite !length_zero_iff_nil. tauto.
Qed.

(** X3. A directory pass that returns has emitted [dirReadSettled] exactly
    when it found the init, pending and reading buckets all empty, and then it
    did nothing else: it left the buckets empty and the next-tick queue as it
    was. So every pass over an idle Forest signals again. *)
Theorem settle_signal (fuel : nat) (f f' : Forest) :
  scheduleDirRead fuel f = Some f' →
  emitted f' =
    emitted f ++ (if dirReadSettled f then ["dirReadSettled"] else []) ∧
  (dirReadSettled f = true ↔
   initDirs f = [] ∧ pendingDirs f = [] ∧ readingDirs f = []) ∧
  (dirReadSettled f = true →
   initDirs f' = [] ∧ pendingDirs f' = [] ∧ readingDirs f' = [] ∧
   nextTick f' = nextTick f ∧ dirReadScheduled f' = false).
Proof.
  unfold scheduleDirRead.
  change (dirReadSettled (with_dirReadScheduled f false)) with (dirReadSettled f).
  destruct (dirReadSettled f) eqn:Hs.
  - intros [= <-]. simpl. apply dirReadSettled_spec in Hs as (? & ? & ?).
    split_and!; first [done | by split].
  - intros Hloop. apply scheduleDirRead_loop_file_side in Hloop as [_ He].
    rewrite He. simpl. rewrite app_nil_r. split_and!; [done| |done].
    rewrite <- dirReadSettled_spec. by rewrite Hs.
Qed.

Lemma settle_signal_witness :
  let f := reqSchedDirRead (new_Forest "/data") in
  let f1 := default f (tick 0 f) in
  let f2 := default f (tick 0 (reqSchedDirRead f1)) in
  tick 0 f = Some f1 ∧ tick 0 (reqSchedDirRead f1) = Some f2 ∧
  emitted f1 = ["dirReadSettled"] ∧
  emitted f2 = ["dirReadSettled"; "dirReadSettled"].
Proof.
  split; [vm_compute; reflexivity|]. split; [vm_compute; reflexivity|].
  split.
  - apply (settle_signal 0 (new_Forest "/data")). vm_compute. reflexivity.
  - apply (settle_signal 0 (default (new_Forest "/data")
                               (tick 0 (reqSchedDirRead (new_Forest "/data"))))).
    vm_compute. reflexivity.
Defined.

(** X4. A pass that returns leaves no work it could have started: after a
    directory pass the init bucket is empty or 6 directories are reading, and
    after a hash pass the hashless bucket is empty or 2 files are hashing. *)
Theorem pass_uses_the_ceiling (fuel : nat) (f f' : Forest) :
  (scheduleDirRead fuel f = Some f' →
   initDirs f' = [] ∨ 6 ≤ length (readingDirs f')) ∧
  (scheduleFileHash fuel f = Some f' →
   hashlessFiles f' = [] ∨ 2 ≤ length (hashingFiles f')).
Proof.
  split.
  - intros H. destruct (dirReadSettled f) eqn:Hs.
    + left. by apply (settle_signal _ _ _ H).
    + unfold scheduleDirRead in H.
      change (dirReadSettled (with_dirReadScheduled f false))
        with (dirReadSettled f) in H.
      rewrite Hs in H. by apply (scheduleDirRead_loop_stops _ _ _ H).
  - apply scheduleFileHash_loop_stops.
Qed.

Lemma pass_uses_the_ceiling_witness :
  let f' := default after_burst.1 (scheduleDirRead 8 after_burst.1) in
  scheduleDirRead 8 after_burst.1 = Some f' ∧
  initDirs f' = ["d7"; "d8"] ∧
  (initDirs f' = [] ∨ 6 ≤ length (readingDirs f')).
Proof.
  split; [vm_compute; reflexivity|]. split; [vm_compute; reflexivity|].
  apply (proj1 (pass_uses_the_ceiling 8 after_burst.1 _)).
  vm_compute. reflexivity.
Defined.

(** X5. A waiting uuid that the index does not know stalls the directory
    pass: when the oldest member of the init bucket has no entry in the index
    and fewer than 6 directories are reading, the loop finds nothing to read,
    removes nothing, and its condition stays true; no amount of fuel lets the
    pass return. *)
Theorem pass_stalls_on_unindexed (f : Forest) (u : string) :
  set_first (initDirs f) = Some u → uuidMap f !! u = None →
  length (readingDirs f) < 6 →
  ∀ fuel, scheduleDirRead fuel f = None.
Proof.
  intros Hu Hm Hr fuel. unfold scheduleDirRead.
  destruct (dirReadSettled _) eqn:Hs.
  - apply dirReadSettled_spec in Hs as (Hi & _). simpl in Hi.
    by rewrite Hi in Hu.
  - by apply (scheduleDirRead_loop_spins _ _ u).
Qed.

Lemma pass_stalls_on_unindexed_witness :
  initDirs unindexed_waiting = ["d1"] ∧
  nextTick unindexed_waiting = [RunScheduleDirRead] ∧
  ∀ fuel, scheduleDirRead fuel unindexed_waiting = None.
Proof.
  split; [vm_compute; reflexivity|]. split; [vm_compute; reflexivity|].
  apply (pass_stalls_on_unindexed unindexed_waiting "d1");
    [vm_compute; reflexivity | vm_compute; reflexivity | vm_compute; lia].
Defined.

(** ** Hashing is never asked for by the file buckets *)







(** ** createRoot when a collaborator fails *)

(** X7. [createRoot] hands an error to its callback exactly when [mkdirp] or
    [forceXstat] failed, and it is the error of the first one that failed; then
    nothing was registered: the Forest is as it was. When [mkdirp] failed the
    disk is as it was too, and [forceXstat] was not tried. *)
Theorem createRoot_fails_clean (uuid : string) (a : Answers) (f : Forest)
    (k : Disk) :
  let '(f', k', r) := createRoot uuid a f k in
  match mkdirp_err a, forceXstat_err a with
  | Some e, _ => r = inl e ∧ f' = f ∧ k' = k
  | None, Some e => r = inl e ∧ f' = f ∧ k' = mkdirp_sync (path_join (dir f) uuid) k
  | None, None => ∃ root, r = inr root ∧ roots f' !! uuid = Some root
  end.
Proof.
  unfold createRoot, mkdirp, forceXstat.
  destruct (mkdirp_err a) as [e|]; [done|].
  destruct (forceXstat_err a) as [e|]; [done|].
  assert (is_Some (mkdirp_sync (path_join (dir f) uuid) k
                     !! path_join (dir f) uuid)) as [s Hs].
  { unfold mkdirp_sync.
    destruct (k !! path_join (dir f) uuid) eqn:Hk; [by rewrite Hk|].
    by rewrite lookup_insert_eq. }
  rewrite Hs. simpl. eexists. split; [done|]. apply lookup_insert_eq.
Qed.

(** ** One callback at most *)

(** X8. At every instant of every execution each of the two passes has at
    most one callback waiting in the next-tick queue, and its guard flag is set
    exactly while one waits: a pass resets its flag before it looks at the
    buckets, so what it changes itself asks for one further pass. *)
Theorem one_callback_at_most (w : Forest * Disk) (t : Task) :
  reachable w →
  queued t w.1 ≤ 1 ∧ (queued t w.1 = 1 ↔ scheduled t w.1 = true).
Proof.
  intros Hw. destruct (reachable_debounced _ Hw) as [Hd Hf].
  destruct t; simpl.
  - rewrite Hd. destruct (dirReadScheduled w.1); split; try lia; by split.
  - rewrite Hf. destruct (fileHashScheduled w.1); split; try lia; by split.
Qed.

Lemma one_callback_at_most_witness :
  nextTick after_burst.1 = [RunScheduleDirRead] ∧
  queued RunScheduleDirRead after_burst.1 ≤ 1 ∧
  (queued RunScheduleDirRead after_burst.1 = 1
   ↔ scheduled RunScheduleDirRead after_burst.1 = true).
Proof.
  split; [vm_compute; reflexivity|].
  apply (one_callback_at_most after_burst RunScheduleDirRead).
  apply (run_reachable burst (started "/data")); [constructor|].
  vm_compute. reflexivity.
Defined.
End ForestFacts.

(** * Facts about the copy engine *)

Module XCopyFacts.
Import XCopy.

(** Induction over a tree of nodes, the children of a Directory included. *)
Lemma Node_ind' (P : Node → Prop) :
  (∀ f, P (NFile f)) →
  (∀ d l, Forall P l → P (NDir d l)) →
  ∀ n, P n.
Proof.
  intros Hf Hd. fix IH 1. intros [f|d l]; [apply Hf|]. apply Hd.
  revert l. fix IHl 1. intros [|ch l]; constructor; [apply IH | apply IHl].
Qed.

(** ** A failed File child blocks its Directory *)

Lemma blocked_file (i j : NodeId) (f : XFile) : ¬ blocked i j (NFile f).
Proof. inversion 1. Qed.

Lemma blocked_no_children (i j : NodeId) (d : XDir) : ¬ blocked i j (NDir d []).
Proof.
  inversion 1 as [? ? ? ? ? Hin|? ? ? Hin]; by apply elem_of_nil in Hin.
Qed.

Lemma failed_file_dir (j : NodeId) (d : XDir) (l : list Node) :
  ¬ failed_file j (NDir d l).
Proof. by intros (f & ? & _). Qed.

Lemma finished_leaf_not_blocked (i j : NodeId) (n : Node) :
  finished_leaf n → ¬ blocked i j n.
Proof.
  destruct n as [f|d l]; simpl.
  - intros _. apply blocked_file.
  - intros ->. apply blocked_no_children.
Qed.

Lemma finished_leaf_not_failed (j : NodeId) (n : Node) :
  finished_leaf n → ¬ failed_file j n.
Proof.
  destruct n as [f|d l]; simpl.
  - intros Hl (g & [= <-] & _ & Hg). congruence.
  - intros _. apply failed_file_dir.
Qed.

Lemma evolves_refl (n : Node) : evolves n n.
Proof. by split. Qed.

Lemma evolves_trans (n1 n2 n3 : Node) :
  evolves n1 n2 → evolves n2 n3 → evolves n1 n3.
Proof. intros [Hf1 Hb1] [Hf2 Hb2]. split; eauto. Qed.

Lemma evolves_file (f f' : XFile) :
  (f_live f = FFailed → f_live f' = FFailed) → f_id f' = f_id f →
  evolves (NFile f) (NFile f').
Proof.
  intros H Hid. split.
  - intros j (g & [= <-] & Hj & Hl). exists f'. split_and!; [done|congruence|eauto].
  - intros i j Hb. by apply blocked_file in Hb.
Qed.

Lemma children_kept_refl (l : list Node) : children_kept l l.
Proof. split; eauto. Qed.

Lemma children_kept_app (l x : list Node) : children_kept l (l ++ x).
Proof.
  split.
  - intros j ch Hch Hf. exists ch. split; [|done]. apply elem_of_app. by left.
  - intros i j ch Hch Hb. exists ch. split; [|done]. apply elem_of_app. by left.
Qed.

Lemma children_kept_trans (l1 l2 l3 : list Node) :
  children_kept l1 l2 → children_kept l2 l3 → children_kept l1 l3.
Proof.
  intros [Hf1 Hb1] [Hf2 Hb2]. split.
  - intros j ch Hch Hf. destruct (Hf1 j ch Hch Hf) as (ch' & Hch' & Hf').
    by apply (Hf2 j ch').
  - intros i j ch Hch Hb. destruct (Hb1 i j ch Hch Hb) as (ch' & Hch' & Hb').
    by apply (Hb2 i j ch').
Qed.

Lemma children_kept_cons (ch ch' : Node) (l l' : list Node) :
  evolves ch ch' → children_kept l l' → children_kept (ch :: l) (ch' :: l').
Proof.
  intros [Hf Hb] [Hfl Hbl]. split.
  - intros j x Hin Hx. apply elem_of_cons in Hin as [-> |Hin].
    + exists ch'. split; [by left | by apply Hf].
    + destruct (Hfl j x Hin Hx) as (x' & Hin' & Hx').
      exists x'. split; [by right | done].
  - intros i j x Hin Hx. apply elem_of_cons in Hin as [-> |Hin].
    + exists ch'. split; [by left | by apply Hb].
    + destruct (Hbl i j x Hin Hx) as (x' & Hin' & Hx').
      exists x'. split; [by right | done].
Qed.

Lemma children_kept_replace (pre post : list Node) (ch ch' : Node) :
  evolves ch ch' → children_kept (pre ++ ch :: post) (pre ++ ch' :: post).
Proof.
  intros He. induction pre as [|x pre IH]; simpl.
  - apply children_kept_cons; [done | apply children_kept_refl].
  - apply children_kept_cons; [apply evolves_refl | done].
Qed.

Lemma children_kept_remove (pre post : list Node) (ch ch' : Node) :
  evolves ch ch' → finished_leaf ch' →
  children_kept (pre ++ ch :: post) (pre ++ post).
Proof.
  intros [Hf Hb] Hleaf. split.
  - intros j x Hin Hx. rewrite elem_of_app, elem_of_cons in Hin.
    destruct Hin as [?|[-> |?]].
    + exists x. split; [|done]. apply elem_of_app. by left.
    + by destruct (finished_leaf_not_failed j ch' Hleaf (Hf j Hx)).
    + exists x. split; [|done]. apply elem_of_app. by right.
  - intros i j x Hin Hx. rewrite elem_of_app, elem_of_cons in Hin.
    destruct Hin as [?|[-> |?]].
    + exists x. split; [|done]. apply elem_of_app. by left.
    + by destruct (finished_leaf_not_blocked i j ch' Hleaf (Hb i j Hx)).
    + exists x. split; [|done]. apply elem_of_app. by right.
Qed.

Lemma evolves_dir_gen (d d' : XDir) (l l' : list Node) :
  d_id d' = d_id d →
  (d_state d' = DFinished →
   d_state d = DFinished ∨ ∀ j ch, ch ∈ l → ¬ failed_file j ch) →
  children_kept l l' →
  evolves (NDir d l) (NDir d' l').
Proof.
  intros Hid Hst [Hf Hb]. split.
  - intros j Hj. by apply failed_file_dir in Hj.
  - intros i j. inversion 1 as [? ? ch Hi Hs Hin Hl|? ? ch Hin Hch]; subst.
    + destruct (Hf j ch Hin Hl) as (ch' & Hin' & Hl').
      apply (blocked_here _ _ d' l' ch'); [done| |done|done].
      intros Hfin. destruct (Hst Hfin) as [?|Hno]; [done|].
      by apply (Hno j ch).
    + destruct (Hb i j ch Hin Hch) as (ch' & Hin' & Hch').
      by apply (blocked_below _ _ d' l' ch').
Qed.

Lemma evolves_dir (d d' : XDir) (l l' : list Node) :
  d_id d' = d_id d →
  (d_state d' = DFinished → d_state d = DFinished ∨ l = []) →
  children_kept l l' →
  evolves (NDir d l) (NDir d' l').
Proof.
  intros Hid Hst Hk. apply evolves_dir_gen; [done| |done].
  intros H. destruct (Hst H) as [?| ->]; [by left|right].
  intros j ch Hin. by apply elem_of_nil in Hin.
Qed.

(** [Read.next] appends at most one child, and finishes the Directory only
    when it has no children. *)
Lemma Read_next_spec (d d' : XDir) (l l' : list Node) (c c' : Ctx)
    (s : option Signal) :
  Directory.Read_next d l c = (c', d', l', s) →
  d_id d' = d_id d ∧
  (∃ x, l' = l ++ x) ∧
  (d_state d' = DFinished → d_state d = DFinished ∨ l = []) ∧
  (s = Some SigFinish → l' = []) ∧
  (∀ e, s ≠ Some (SigError e)).
Proof.
  unfold Directory.Read_next.
  destruct (d_fstats d) as [|x fs].
  - destruct (d_dstats d) as [|y ds].
    + case_bool_decide as Hl.
      * intros [= <- <- <- <-]. apply length_zero_iff_nil in Hl as ->.
        split_and!; try done; [by exists [] | by right].
      * intros [= <- <- <- <-].
        split_and!; try done; [exists []; by rewrite app_nil_r | by left].
    + intros [= <- <- <- <-].
      split_and!; try done; [by eexists | by left].
  - intros [= <- <- <- <-].
    split_and!; try done; [by eexists | by left].
Qed.

Lemma State_retry_spec (parent : option XDir) (d d' : XDir)
    (l l' : list Node) (c c' : Ctx) :
  Directory.State_retry (d_state d) parent d l c = (c', d', l') →
  l' = l ∧ d_id d' = d_id d ∧ (d_state d' = DFinished → d_state d = DFinished).
Proof.
  unfold Directory.State_retry.
  destruct (d_state d) eqn:Hs; intros [= <- <- <-]; simpl;
    split_and!; try done; by rewrite Hs.
Qed.

Lemma forEach_map_kept (visit : Node → Ctx → Ctx * Node) (l : list Node) :
  Forall (λ ch, ∀ c, evolves ch (visit ch c).2) l →
  ∀ c, children_kept l (forEach_map visit l c).2.
Proof.
  induction 1 as [|ch l Hch _ IH]; intros c; simpl.
  - apply children_kept_refl.
  - specialize (Hch c). destruct (visit ch c) as [c1 ch1].
    specialize (IH c1). destruct (forEach_map visit l c1) as [c2 l2].
    by apply children_kept_cons.
Qed.

(** [retry] leaves failed Files failed and blocked Directories blocked. *)
Lemma retry_evolves (n : Node) :
  ∀ parent c, evolves n (Directory.retry parent n c).2.
Proof.
  induction n as [f|d l IH] using Node_ind'; intros parent c; simpl.
  - apply evolves_refl.
  - pose proof (forEach_map_kept (Directory.retry (Some d)) l) as Hk.
    specialize (Hk (Forall_impl _ _ _ IH (λ ch H c, H (Some d) c)) c).
    destruct (forEach_map (Directory.retry (Some d)) l c) as [c1 l1].
    destruct (Directory.State_retry (d_state d) parent d l1 c1)
      as [[c2 d2] l2] eqn:Hr.
    apply State_retry_spec in Hr as (-> & Hid & Hst). simpl in *.
    apply evolves_dir; [done| |done]. intros H. left. by apply Hst.
Qed.

(** An event at a File: a failed File stays failed, and only a File that
    became Finished signals [finish]. *)
Lemma on_file_spec (ev : Event) (parent : option XDir) (f f' : XFile)
    (c c' : Ctx) (s : option Signal) :
  on_file ev parent f c = (c', f', s) →
  f_id f' = f_id f ∧
  (f_live f = FFailed → f_live f' = FFailed) ∧
  (s = Some SigFinish → f_live f' = FFinished).
Proof.
  unfold on_file, startable_file.
  destruct ev, parent as [p|]; try (by intros [= <- <- <-]).
  - (* Start *)
    case_bool_decide as Hl; simpl; [|by intros [= <- <- <-]].
    destruct (bool_decide _); [|by intros [= <- <- <-]].
    intros [= <- <- <-]. split_and!; [done|congruence|done].
  - (* CpFileDone *)
    case_bool_decide as Hl; [|by intros [= <- <- <-]].
    unfold File.Working_callback. destruct err as [e|].
    + destruct (String.eqb _ _); intros [= <- <- <-];
        split_and!; [done|congruence|done|done|congruence|done].
    + intros [= <- <- <-]. split_and!; [done|congruence|done].
  - (* Resolve *)
    unfold File.resolve, File.State_resolve, File.Conflict_resolve.
    simpl. destruct (f_state f); by intros [= <- <- <-].
Qed.

Lemma on_child_signal_spec (s s' : option Signal) (d d' : XDir)
    (pre post l' : list Node) (ch ch' : Node) (c c' : Ctx) :
  Directory.on_child_signal s d pre ch' post c = (c', d', l', s') →
  evolves ch ch' →
  (s = Some SigFinish → finished_leaf ch') →
  evolves (NDir d (pre ++ ch :: post)) (NDir d' l') ∧
  (s' = Some SigFinish → l' = []).
Proof.
  intros Hs He Hleaf. unfold Directory.on_child_signal in Hs.
  destruct s as [[e|]|].
  - apply Read_next_spec in Hs as (Hid & [x ->] & Hst & Hfin & _).
    split; [|done]. apply evolves_dir; [done| |].
    + intros H. destruct (Hst H) as [?|Hnil]; [by left|].
      by destruct pre.
    + eapply children_kept_trans; [by apply children_kept_replace|].
      apply children_kept_app.
  - apply Read_next_spec in Hs as (Hid & [x ->] & Hst & Hfin & _).
    split; [|done]. apply evolves_dir_gen; [done| |].
    + intros H. destruct (Hst H) as [?|Hnil]; [by left|right].
      (* the only child finished: no failed File was among the children *)
      apply app_eq_nil in Hnil as [-> ->]. intros j y Hin Hy.
      apply list_elem_of_singleton in Hin as ->.
      destruct He as [Hf _].
      by apply (finished_leaf_not_failed j ch' (Hleaf eq_refl)), Hf.
    + eapply children_kept_trans;
        [by apply (children_kept_remove pre post ch ch'); [|apply Hleaf]|].
      apply children_kept_app.
  - injection Hs as <- <- <- <-. split; [|done].
    apply evolves_dir; [done|by left|by apply children_kept_replace].
Qed.

Lemma with_state_evolves (d : XDir) (l : list Node) (st : DState) :
  st ≠ DFinished → evolves (NDir d l) (NDir (with_d_state d st) l).
Proof.
  intros Hst. apply evolves_dir_gen; [done|done|apply children_kept_refl].
Qed.

(** An event at a Directory. *)
Lemma on_dir_spec (ev : Event) (parent : option XDir) (d : XDir)
    (l : list Node) (c c' : Ctx) (n' : Node) (s : option Signal) :
  on_dir ev parent d l c = (c', n', s) →
  evolves (NDir d l) n' ∧ (s = Some SigFinish → finished_leaf n').
Proof.
  unfold on_dir.
  destruct ev; try (intros [= <- <- <-]; split; [apply evolves_refl|done]).
  - (* Start *)
    destruct parent as [p|];
      [|intros [= <- <- <-]; split; [apply evolves_refl|done]].
    destruct (startable_dir d c);
      [|intros [= <- <- <-]; split; [apply evolves_refl|done]].
    simpl. intros [= <- <- <-]. split; [|done]. by apply with_state_evolves.
  - (* MkdircDone *)
    destruct (d_state d) eqn:Hs;
      try (intros [= <- <- <-]; split; [apply evolves_refl|done]).
    unfold Directory.Making_callback. destruct r as [e|uuid].
    + destruct (String.eqb _ _); simpl; intros [= <- <- <-];
        (split; [by apply with_state_evolves|done]).
    + simpl. intros [= <- <- <-]. split; [|done].
      apply evolves_dir_gen; [done|done|apply children_kept_refl].
  - (* ReaddirDone *)
    destruct (d_state d) eqn:Hs;
      try (intros [= <- <- <-]; split; [apply evolves_refl|done]).
    unfold Directory.Reading_callback. destruct r as [e|xstats].
    + simpl. intros [= <- <- <-]. split; [by apply with_state_evolves|done].
    + unfold Directory.State_setState, Directory.construct, Directory.Read_enter.
      match goal with
      | |- context [Directory.Read_next ?d0 ?l0 ?c0] =>
          destruct (Directory.Read_next d0 l0 c0) as [[[c1 d1] l1] s1] eqn:Hn
      end.
      intros [= <- <- <-].
      apply Read_next_spec in Hn as (Hid & [x ->] & Hst & Hfin & _).
      simpl in *. split; [|done].
      apply evolves_dir; [done| |apply children_kept_app].
      intros H. by destruct (Hst H) as [?|?]; [|right].
  - (* SetPolicy *)
    unfold Directory.setPolicy.
    match goal with
    | |- context [Directory.retry parent (NDir ?d0 l) c] =>
        pose proof (retry_evolves (NDir d0 l) parent c) as Hr;
        destruct (Directory.retry parent (NDir d0 l) c) as [c1 n1] eqn:Hn
    end.
    intros [= <- <- <-]. split; [|done]. simpl in Hr.
    eapply evolves_trans; [|exact Hr].
    apply evolves_dir; [by destruct (String.eqb _ _)| |apply children_kept_refl].
    destruct (String.eqb _ _); simpl; by left.
  - (* Retry *)
    pose proof (retry_evolves (NDir d l) parent c) as Hr.
    destruct (Directory.retry parent (NDir d l) c) as [c1 n1].
    by intros [= <- <- <-].
Qed.

Lemma first_child_spec {R : Type} (try : Node → option R) (l : list Node) :
  ∀ pre pre' r post,
    first_child try pre l = Some (pre', r, post) →
    ∃ mid ch, l = mid ++ ch :: post ∧ pre' = pre ++ mid ∧ try ch = Some r.
Proof.
  induction l as [|x l IH]; intros pre pre' r post; simpl; [done|].
  destruct (try x) as [r0|] eqn:Hx.
  - intros [= <- <- <-]. exists [], x. by rewrite app_nil_r.
  - intros H. apply IH in H as (mid & ch & -> & -> & Hch).
    exists (x :: mid), ch. by rewrite <- app_assoc.
Qed.

(** An event delivered anywhere in a tree: what was blocked stays blocked,
    and a tree whose root signals [finish] is a finished leaf. *)
Lemma deliver_spec (ev : Event) (id : NodeId) (n : Node) :
  ∀ parent c c' n' s,
    deliver ev id parent n c = Some (c', n', s) →
    evolves n n' ∧ (s = Some SigFinish → finished_leaf n').
Proof.
  induction n as [f|d l IH] using Node_ind'; intros parent c c' n' s; simpl.
  - case_bool_decide; [|done].
    destruct (on_file ev parent f c) as [[c1 f1] s1] eqn:Hf.
    intros [= <- <- <-]. apply on_file_spec in Hf as (Hid & Hfail & Hfin).
    split; [by apply evolves_file|done].
  - case_bool_decide; [intros [= Hd]; by apply on_dir_spec in Hd|].
    destruct (first_child _ [] l) as [[[pre [[c1 ch1] s1]] post]|] eqn:Hfc;
      [|done].
    apply first_child_spec in Hfc as (mid & ch & -> & -> & Hch). simpl.
    destruct (Directory.on_child_signal s1 d mid ch1 post c1)
      as [[[c2 d2] l2] s2] eqn:Hs.
    intros [= <- <- <-].
    rewrite Forall_app, Forall_cons in IH. destruct IH as (_ & IHch & _).
    apply IHch in Hch as [He Hleaf].
    apply (on_child_signal_spec _ _ _ _ _ _ _ ch) in Hs as [He' Hfin];
      [|done|done].
    split; [done|]. intros Hs2. simpl. by apply Hfin.
Qed.

Lemma step_blocked (ev : Event) (w : World) (i j : NodeId) :
  blocked i j (root w) → blocked i j (root (step ev w)).
Proof.
  unfold step. destruct (target ev) as [id|]; [|done].
  destruct (deliver ev id None (root w) (ctx w)) as [[[c n] s]|] eqn:Hd;
    [|done].
  apply deliver_spec in Hd as [[_ Hb] _]. apply Hb.
Qed.

(** ** The children of a Directory are drained in order *)

Lemma ordered_dir (d : XDir) (l : list Node) :
  ordered (NDir d l) ↔ in_order d l ∧ Forall ordered l.
Proof.
  cbn [ordered]. apply and_iff_compat_l.
  induction l as [|ch l IH].
  - split; [by constructor | done].
  - rewrite IH, Forall_cons. done.
Qed.


Lemma snoc_inactive (l : list Node) (y : Node) :
  Forall (λ n, active n = false) l →
  ∀ pre b, map active (l ++ [y]) = pre ++ [b] → Forall (λ a, a = false) pre.
Proof.
  intros Hl pre b. rewrite map_app. simpl. intros H.
  apply app_inj_tail in H as [<- _].
  apply Forall_forall. intros a Ha. apply list_elem_of_In, in_map_iff in Ha
    as (n & <- & Hn). rewrite Forall_forall in Hl. apply Hl.
  by apply list_elem_of_In.
Qed.

Lemma all_inactive_rest (l : list Node) :
  Forall (λ n, active n = false) l →
  ∀ pre b, map active l = pre ++ [b] → Forall (λ a, a = false) pre.
Proof.
  intros Hl pre b H.
  assert (Forall (λ a, a = false) (map active l)) as Ha.
  { apply Forall_forall. intros a Ha. apply list_elem_of_In, in_map_iff in Ha
      as (n & <- & Hn). rewrite Forall_forall in Hl. apply Hl.
    by apply list_elem_of_In. }
  rewrite H in Ha. by apply Forall_app in Ha as [Ha _].
Qed.

(** A child that is not the last one is at rest. *)
Lemma not_last_inactive (mid post : list Node) (ch : Node) :
  (∀ pre b, map active (mid ++ ch :: post) = pre ++ [b] →
            Forall (λ a, a = false) pre) →
  post ≠ [] → active ch = false.
Proof.
  intros H Hne. destruct (exists_last Hne) as (post' & z & ->).
  specialize (H (map active (mid ++ ch :: post')) (active z)).
  rewrite app_comm_cons, app_assoc, map_app in H. specialize (H eq_refl).
  rewrite map_app, Forall_app in H. destruct H as [_ H].
  simpl in H. by apply Forall_cons in H as [H _].
Qed.

(** The children before the last one are at rest. *)
Lemma before_last_inactive (mid : list Node) (ch : Node) :
  (∀ pre b, map active (mid ++ [ch]) = pre ++ [b] →
            Forall (λ a, a = false) pre) →
  Forall (λ n, active n = false) mid.
Proof.
  intros H. specialize (H (map active mid) (active ch)).
  rewrite map_app in H. specialize (H eq_refl).
  apply Forall_forall. intros n Hn. rewrite Forall_forall in H. apply H.
  apply list_elem_of_In, in_map. by apply list_elem_of_In.
Qed.

(** [Read.next] on a Directory in Read whose children are all at rest. *)
Lemma Read_next_in_order (d d' : XDir) (l l' : list Node) (c c' : Ctx)
    (s : option Signal) :
  Directory.Read_next d l c = (c', d', l', s) →
  d_state d = DRead →
  Forall (λ n, active n = false) l →
  Forall ordered l →
  (true ∈ map is_dir l → d_fstats d = []) →
  in_order d' l' ∧ Forall ordered l' ∧
  (s ≠ None → d_state d' = DFinished).
Proof.
  unfold Directory.Read_next, in_order. intros Hn Hs Hl Ho Hq.
  assert (∀ pre b, map active (@nil Node) = pre ++ [b] →
                   Forall (λ a, a = false) pre) as Hnil
    by (intros pre b H; by destruct pre).
  assert (true ∉ map is_dir (@nil Node)) as Hnil' by apply not_elem_of_nil.
  assert (∀ y : Node, l ++ [y] ≠ []) as Hsnoc by (intros y H; by destruct l).
  destruct (d_fstats d) as [|x fs] eqn:Hfs.
  - destruct (d_dstats d) as [|y ds] eqn:Hds.
    + case_bool_decide as Hlen.
      * injection Hn as <- <- <- <-.
        apply length_zero_iff_nil in Hlen as ->. simpl.
        split_and!; done.
      * injection Hn as <- <- <- <-.
        split_and!;
          first [ done | by apply all_inactive_rest
                | split; [done|]; intros _ ->; by apply Hlen ].
    + injection Hn as <- <- <- <-. simpl.
      split_and!; first [ done | by split | by apply snoc_inactive | idtac ].
      apply Forall_app. split; [done|]. apply Forall_singleton.
      apply ordered_dir. split; [|done]. unfold in_order. simpl.
      split_and!; done.
  - unfold File.new_File in Hn. simpl in Hn. injection Hn as <- <- <- <-.
    simpl.
    split_and!; first [ done | by split | by apply snoc_inactive | idtac ].
    + rewrite map_app. simpl. intros H.
      apply elem_of_app in H as [H|H].
      * specialize (Hq H). congruence.
      * apply list_elem_of_singleton in H. discriminate.
    + apply Forall_app. split; [done|]. by apply Forall_singleton.
Qed.


Lemma in_order_same_shape (d d' : XDir) (l l' : list Node) :
  in_order d l →
  map active l' = map active l → map is_dir l' = map is_dir l →
  (d_state d' = DRead ↔ d_state d = DRead) →
  d_fstats d' = d_fstats d →
  in_order d' l'.
Proof.
  intros (Hne & Ha & Hq) Hact Hdir Hst Hfs. unfold in_order.
  rewrite Hact, Hdir, Hst, Hfs. split_and!; [|done|done].
  rewrite <- Hne. split; intros H ->.
  - apply H. destruct l'; [done|discriminate].
  - apply H. destruct l; [done|discriminate].
Qed.

Lemma forEach_map_shape (visit : Node → Ctx → Ctx * Node) (l : list Node) :
  Forall (λ ch, ordered ch → ∀ c,
            ordered (visit ch c).2 ∧ is_dir (visit ch c).2 = is_dir ch ∧
            active (visit ch c).2 = active ch) l →
  Forall ordered l →
  ∀ c, Forall ordered (forEach_map visit l c).2 ∧
       map active (forEach_map visit l c).2 = map active l ∧
       map is_dir (forEach_map visit l c).2 = map is_dir l.
Proof.
  induction 1 as [|ch l Hch _ IH]; intros Ho c; simpl; [done|].
  apply Forall_cons in Ho as [Hoc Hol].
  destruct (Hch Hoc c) as (H1 & H2 & H3). destruct (visit ch c) as [c1 ch1].
  destruct (IH Hol c1) as (H4 & H5 & H6).
  destruct (forEach_map visit l c1) as [c2 l2]. simpl in *.
  split_and!; [by constructor | by f_equal | by f_equal].
Qed.

(** [retry] keeps a tree in order, and every node as active as it was. *)
Lemma retry_ordered (n : Node) :
  ordered n → ∀ parent c,
    ordered (Directory.retry parent n c).2 ∧
    is_dir (Directory.retry parent n c).2 = is_dir n ∧
    active (Directory.retry parent n c).2 = active n.
Proof.
  induction n as [f|d l IH] using Node_ind'; intros Ho parent c; [done|].
  apply ordered_dir in Ho as [Hin Hol]. cbn -[ordered].
  pose proof (forEach_map_shape (Directory.retry (Some d)) l) as Hk.
  specialize (Hk (Forall_impl _ _ _ IH (λ ch H Hc c, H Hc (Some d) c)) Hol c).
  destruct (forEach_map (Directory.retry (Some d)) l c) as [c1 l1].
  destruct Hk as (Ho1 & Ha1 & Hd1). cbn -[ordered] in *.
  unfold Directory.State_retry.
  destruct (d_state d) eqn:Hs; cbn -[ordered]; rewrite ?Hs;
    (split_and!; [|done|done]);
    apply ordered_dir; (split; [|done]);
    apply (in_order_same_shape d _ l); try done; cbn; by rewrite Hs.
Qed.

Lemma on_file_settles (ev : Event) (parent : option XDir) (f f' : XFile)
    (c c' : Ctx) (s : option Signal) :
  on_file ev parent f c = (c', f', s) → settles (NFile f) (NFile f') s.
Proof.
  unfold on_file, startable_file, settles. simpl.
  destruct ev, parent as [p|]; try (by intros [= <- <- <-]).
  - (* Start *)
    case_bool_decide as Hl; simpl; [|by intros [= <- <- <-]].
    destruct (bool_decide _); [|by intros [= <- <- <-]].
    intros [= <- <- <-]. simpl. by rewrite Hl.
  - (* CpFileDone *)
    case_bool_decide as Hl; [|by intros [= <- <- <-]].
    unfold File.Working_callback. destruct err as [e|].
    + destruct (String.eqb _ _); intros [= <- <- <-]; simpl; by rewrite Hl.
    + intros [= <- <- <-]. simpl. by rewrite Hl.
  - (* Resolve *)
    unfold File.resolve, File.State_resolve, File.Conflict_resolve.
    simpl. destruct (f_state f); by intros [= <- <- <-].
Qed.

Lemma in_order_empty (d : XDir) :
  d_state d ≠ DRead → in_order d [].
Proof.
  intros Hs. unfold in_order. simpl. split_and!.
  - by split.
  - intros pre b H. by destruct pre.
  - intros H. by apply elem_of_nil in H.
Qed.

Lemma in_order_not_read (d : XDir) (l : list Node) :
  in_order d l → d_state d ≠ DRead → l = [].
Proof.
  intros (Hne & _) Hs. destruct l; [done|]. destruct Hs. by apply Hne.
Qed.

(** An event at a Directory kept in order. *)
Lemma on_dir_settles (ev : Event) (parent : option XDir) (d : XDir)
    (l : list Node) (c c' : Ctx) (n' : Node) (s : option Signal) :
  ordered (NDir d l) →
  on_dir ev parent d l c = (c', n', s) →
  settles (NDir d l) n' s.
Proof.
  intros Ho. pose proof Ho as Ho'. apply ordered_dir in Ho' as [Hin Hol].
  assert (settles (NDir d l) (NDir d l) None) as Hsame by done.
  unfold on_dir, startable_dir.
  destruct ev; try (by intros [= <- <- <-]).
  - (* Start *)
    destruct parent as [p|]; [|by intros [= <- <- <-]].
    case_bool_decide as Hs; simpl; [|by intros [= <- <- <-]].
    destruct (bool_decide _); [|by intros [= <- <- <-]].
    assert (l = []) as -> by (apply (in_order_not_read d l Hin); by rewrite Hs).
    simpl. rewrite Hs. simpl. intros [= <- <- <-]. unfold settles. simpl.
    rewrite Hs. split_and!; try done. split; [|done]. by apply in_order_empty.
  - (* MkdircDone *)
    destruct (d_state d) eqn:Hs; try (by intros [= <- <- <-]).
    assert (l = []) as -> by (apply (in_order_not_read d l Hin); by rewrite Hs).
    unfold Directory.Making_callback, settles. destruct r as [e|uuid].
    + destruct (String.eqb _ _); simpl; intros [= <- <- <-]; simpl;
        rewrite Hs; (split_and!; try done);
        (split; [|done]); by apply in_order_empty.
    + simpl. intros [= <- <- <-]. simpl. rewrite Hs.
      split_and!; try done. split; [|done]. by apply in_order_empty.
  - (* ReaddirDone *)
    destruct (d_state d) eqn:Hs; try (by intros [= <- <- <-]).
    assert (l = []) as -> by (apply (in_order_not_read d l Hin); by rewrite Hs).
    unfold Directory.Reading_callback, settles. destruct r as [e|xstats].
    + simpl. intros [= <- <- <-]. simpl. rewrite Hs.
      split_and!; try done. split; [|done]. by apply in_order_empty.
    + unfold Directory.State_setState, Directory.construct, Directory.Read_enter.
      match goal with
      | |- context [Directory.Read_next ?d0 ?l0 ?c0] =>
          destruct (Directory.Read_next d0 l0 c0) as [[[c1 d1] l1] s1] eqn:Hn
      end.
      intros [= <- <- <-].
      apply Read_next_in_order in Hn as (Hin1 & Hol1 & Hfin); try done.
      * simpl. rewrite Hs. split_and!; try done.
        -- by apply ordered_dir.
        -- intros H. by rewrite (Hfin H).
      * intros H. by apply elem_of_nil in H.
  - (* SetPolicy *)
    unfold Directory.setPolicy.
    set (d0 := if String.eqb type "same"
               then with_d_policy d (policy, snd (d_policy d))
               else with_d_policy d (fst (d_policy d), policy)).
    assert (d_state d0 = d_state d ∧ d_fstats d0 = d_fstats d) as [Hs0 Hf0]
      by (unfold d0; by destruct (String.eqb _ _)).
    assert (ordered (NDir d0 l)) as Ho0.
    { apply ordered_dir. split; [|done].
      apply (in_order_same_shape d d0 l l); try done. by rewrite Hs0. }
    destruct (retry_ordered (NDir d0 l) Ho0 parent c) as (H1 & H2 & H3).
    destruct (Directory.retry parent (NDir d0 l) c) as [c1 n1].
    intros [= <- <- <-]. unfold settles. cbn [snd] in H1, H2, H3.
    rewrite H3. cbn [active]. rewrite Hs0. by split_and!.
  - (* Retry *)
    destruct (retry_ordered (NDir d l) Ho parent c) as (H1 & H2 & H3).
    destruct (Directory.retry parent (NDir d l) c) as [c1 n1].
    intros [= <- <- <-]. unfold settles. cbn [snd] in H1, H2, H3.
    rewrite H3. by split_and!.
Qed.

(** Replacing a child by one that is at rest if the child was. *)
Lemma replace_child_inactive (mid post : list Node) (ch ch' : Node) :
  (∀ pre b, map active (mid ++ ch :: post) = pre ++ [b] →
            Forall (λ a, a = false) pre) →
  (active ch = false → active ch' = false) →
  ∀ pre b, map active (mid ++ ch' :: post) = pre ++ [b] →
           Forall (λ a, a = false) pre.
Proof.
  intros Ha Hch. destruct (decide (post = [])) as [-> |Hne].
  - intros pre b. rewrite map_app. simpl. intros H.
    apply app_inj_tail in H as [<- _].
    apply (Ha (map active mid) (active ch)). by rewrite map_app.
  - assert (active ch' = active ch) as Heq
      by (rewrite (not_last_inactive mid post ch Ha Hne);
          apply Hch, (not_last_inactive mid post ch Ha Hne)).
    intros pre b. rewrite map_app. simpl. rewrite Heq.
    intros H. apply (Ha pre b). by rewrite map_app.
Qed.

(** The listeners of a Directory kept in order, when the event reached the
    child [ch]. *)
Lemma on_child_signal_settles (s1 s2 : option Signal) (d d2 : XDir)
    (mid post l2 : list Node) (ch ch' : Node) (c1 c2 : Ctx) :
  ordered (NDir d (mid ++ ch :: post)) →
  settles ch ch' s1 →
  Directory.on_child_signal s1 d mid ch' post c1 = (c2, d2, l2, s2) →
  settles (NDir d (mid ++ ch :: post)) (NDir d2 l2) s2.
Proof.
  intros Ho (Hoch & Hkind & Hrest & Hsig) Hs.
  apply ordered_dir in Ho as [Hin Hol].
  pose proof Hin as (Hne & Ha & Hq).
  assert (d_state d = DRead) as Hread by (apply Hne; by destruct mid).
  rewrite Forall_app, Forall_cons in Hol. destruct Hol as (Hom & _ & Hop).
  assert (map is_dir (mid ++ ch' :: post) = map is_dir (mid ++ ch :: post))
    as Hdir by (rewrite !map_app; simpl; by rewrite Hkind).
  unfold Directory.on_child_signal in Hs. unfold settles. cbn [active is_dir].
  rewrite Hread.
  assert (s1 ≠ None → post = [] ∧ Forall (λ n, active n = false) mid ∧
                       active ch' = false) as Hlast.
  { intros Hs1. destruct (decide (post = [])) as [-> |Hpost].
    - split_and!; [done| |by apply Hsig]. by apply (before_last_inactive mid ch).
    - destruct (Hrest (not_last_inactive mid post ch Ha Hpost)) as [_ ?].
      done. }
  destruct s1 as [[e|]|].
  - (* error *)
    destruct Hlast as (-> & Hmid & Hch'); [done|].
    apply Read_next_in_order in Hs as (Hin2 & Hol2 & Hfin); try done.
    + split_and!; [by apply ordered_dir|done|done|].
      intros H. by rewrite (Hfin H).
    + apply Forall_app. split; [done|]. by apply Forall_singleton.
    + apply Forall_app. split; [done|]. by apply Forall_singleton.
    + rewrite Hdir. exact Hq.
  - (* finish *)
    destruct Hlast as (-> & Hmid & Hch'); [done|]. rewrite app_nil_r in Hs.
    apply Read_next_in_order in Hs as (Hin2 & Hol2 & Hfin); try done.
    + split_and!; [by apply ordered_dir|done|done|].
      intros H. by rewrite (Hfin H).
    + intros H. apply Hq. rewrite map_app. apply elem_of_app. by left.
  - (* silent *)
    injection Hs as <- <- <- <-. rewrite Hread.
    split_and!; [|done|done|done].
    apply ordered_dir. split.
    + unfold in_order. rewrite Hdir. split_and!; [|  |done].
      * split; [done|]. intros _ H. by destruct mid.
      * apply (replace_child_inactive mid post ch ch' Ha).
        intros H. by apply Hrest.
    + rewrite Forall_app, Forall_cons. done.
Qed.

(** An event delivered anywhere in a tree kept in order. *)
Lemma deliver_settles (ev : Event) (id : NodeId) (n : Node) :
  ∀ parent c c' n' s,
    ordered n →
    deliver ev id parent n c = Some (c', n', s) →
    settles n n' s.
Proof.
  induction n as [f|d l IH] using Node_ind'; intros parent c c' n' s Ho; simpl.
  - case_bool_decide; [|done].
    destruct (on_file ev parent f c) as [[c1 f1] s1] eqn:Hf.
    intros [= <- <- <-]. by apply on_file_settles in Hf.
  - case_bool_decide; [intros [= Hd]; by apply on_dir_settles in Hd|].
    destruct (first_child _ [] l) as [[[pre [[c1 ch1] s1]] post]|] eqn:Hfc;
      [|done].
    apply first_child_spec in Hfc as (mid & ch & -> & -> & Hch). simpl.
    destruct (Directory.on_child_signal s1 d mid ch1 post c1)
      as [[[c2 d2] l2] s2] eqn:Hs.
    intros [= <- <- <-].
    rewrite Forall_app, Forall_cons in IH. destruct IH as (_ & IHch & _).
    pose proof Ho as Ho'. apply ordered_dir in Ho' as [_ Hol].
    rewrite Forall_app, Forall_cons in Hol. destruct Hol as (_ & Hoch & _).
    apply (IHch _ _ _ _ _ Hoch) in Hch.
    by apply (on_child_signal_settles s1 s2 d d2 mid post l2 ch ch1 c1 c2).
Qed.

Lemma step_ordered (ev : Event) (w : World) :
  ordered (root w) → ordered (root (step ev w)).
Proof.
  unfold step. destruct (target ev) as [id|]; [|done].
  destruct (deliver ev id None (root w) (ctx w)) as [[[c n] s]|] eqn:Hd;
    [|done].
  intros Ho. by apply (deliver_settles _ _ _ _ _ _ _ _ Ho) in Hd as [? _].
Qed.

Lemma run_ordered (evs : list Event) :
  ∀ w, ordered (root w) → ordered (root (run evs w)).
Proof.
  unfold run. induction evs as [|ev evs IH]; intros w Ho; simpl; [done|].
  apply IH. by apply step_ordered.
Qed.

(** A copy starts in order. *)
Lemma start_copy_ordered (file : Policy) (dir : Policy * Policy)
    (srcUUID dstUUID : string) (xstats : list Xstat) :
  ordered (root (start_copy file dir srcUUID dstUUID xstats)).
Proof.
  unfold start_copy, Directory.new_Directory.
  destruct (fresh _) as [id c0].
  destruct (truthy (Some dstUUID)).
  - unfold Directory.construct, Directory.Read_enter.
    match goal with
    | |- context [Directory.Read_next ?d0 ?l0 ?c0] =>
        destruct (Directory.Read_next d0 l0 c0) as [[[c1 d1] l1] s1] eqn:Hn
    end.
    apply Read_next_in_order in Hn as (Hin1 & Hol1 & _); try done.
    + by apply ordered_dir.
    + intros H. by apply elem_of_nil in H.
  - simpl. apply ordered_dir. split; [|done]. by apply in_order_empty.
Qed.

(** ** The Working state of a File *)


(** ** The Read state of a Directory *)




(** Files come before subdirectories, whatever the order of the listing:
    the listing of [file_and_subdir] names the subdirectory first, yet the first
    child is the File, and the subdirectory is spawned when the File finished. *)
Lemma files_before_subdirectories :
  let w := file_and_subdir in
  let w' := run [Start 1; CpFileDone 1 None] w in
  is_dir <$> children_of (root w) = [false] ∧
  (λ d, (d_fstats d, xs_uuid <$> d_dstats d)) <$> find_dir 0 (root w)
    = Some ([], ["u9"]) ∧
  is_dir <$> children_of (root w') = [true] ∧
  dir_state 2 (root w') = Some DPending ∧
  emits (ctx w') = [(1, SigFinish)].
Proof. vm_compute. repeat split. Qed.

(** ** setPolicy on a Directory in Conflict *)




(** ** A failed File child *)

(** When the copy of a File child fails with an error that is no conflict,
    the listener of the parent calls [next] and nothing else: the File stays
    among the children, and its Directory is blocked. *)
Lemma error_report_blocks (d : XDir) (pre post : list Node) (f : XFile)
    (e : Err) (c : Ctx) :
  d_state d ≠ DFinished → f_live f = FWorking →
  err_xcode e ≠ "ECONFLICT" →
  ∃ c1 f1 c2 d2 l2 s2,
    on_file (CpFileDone (f_id f) (Some e)) (Some d) f c
      = (c1, f1, Some (SigError e)) ∧
    Directory.on_child_signal (Some (SigError e)) d pre (NFile f1) post c1
      = (c2, d2, l2, s2) ∧
    members c1 = {[ (FailedFile, f_id f) ]} ∪ (members c ∖ {[ (WorkingFile, f_id f) ]}) ∧
    blocked (d_id d) (f_id f) (NDir d2 l2).
Proof.
  intros Hd Hf He.
  set (f1 := with_f_live f FFailed).
  set (c1 := File.Failed_enter e f1 (File.exit FWorking f c)).
  destruct (Directory.Read_next d (pre ++ NFile f1 :: post) c1)
    as [[[c2 d2] l2] s2] eqn:Hn.
  exists c1, f1, c2, d2, l2, s2. split_and!.
  - unfold on_file. rewrite bool_decide_eq_true_2 by done.
    unfold File.Working_callback.
    destruct (String.eqb (err_xcode e) "ECONFLICT") eqn:Hx;
      [by apply String.eqb_eq in Hx|done].
  - done.
  - done.
  - apply Read_next_spec in Hn as (Hid & [x ->] & Hst & _).
    apply (blocked_here _ _ d2 _ (NFile f1)); [done| | |].
    + intros H. destruct (Hst H) as [?|Hnil]; [done|]. by destruct pre.
    + rewrite !elem_of_app, elem_of_cons. left. right. by left.
    + by exists f1.
Qed.

(** C10. Once a Directory that is not Finished has among its children a File
    whose copy failed, this stays so through every execution: the File is never
    taken out of the children list and the Directory never becomes Finished,
    whatever is delivered to the tree afterwards. *)
Theorem failed_file_child_blocks_finish (w : World) (i j : NodeId)
    (evs : list Event) :
  blocked i j (root w) → blocked i j (root (run evs w)).
Proof.
  revert w. unfold run.
  induction evs as [|ev evs IH]; intros w Hb; simpl; [done|].
  apply IH. by apply step_blocked.
Qed.

Lemma failed_file_child_blocks_finish_witness :
  let w := run first_fails three_files in
  let w' := run (others_succeed ++ [Retry 0; DestroyRoot]) w in
  blocked 0 1 (root w) ∧
  blocked 0 1 (root w') ∧
  dir_state 0 (root w') = Some DRead ∧
  node_id <$> children_of (root w') = [1] ∧
  emits (ctx w') = [(1, SigError EIO); (2, SigFinish); (3, SigFinish)].
Proof.
  assert (blocked 0 1 (root (run first_fails three_files))) as Hb.
  { let t := eval vm_compute in (root (run first_fails three_files)) in
    change (blocked 0 1 t).
    eapply (blocked_here _ _ _ _ (NFile _));
      [reflexivity | discriminate | apply list_elem_of_here |].
    eexists. split_and!; reflexivity. }
  split_and!; [exact Hb| |vm_compute; reflexivity..].
  apply (failed_file_child_blocks_finish (run first_fails three_files) 0 1
           (others_succeed ++ [Retry 0; DestroyRoot]) Hb).
Defined.

(** ** destroy *)

Lemma forEach_destroy_unregisters (l : list Node) :
  Forall (λ n, ∀ c, Directory.destroy n c =
                    mkCtx (members c ∖ unregistered n) (policies_file c)
                      (policies_dir c) (calls c) (emits c) (next_id c)) l →
  ∀ c, forEach Directory.destroy l c =
       mkCtx (members c ∖ ⋃ (map unregistered l)) (policies_file c)
         (policies_dir c) (calls c) (emits c) (next_id c).
Proof.
  induction 1 as [|n l Hn _ IH]; intros c; simpl.
  - destruct c. simpl. f_equal. set_solver.
  - rewrite IH, Hn. simpl. f_equal. set_solver.
Qed.

(** [destroy] takes away the registrations of [unregistered] and nothing
    else. *)
Lemma destroy_unregisters (n : Node) :
  ∀ c, Directory.destroy n c =
       mkCtx (members c ∖ unregistered n) (policies_file c) (policies_dir c)
         (calls c) (emits c) (next_id c).
Proof.
  induction n as [f|d l IH] using Node_ind'; intros c; simpl.
  - unfold File.destroy, File.State_destroy, File.exit.
    by destruct (f_state f).
  - rewrite (forEach_destroy_unregisters l IH).
    unfold Directory.State_destroy, Directory.exit, unindex.
    destruct (d_state d); simpl; f_equal; set_solver.
Qed.

(** Destroying a node again changes nothing. *)
Lemma destroy_idempotent (n : Node) (c : Ctx) :
  Directory.destroy n (Directory.destroy n c) = Directory.destroy n c.
Proof. rewrite !destroy_unregisters. simpl. f_equal. set_solver. Qed.

(** C4 at its failing input: the first file of three is Working when the
    copy is destroyed. The destroyed File is still in the working bucket; the
    root Directory has left every bucket; destroying again changes nothing. *)
Lemma destroy_leaves_working_file :
  let w := run [Start 1] three_files in
  let w' := step DestroyRoot w in
  file_live 1 (root w) = Some FWorking ∧
  buckets_of 1 (ctx w) = [WorkingFile] ∧
  buckets_of 1 (ctx w') = [WorkingFile] ∧
  buckets_of 0 (ctx w') = [] ∧
  step DestroyRoot w' = w'.
Proof. vm_compute. repeat split. Qed.

(** After a copy in which every file succeeded, the three Files, destroyed by
    their parent when they finished, are still in the finished bucket. *)
Lemma finished_files_stay_registered :
  let w :=
    run ([Start 1; CpFileDone 1 None] ++ others_succeed) three_files in
  dir_state 0 (root w) = Some DFinished ∧
  children_of (root w) = [] ∧
  elements (members (ctx w)) =
    [(FinishedFile, 2); (FinishedFile, 1); (FinishedFile, 3); (FinishedDir, 0)].
Proof. vm_compute. repeat split. Qed.

(** ** resolve *)

(** The [state] field of a File is the Pending state it was constructed
    with, whatever happened to the File since. *)
Lemma on_file_state (ev : Event) (parent : option XDir) (f : XFile) (c : Ctx) :
  f_state (on_file ev parent f c).1.2 = f_state f.
Proof.
  unfold on_file, startable_file.
  destruct ev, parent as [p|]; try done.
  - by destruct (_ && _).
  - case_bool_decide; [|done]. unfold File.Working_callback.
    destruct err as [e|]; [|done]. by destruct (String.eqb _ _).
  - unfold File.resolve, File.State_resolve, File.Conflict_resolve.
    simpl. by destruct (f_state f) eqn:Hs.
Qed.

(** [File.resolve] on a File whose [state] field is that Pending state does
    nothing; [Conflict.resolve] itself throws. *)
Lemma resolve_does_nothing (p : XDir) (f : XFile) (c : Ctx) :
  f_state f = FPending →
  File.resolve p f c = Returned (c, f) ∧
  File.Conflict_resolve p f c = Threw "TypeError".
Proof. intros Hs. unfold File.resolve. by rewrite Hs. Qed.

(** C8 at its failing input: the copy of the first file met a conflict under
    the policy "skip"; the user sets the policy "rename" and resolves. The File
    stays in Conflict and in the conflict bucket, and [cpFile] is not called
    again. *)
Lemma resolve_leaves_conflict :
  let w := run (first_conflicts ++ [FileSetPolicy 1 (Some "rename")]) three_files in
  let w' := step (Resolve 1) w in
  file_live 1 (root w) = Some FConflict ∧
  f_captured <$> find_file 1 (root w) = Some (Some "skip") ∧
  (λ f, File.getPolicy f (ctx w)) <$> find_file 1 (root w)
    = Some (Some "rename") ∧
  w' = w ∧
  file_live 1 (root w') = Some FConflict ∧
  buckets_of 1 (ctx w') = [ConflictFile] ∧
  calls (ctx w') = [(1, CpFile "src" "u1" "a" (Some "dst") (Some "skip"))].
Proof. vm_compute. repeat split. Qed.

(** ** Buckets of a File *)

(** Leaving a state takes the File out of the bucket [enter] put it in, for
    every state but Failed. *)
Lemma exit_undoes_enter (n : File.Next) (p : XDir) (f : XFile) (c : Ctx) :
  File.class_of n ≠ FFailed →
  let entered := File.construct n p f c in
  let b := bucket_of (File.class_of n) in
  (b, f_id f) ∈ members entered.1.1 ∧
  (b, f_id f) ∉ members (File.exit (File.class_of n) entered.1.2 entered.1.1).
Proof. destruct n; simpl; intros Hn; try done; set_solver. Qed.

(** [Failed.exit] leaves the File in the failed bucket. *)
Lemma Failed_exit_keeps_failed (f : XFile) (c : Ctx) :
  (FailedFile, f_id f) ∈ members c →
  (FailedFile, f_id f) ∈ members (File.exit FFailed f c).
Proof. simpl. set_solver. Qed.


(** ** The Making state of a Directory *)


(** ** The listing of a source directory *)

(** X10. When [readdir] answers with a listing, the Directory leaves Reading
    for Read and splits the listing by [type]: the entries of type file are
    the file queue and those of type directory the subdirectory queue, each in
    the order of the listing; entries of any other type are dropped. The first
    file entry becomes a Pending File child at once; without file entries the
    first directory entry becomes a Pending Directory child; and without either
    the Directory is Finished within the same call and emits [finish]. *)
Theorem listing_is_split (xstats : list Xstat) (parent : option XDir)
    (d : XDir) (c : Ctx) :
  let r := Directory.Reading_callback (inr xstats) parent d [] c in
  let c' := r.1.1.1 in
  let d' := r.1.1.2 in
  let l' := r.1.2 in
  let fs := List.filter (Directory.is_type "file") xstats in
  let ds := List.filter (Directory.is_type "directory") xstats in
  match fs, ds with
  | x :: fs', _ =>
      d_state d' = DRead ∧ d_fstats d' = fs' ∧ d_dstats d' = ds ∧
      r.2 = None ∧
      members c' =
        {[ (PendingFile, next_id c) ]} ∪
        ({[ (ReadDir, d_id d) ]} ∪ (members c ∖ {[ (ReadingDir, d_id d) ]})) ∧
      ∃ f, l' = [NFile f] ∧ f_id f = next_id c ∧
           f_srcUUID f = xs_uuid x ∧ f_srcName f = xs_name x ∧
           f_live f = FPending
  | [], y :: ds' =>
      d_state d' = DRead ∧ d_fstats d' = [] ∧ d_dstats d' = ds' ∧
      r.2 = None ∧
      members c' =
        {[ (PendingDir, next_id c) ]} ∪
        ({[ (ReadDir, d_id d) ]} ∪ (members c ∖ {[ (ReadingDir, d_id d) ]})) ∧
      ∃ d1, l' = [NDir d1 []] ∧ d_id d1 = next_id c ∧
            d_srcUUID d1 = xs_uuid y ∧ d_dstUUID d1 = None ∧
            d_state d1 = DPending
  | [], [] =>
      d_state d' = DFinished ∧ l' = [] ∧ r.2 = Some SigFinish ∧
      emits c' = emits c ++ [(d_id d, SigFinish)] ∧
      members c' =
        {[ (FinishedDir, d_id d) ]} ∪
        (({[ (ReadDir, d_id d) ]} ∪ (members c ∖ {[ (ReadingDir, d_id d) ]}))
           ∖ {[ (ReadDir, d_id d) ]})
  end.
Proof.
  simpl. unfold Directory.State_setState, Directory.construct,
    Directory.Read_enter, Directory.Read_next. simpl.
  destruct (List.filter (Directory.is_type "file") xstats) as [|x fs'].
  - destruct (List.filter (Directory.is_type "directory") xstats) as [|y ds'].
    + simpl. by split_and!.
    + simpl. split_and!; try done. by eexists.
  - simpl. split_and!; try done. by eexists.
Qed.

(** ** retry and setPolicy outside Conflict *)

Lemma conflict_free_children (d : XDir) (l : list Node) :
  conflict_free (NDir d l) → Forall conflict_free l.
Proof.
  unfold conflict_free. simpl. intros H. apply Forall_cons in H as [_ H].
  apply Forall_forall. intros ch Hch. apply Forall_forall. intros m Hm.
  rewrite Forall_forall in H. apply H.
  apply list_elem_of_In, in_concat. exists (nodes ch).
  split; [apply in_map; by apply list_elem_of_In | by apply list_elem_of_In].
Qed.

Lemma forEach_map_id {B : Type} (visit : B → Ctx → Ctx * B) (l : list B) :
  Forall (λ x, ∀ c, visit x c = (c, x)) l →
  ∀ c, forEach_map visit l c = (c, l).
Proof.
  induction 1 as [|x l Hx _ IH]; intros c; simpl; [done|].
  by rewrite Hx, IH.
Qed.

(** X11. [retry] moves Directories in Conflict and nothing else: on a tree
    without a Directory in Conflict it changes neither the context nor the
    tree. So [setPolicy] on such a Directory only writes the slot: the slot
    named "same" for the type "same", the other slot for any other type. *)
Theorem retry_only_moves_conflicts (parent : option XDir) (n : Node) (c : Ctx) :
  conflict_free n →
  Directory.retry parent n c = (c, n) ∧
  ∀ d l type p,
    n = NDir d l →
    Directory.setPolicy type p parent d l c =
      (c, NDir (with_d_policy d (if String.eqb type "same"
                                 then (p, snd (d_policy d))
                                 else (fst (d_policy d), p))) l).
Proof.
  assert (∀ n, conflict_free n → ∀ parent c, Directory.retry parent n c = (c, n))
    as Hretry.
  { clear. intros n. induction n as [f|d l IH] using Node_ind'; [done|].
    intros Hn parent c. simpl.
    rewrite (forEach_map_id (Directory.retry (Some d)) l).
    - apply Forall_cons in Hn as [Hd _]. simpl in Hd.
      unfold Directory.State_retry. by destruct (d_state d).
    - pose proof (conflict_free_children d l Hn) as Hl.
      rewrite Forall_forall in IH, Hl. apply Forall_forall.
      intros ch Hch c'. by apply IH; [|apply Hl]. }
  intros Hn. split; [by apply Hretry|].
  intros d l type p ->. unfold Directory.setPolicy.
  destruct (String.eqb type "same"); apply Hretry;
    (apply Forall_cons in Hn as [Hd Hl]; apply Forall_cons; split; [|done]);
    simpl in *; by destruct (d_state d).
Qed.

Lemma retry_only_moves_conflicts_witness :
  let d := mkXDir 0 "src" (Some "dst") (None, None) DRead [] [] in
  let f := mkXFile 1 "u1" "a" None FPending FConflict (Some "skip") in
  let c := new_Ctx None (None, None) in
  Directory.retry None (NDir d [NFile f]) c = (c, NDir d [NFile f]) ∧
  Directory.setPolicy "sam" (Some "skip") None d [NFile f] c =
    (c, NDir (with_d_policy d (None, Some "skip")) [NFile f]).
Proof.
  assert (conflict_free
            (NDir (mkXDir 0 "src" (Some "dst") (None, None) DRead [] [])
               [NFile (mkXFile 1 "u1" "a" None FPending FConflict (Some "skip"))]))
    as Hc by (repeat constructor).
  split.
  - exact (proj1 (retry_only_moves_conflicts None _ (new_Ctx None (None, None)) Hc)).
  - exact (proj2 (retry_only_moves_conflicts None _ (new_Ctx None (None, None)) Hc)
             _ _ "sam" (Some "skip") eq_refl).
Defined.

(** ** A File at rest *)


(** ** Proving a property of every delivery *)

Section deliver_ind.
Context (ev : Event) (id : NodeId).
Context (Pre : option XDir → Node → Ctx → Prop).
Context (Post : option XDir → Node → Ctx → Ctx → Node → option Signal → Prop).

Hypothesis at_file : ∀ parent f c c' f' s,
  Pre parent (NFile f) c → on_file ev parent f c = (c', f', s) →
  Post parent (NFile f) c c' (NFile f') s.

Hypothesis at_dir : ∀ parent d l c c' n' s,
  Pre parent (NDir d l) c → on_dir ev parent d l c = (c', n', s) →
  Post parent (NDir d l) c c' n' s.

Hypothesis down : ∀ parent d mid ch post c,
  Pre parent (NDir d (mid ++ ch :: post)) c → Pre (Some d) ch c.

Hypothesis up : ∀ parent d mid ch post c c1 ch1 s1 c2 d2 l2 s2,
  Pre parent (NDir d (mid ++ ch :: post)) c →
  deliver ev id (Some d) ch c = Some (c1, ch1, s1) →
  Post (Some d) ch c c1 ch1 s1 →
  Directory.on_child_signal s1 d mid ch1 post c1 = (c2, d2, l2, s2) →
  Post parent (NDir d (mid ++ ch :: post)) c c2 (NDir d2 l2) s2.

Lemma deliver_ind (n : Node) :
  ∀ parent c c' n' s,
    Pre parent n c → deliver ev id parent n c = Some (c', n', s) →
    Post parent n c c' n' s.
Proof.
  induction n as [f|d l IH] using Node_ind'; intros parent c c' n' s Hpre;
    simpl.
  - case_bool_decide; [|done].
    destruct (on_file ev parent f c) as [[c1 f1] s1] eqn:Hf.
    intros [= <- <- <-]. by apply at_file.
  - case_bool_decide; [intros [= Hd]; by apply at_dir|].
    destruct (first_child _ [] l) as [[[pre [[c1 ch1] s1]] post]|] eqn:Hfc;
      [|done].
    apply first_child_spec in Hfc as (mid & ch & -> & -> & Hch). simpl.
    destruct (Directory.on_child_signal s1 d mid ch1 post c1)
      as [[[c2 d2] l2] s2] eqn:Hs.
    intros [= <- <- <-].
    rewrite Forall_app, Forall_cons in IH. destruct IH as (_ & IHch & _).
    apply (up parent d mid ch post c c1 ch1 s1); try done.
    apply IHch; [|done]. by apply (down parent d mid ch post).
Qed.
End deliver_ind.

(** ** Identifiers *)

Lemma ids_dir (d : XDir) (l : list Node) :
  ids (NDir d l) = d_id d :: concat (map ids l).
Proof.
  unfold ids. simpl. f_equal. rewrite concat_map, map_map. done.
Qed.

Lemma ids_file (f : XFile) : ids (NFile f) = [f_id f].
Proof. done. Qed.

Lemma ids_head (n : Node) : ∃ t, ids n = node_id n :: t.
Proof. destruct n as [f|d l]; [by exists []|]. rewrite ids_dir. by eexists. Qed.

Lemma concat_ids_app (l1 l2 : list Node) :
  concat (map ids (l1 ++ l2)) = concat (map ids l1) ++ concat (map ids l2).
Proof. by rewrite map_app, concat_app. Qed.

Lemma concat_ids_cons (ch : Node) (l : list Node) :
  concat (map ids (ch :: l)) = ids ch ++ concat (map ids l).
Proof. done. Qed.
(** ** Every call names a destination that exists *)

Lemma Forall_nodes (P : Node → Prop) (d : XDir) (l : list Node) :
  Forall P (nodes (NDir d l)) ↔
  P (NDir d l) ∧ Forall (λ ch, Forall P (nodes ch)) l.
Proof.
  simpl. rewrite Forall_cons. apply and_iff_compat_l.
  induction l as [|ch l IH]; simpl.
  - split; constructor.
  - rewrite Forall_app, Forall_cons, IH. done.
Qed.

Lemma into_made_invoke (i : NodeId) (k : Call) (c : Ctx) :
  into_made c → call_dst k ≠ Some None → into_made (invoke i k c).
Proof.
  unfold into_made. simpl. intros Hc Hk. apply Forall_app. split; [done|].
  by apply Forall_singleton.
Qed.

Lemma into_made_same (c c' : Ctx) :
  calls c' = calls c → into_made c → into_made c'.
Proof. unfold into_made. by intros ->. Qed.

Lemma Read_next_calls (d d' : XDir) (l l' : list Node) (c c' : Ctx)
    (s : option Signal) :
  Directory.Read_next d l c = (c', d', l', s) →
  calls c' = calls c ∧ d_dstUUID d' = d_dstUUID d ∧
  (d_state d' = d_state d ∨ d_state d' = DFinished) ∧
  ∃ x, l' = l ++ x ∧ Forall made x.
Proof.
  unfold Directory.Read_next.
  destruct (d_fstats d) as [|x fs].
  - destruct (d_dstats d) as [|y ds].
    + case_bool_decide as Hl; intros [= <- <- <- <-]; simpl;
        (split_and!; [done|done|auto|]); exists []; by rewrite app_nil_r.
    + intros [= <- <- <- <-]. simpl. split_and!; [done|done|auto|].
      eexists. split; [done|]. apply Forall_singleton. unfold made. simpl.
      apply Forall_singleton. simpl. by intros [|].
  - intros [= <- <- <- <-]. simpl. split_and!; [done|done|auto|].
    eexists. split; [done|]. apply Forall_singleton. unfold made. simpl.
    by apply Forall_singleton.
Qed.

Lemma made_dir_iff (d : XDir) (l : list Node) :
  made (NDir d l) ↔ made_dir (NDir d l) ∧ Forall made l.
Proof. apply Forall_nodes. Qed.

Lemma forEach_map_made (visit : Node → Ctx → Ctx * Node) (l : list Node) :
  Forall (λ ch, ∀ c, into_made c →
                     made (visit ch c).2 ∧ into_made (visit ch c).1) l →
  ∀ c, into_made c →
       Forall made (forEach_map visit l c).2 ∧
       into_made (forEach_map visit l c).1.
Proof.
  induction 1 as [|ch l Hch _ IH]; intros c Hc; simpl; [done|].
  destruct (Hch c Hc) as [H1 H2]. destruct (visit ch c) as [c1 ch1].
  destruct (IH c1 H2) as [H3 H4].
  destruct (forEach_map visit l c1) as [c2 l2]. simpl in *.
  split; [by constructor|done].
Qed.

(** [retry] under a parent that knows its destination. *)
Lemma retry_made (n : Node) :
  ∀ parent c,
    ordered n → made n → into_made c → parent_ok parent n →
    made (Directory.retry parent n c).2 ∧
    into_made (Directory.retry parent n c).1 ∧
    parent_ok parent (Directory.retry parent n c).2.
Proof.
  induction n as [f|d l IH] using Node_ind'; intros parent c Ho Hm Hc Hp;
    [done|].
  apply ordered_dir in Ho as [Hin Hol]. apply made_dir_iff in Hm as [Hd Hl].
  cbn -[ordered].
  assert (l ≠ [] → is_Some (d_dstUUID d)) as Hdst.
  { intros Hne. apply Hd. right. by apply Hin. }
  destruct (forEach_map_made (Directory.retry (Some d)) l) with (c := c)
    as [Hl1 Hc1]; [|done|].
  { rewrite Forall_forall in IH, Hol, Hl. apply Forall_forall.
    intros ch Hch c0 Hc0.
    destruct (IH ch Hch (Some d) c0) as (H1 & H2 & _); try done; auto.
    simpl. apply Hdst. intros ->. by apply elem_of_nil in Hch. }
  destruct (forEach_map (Directory.retry (Some d)) l c) as [c1 l1].
  simpl in Hl1, Hc1. unfold Directory.State_retry.
  destruct (d_state d) eqn:Hs; cbn -[ordered];
    try (split_and!; [apply made_dir_iff; by split|done|
                      destruct parent; exact Hp]).
  (* Conflict: made again, under the parent *)
  destruct parent as [p|]; [|simpl in Hp; by rewrite Hs in Hp].
  split_and!; [|apply into_made_invoke; [done|]|done].
  - apply made_dir_iff. split; [|done]. simpl. by intros [|].
  - simpl. simpl in Hp. destruct Hp as [u ->]. done.
Qed.

Lemma on_dir_made (ev : Event) (parent : option XDir) (d : XDir)
    (l : list Node) (c c' : Ctx) (n' : Node) (s : option Signal) :
  ordered (NDir d l) → made (NDir d l) → into_made c →
  parent_ok parent (NDir d l) →
  on_dir ev parent d l c = (c', n', s) →
  made n' ∧ into_made c' ∧ parent_ok parent n'.
Proof.
  intros Ho Hm Hc Hp. pose proof Ho as Ho'.
  apply ordered_dir in Ho' as [Hin Hol].
  pose proof Hm as Hm'. apply made_dir_iff in Hm' as [Hd Hl].
  unfold on_dir, startable_dir.
  destruct ev; try (by intros [= <- <- <-]).
  - (* Start *)
    destruct parent as [p|]; [|by intros [= <- <- <-]].
    case_bool_decide as Hs; simpl; [|by intros [= <- <- <-]].
    destruct (bool_decide _); [|by intros [= <- <- <-]].
    simpl. rewrite Hs. simpl. intros [= <- <- <-].
    split_and!; [|apply into_made_invoke; [done|]|done].
    + apply made_dir_iff. split; [|done]. simpl. by intros [|].
    + simpl. simpl in Hp. by destruct Hp as [u ->].
  - (* MkdircDone *)
    destruct (d_state d) eqn:Hs; try (by intros [= <- <- <-]).
    assert (l = []) as -> by (apply (in_order_not_read d l Hin); by rewrite Hs).
    unfold Directory.Making_callback. destruct r as [e|uuid].
    + destruct (String.eqb _ _); simpl; intros [= <- <- <-];
        (split_and!; [apply made_dir_iff; split; [simpl; by intros [|]|done]
                     |done|]);
        destruct parent as [p|]; try done; simpl in Hp; by rewrite Hs in Hp.
    + simpl. intros [= <- <- <-].
      split_and!; [apply made_dir_iff; split; [simpl; by eauto|done]
                  |by apply into_made_invoke|].
      destruct parent as [p|]; try done.
  - (* ReaddirDone *)
    destruct (d_state d) eqn:Hs; try (by intros [= <- <- <-]).
    assert (l = []) as -> by (apply (in_order_not_read d l Hin); by rewrite Hs).
    assert (is_Some (d_dstUUID d)) as Hdst by (apply Hd; by left).
    unfold Directory.Reading_callback. destruct r as [e|xstats].
    + simpl. intros [= <- <- <-].
      split_and!; [apply made_dir_iff; split; [simpl; by intros [|]|done]
                  |done|].
      destruct parent as [p|]; done.
    + unfold Directory.State_setState, Directory.construct, Directory.Read_enter.
      match goal with
      | |- context [Directory.Read_next ?d0 ?l0 ?c0] =>
          destruct (Directory.Read_next d0 l0 c0) as [[[c1 d1] l1] s1] eqn:Hn
      end.
      intros [= <- <- <-].
      apply Read_next_calls in Hn as (Hcalls & Hdst1 & Hst1 & x & -> & Hx).
      simpl in *. split_and!.
      * apply made_dir_iff. split; [|done]. simpl. intros _. by rewrite Hdst1.
      * by apply (into_made_same c).
      * destruct parent as [p|]; [done|]. simpl.
        by destruct Hst1 as [-> | ->].
  - (* SetPolicy *)
    unfold Directory.setPolicy.
    set (d0 := if String.eqb type "same"
               then with_d_policy d (policy, snd (d_policy d))
               else with_d_policy d (fst (d_policy d), policy)).
    assert (d_state d0 = d_state d ∧ d_fstats d0 = d_fstats d ∧
            d_dstUUID d0 = d_dstUUID d) as (Hs0 & Hf0 & Hu0)
      by (unfold d0; by destruct (String.eqb _ _)).
    assert (ordered (NDir d0 l)) as Ho0.
    { apply ordered_dir. split; [|done].
      apply (in_order_same_shape d d0 l l); try done. by rewrite Hs0. }
    assert (made (NDir d0 l)) as Hm0.
    { apply made_dir_iff. split; [|done]. simpl. by rewrite Hs0, Hu0. }
    assert (parent_ok parent (NDir d0 l)) as Hp0.
    { destruct parent; [done|]. simpl. by rewrite Hs0. }
    pose proof (retry_made (NDir d0 l) parent c Ho0 Hm0 Hc Hp0) as Hr.
    destruct (Directory.retry parent (NDir d0 l) c) as [c1 n1].
    by intros [= <- <- <-].
  - (* Retry *)
    pose proof (retry_made (NDir d l) parent c Ho Hm Hc Hp) as Hr.
    destruct (Directory.retry parent (NDir d l) c) as [c1 n1].
    by intros [= <- <- <-].
Qed.

Lemma on_file_made (ev : Event) (parent : option XDir) (f f' : XFile)
    (c c' : Ctx) (s : option Signal) :
  into_made c → parent_ok parent (NFile f) →
  on_file ev parent f c = (c', f', s) → into_made c'.
Proof.
  intros Hc Hp. unfold on_file, startable_file.
  destruct ev, parent as [p|]; try (by intros [= <- <- <-]).
  - (* Start *)
    destruct (_ && _); [|by intros [= <- <- <-]].
    intros [= <- <- <-]. apply into_made_invoke.
    + apply (into_made_same c); [|done]. by destruct (f_state f).
    + simpl. simpl in Hp. by destruct Hp as [u ->].
  - (* CpFileDone *)
    case_bool_decide; [|by intros [= <- <- <-]].
    unfold File.Working_callback. destruct err as [e|].
    + destruct (String.eqb _ _); intros [= <- <- <-];
        by apply (into_made_same c).
    + intros [= <- <- <-]. by apply (into_made_same c).
  - (* Resolve *)
    unfold File.resolve, File.State_resolve, File.Conflict_resolve.
    simpl. destruct (f_state f); by intros [= <- <- <-].
Qed.

Lemma made_replace (d : XDir) (mid post : list Node) (ch ch' : Node) :
  made (NDir d (mid ++ ch :: post)) → made ch' →
  made (NDir d (mid ++ ch' :: post)).
Proof.
  rewrite !made_dir_iff, !Forall_app, !Forall_cons. simpl. tauto.
Qed.

(** The listeners of a Directory, when the event reached the child [ch]. *)
Lemma on_child_signal_made (s1 s2 : option Signal) (d d2 : XDir)
    (mid post l2 : list Node) (ch ch' : Node) (c1 c2 : Ctx)
    (parent : option XDir) :
  ordered (NDir d (mid ++ ch :: post)) →
  made (NDir d (mid ++ ch :: post)) → made ch' → into_made c1 →
  parent_ok parent (NDir d (mid ++ ch :: post)) →
  Directory.on_child_signal s1 d mid ch' post c1 = (c2, d2, l2, s2) →
  made (NDir d2 l2) ∧ into_made c2 ∧ parent_ok parent (NDir d2 l2).
Proof.
  intros Ho Hm Hch Hc Hp Hs.
  apply ordered_dir in Ho as [(Hne & _) _].
  assert (d_state d = DRead) as Hread by (apply Hne; by destruct mid).
  pose proof (made_replace d mid post ch ch' Hm Hch) as Hm1.
  apply made_dir_iff in Hm1 as [Hd Hl]. simpl in Hd.
  assert (∀ l c0, Forall made l → calls c0 = calls c1 →
            Directory.Read_next d l c0 = (c2, d2, l2, s2) →
            made (NDir d2 l2) ∧ into_made c2 ∧ parent_ok parent (NDir d2 l2))
    as Hnext.
  { intros l c0 Hl0 Hc0 Hn.
    apply Read_next_calls in Hn as (Hcalls & Hdst & Hst & x & -> & Hx).
    split_and!.
    - apply made_dir_iff. split; [|by apply Forall_app].
      simpl. intros _. rewrite Hdst. apply Hd. by right.
    - apply (into_made_same c1); [congruence|done].
    - destruct parent as [p|]; [done|]. simpl.
      destruct Hst as [-> | ->]; [by rewrite Hread|done]. }
  unfold Directory.on_child_signal in Hs. destruct s1 as [[e|]|].
  - by apply (Hnext _ _ Hl eq_refl).
  - apply (Hnext (mid ++ post) (Directory.destroy ch' c1)); [| |done].
    + rewrite Forall_app, Forall_cons in Hl. rewrite Forall_app. tauto.
    + by rewrite destroy_unregisters.
  - injection Hs as <- <- <- <-. split_and!; [|done|].
    + apply made_dir_iff. by split.
    + destruct parent; [done|]. exact Hp.
Qed.

(** An event delivered anywhere in the tree of a copy. *)
Lemma deliver_made (ev : Event) (id : NodeId) (n : Node) :
  ∀ parent c c' n' s,
    ordered n ∧ made n ∧ into_made c ∧ parent_ok parent n →
    deliver ev id parent n c = Some (c', n', s) →
    made n' ∧ into_made c' ∧ parent_ok parent n'.
Proof.
  apply (deliver_ind ev id
           (λ parent n c, ordered n ∧ made n ∧ into_made c ∧ parent_ok parent n)
           (λ parent n c c' n' s,
              made n' ∧ into_made c' ∧ parent_ok parent n')).
  - intros parent f c c' f' s (_ & _ & Hc & Hp) Hf.
    split_and!; [by apply Forall_singleton|by apply (on_file_made _ _ _ _ _ _ _ Hc Hp Hf)|].
    by destruct parent.
  - intros parent d l c c' n' s (Ho & Hm & Hc & Hp).
    by apply on_dir_made.
  - intros parent d mid ch post c (Ho & Hm & Hc & Hp).
    apply ordered_dir in Ho as [(Hne & _) Hol].
    apply made_dir_iff in Hm as [Hd Hl].
    rewrite Forall_app, Forall_cons in Hol, Hl.
    split_and!; try tauto. simpl. apply Hd. right. apply Hne. by destruct mid.
  - intros parent d mid ch post c c1 ch1 s1 c2 d2 l2 s2 (Ho & Hm & Hc & Hp)
      _ (Hm1 & Hc1 & _).
    by apply (on_child_signal_made s1 s2 d d2 mid post l2 ch ch1 c1 c2).
Qed.

Lemma step_made (ev : Event) (w : World) :
  ordered (root w) ∧ made (root w) ∧ into_made (ctx w) ∧ root_ok (root w) →
  ordered (root (step ev w)) ∧ made (root (step ev w)) ∧
  into_made (ctx (step ev w)) ∧ root_ok (root (step ev w)).
Proof.
  intros (Ho & Hm & Hc & Hp).
  split; [by apply step_ordered|]. unfold step.
  destruct (target ev) as [id|].
  - destruct (deliver ev id None (root w) (ctx w)) as [[[c n] s]|] eqn:Hd;
      [|done].
    by apply deliver_made in Hd.
  - simpl. split_and!; [done| |done].
    apply (into_made_same (ctx w)); [|done]. by rewrite destroy_unregisters.
Qed.

Lemma start_copy_made (file : Policy) (dir : Policy * Policy)
    (srcUUID dstUUID : string) (xstats : list Xstat) :
  let w := start_copy file dir srcUUID dstUUID xstats in
  made (root w) ∧ into_made (ctx w) ∧ root_ok (root w).
Proof.
  unfold start_copy, Directory.new_Directory.
  destruct (fresh _) as [id c0] eqn:Hfresh.
  assert (calls c0 = []) as Hc0 by (by injection Hfresh as <- <-).
  destruct (truthy (Some dstUUID)).
  - unfold Directory.construct, Directory.Read_enter.
    match goal with
    | |- context [Directory.Read_next ?d0 ?l0 ?c0] =>
        destruct (Directory.Read_next d0 l0 c0) as [[[c1 d1] l1] s1] eqn:Hn
    end.
    apply Read_next_calls in Hn as (Hcalls & Hdst & Hst & x & -> & Hx).
    simpl in *. split_and!.
    + apply made_dir_iff. split; [|done]. simpl. intros _. by rewrite Hdst.
    + unfold into_made. rewrite Hcalls, Hc0. constructor.
    + by destruct Hst as [-> | ->].
  - simpl. split_and!; [|unfold into_made; simpl; rewrite Hc0; constructor|done].
    apply made_dir_iff. split; [|done]. simpl. by intros [|].
Qed.

(** X13. In every execution of a copy, no call is made with an undefined
    destination: every [cpFile] and every [mkdirc] names the destination uuid
    of a Directory that was made before (or of the root, which was given one).
    A File is copied, and a subdirectory created, only under a Directory in
    Read, and a Directory is in Read only after [mkdirc] succeeded for it. *)
Theorem calls_name_a_destination (file : Policy) (dir : Policy * Policy)
    (srcUUID dstUUID : string) (xstats : list Xstat) (evs : list Event)
    (i : NodeId) (k : Call) :
  (i, k) ∈ calls (ctx (run evs (start_copy file dir srcUUID dstUUID xstats))) →
  match k with
  | CpFile _ _ _ dst _ | Mkdirc _ dst _ => is_Some dst
  | Readdir _ => True
  end.
Proof.
  assert (∀ w, ordered (root w) ∧ made (root w) ∧ into_made (ctx w) ∧
               root_ok (root w) → into_made (ctx (run evs w))) as Hrun.
  { unfold run. induction evs as [|ev evs IH]; intros w Hw; simpl; [tauto|].
    apply IH. by apply step_made. }
  intros Hin.
  pose proof (Hrun (start_copy file dir srcUUID dstUUID xstats)) as Hc.
  specialize (Hc (conj (start_copy_ordered _ _ _ _ _)
                       (start_copy_made _ _ _ _ _))).
  unfold into_made in Hc. rewrite Forall_forall in Hc.
  specialize (Hc _ Hin).
  simpl in Hc. destruct k as [? ? ? [u|] ?|? [u|] ?|?]; simpl in *; try done;
    by eexists.
Qed.

Lemma calls_name_a_destination_witness :
  let w := run [Start 1] file_and_subdir in
  calls (ctx w) =
    [(1, CpFile "src" "u1" "a" (Some "dst") (Some "skip"))] ∧
  is_Some (Some "dst").
Proof.
  split; [vm_compute; reflexivity|].
  apply (calls_name_a_destination (Some "skip") (None, None) "src" "dst"
           [entry "directory" "u9" "sub"; entry "file" "u1" "a"]
           [Start 1] 1
           (CpFile "src" "u1" "a" (Some "dst") (Some "skip"))).
  vm_compute. apply list_elem_of_here.
Defined.
Lemma copy_one (c : Ctx) (d0 : XDir) (k : NodeId) (u nm : string) :
  d_id d0 ≠ k → (PendingFile, k) ∈ members c →
  let fk := mkXFile k u nm None FPending FPending None in
  let policy := js_or (policies_file c) None in
  let c2 :=
    unindex PendingFile k
      (emit k SigFinish
         (index FinishedFile k
            (unindex WorkingFile k
               (invoke k (CpFile (d_srcUUID d0) u nm (d_dstUUID d0) policy)
                  (index WorkingFile k (unindex PendingFile k c)))))) in
  run [Start k; CpFileDone k None] (mkWorld c (NDir d0 [NFile fk]))
    = let '(c3, d3, l3, _) := Directory.Read_next d0 [] c2 in
      mkWorld c3 (NDir d3 l3).
Proof.
  intros Hk Hin. unfold run. simpl. unfold step at 2. simpl.
  rewrite (bool_decide_eq_false_2 _ Hk).
  rewrite (bool_decide_eq_true_2 (k = k) eq_refl).
  unfold startable_file. simpl.
  rewrite (bool_decide_eq_true_2 _ Hin). simpl.
  unfold step. simpl.
  rewrite (bool_decide_eq_false_2 _ Hk).
  rewrite (bool_decide_eq_true_2 (k = k) eq_refl). simpl.
  unfold File.getPolicy, File.Pending_exit, File.Working_exit. simpl.
  match goal with
  | |- _ = ?rhs =>
      match rhs with
      | context [Directory.Read_next _ _ ?c2] =>
      change (File.destroy _ (File.Finished_enter _ _)) with c2;
      by destruct (Directory.Read_next d0 [] c2) as [[[c3 d3] l3] s3]
      end
  end.
Qed.

Lemma run_app (evs1 evs2 : list Event) (w : World) :
  run (evs1 ++ evs2) w = run evs2 (run evs1 w).
Proof. unfold run. apply foldl_app. Qed.

Lemma copy_each_S (k n : nat) :
  copy_each k (S n) = [Start k; CpFileDone k None] ++ copy_each (S k) n.
Proof. done. Qed.

(** A Directory in Read with nothing but files left, one File waiting. *)
Lemma drain (todo : list Xstat) :
  ∀ c x k d0,
    d_state d0 = DRead → d_fstats d0 = todo → d_dstats d0 = [] →
    d_id d0 < k → next_id c = S k → (PendingFile, k) ∈ members c →
    let fk := mkXFile k (xs_uuid x) (xs_name x) None FPending FPending None in
    let w := run (copy_each k (S (length todo)))
               (mkWorld c (NDir d0 [NFile fk])) in
    ∃ d', root w = NDir d' [] ∧ d_id d' = d_id d0 ∧ d_state d' = DFinished ∧
          calls (ctx w) =
            calls c ++
            cpFile_calls (d_srcUUID d0) (d_dstUUID d0)
              (js_or (policies_file c) None) k (x :: todo) ∧
          emits (ctx w) =
            emits c ++ ((λ i, (i, SigFinish)) <$> seq k (S (length todo)))
            ++ [(d_id d0, SigFinish)].
Proof.
  induction todo as [|y todo IH]; intros c x k d0 Hs Hf Hd Hlt Hnext Hin;
    cbn zeta; rewrite copy_each_S, run_app, copy_one by (done || lia);
    unfold Directory.Read_next; rewrite Hf, ?Hd.
  - simpl. eexists. split_and!; try done. by rewrite <- app_assoc.
  - cbn -[run copy_each]. rewrite Hnext.
    match goal with
    | |- context [run _ (mkWorld ?c3 (NDir ?d3 _))] =>
        destruct (IH c3 y (S k) d3) as (d' & Hroot & Hid & Hst & Hcalls & Hemits);
          [done|done|done|simpl; lia|done|simpl; set_solver|]
    end.
    exists d'. split_and!; try done.
    + rewrite Hcalls. simpl. by rewrite <- app_assoc.
    + rewrite Hemits. simpl. by rewrite <- !app_assoc.
Qed.

Lemma filter_all (P : Xstat → bool) (xs : list Xstat) :
  Forall (λ x, P x = true) xs → List.filter P xs = xs.
Proof.
  induction 1 as [|x xs Hx _ IH]; [done|]. simpl. by rewrite Hx, IH.
Qed.

Lemma filter_none (P : Xstat → bool) (xs : list Xstat) :
  Forall (λ x, P x = false) xs → List.filter P xs = [].
Proof.
  induction 1 as [|x xs Hx _ IH]; [done|]. simpl. by rewrite Hx, IH.
Qed.

(** X14. A source directory that holds files only is copied completely: when
    each File, in turn, is started and its [cpFile] call succeeds, the root
    Directory ends Finished without children; [cpFile] was called once for
    every entry, in the order of the listing, with the destination of the root
    and the default file policy; and every File emitted [finish] before the
    root did. With an empty listing the root is Finished from the start. *)
Theorem files_only_copy_completes (file : Policy) (dir : Policy * Policy)
    (src dst : string) (xs : list Xstat) :
  dst ≠ "" → Forall (λ x, xs_type x = "file") xs →
  let w := run (copy_each 1 (length xs)) (start_copy file dir src dst xs) in
  dir_state 0 (root w) = Some DFinished ∧
  children_of (root w) = [] ∧
  calls (ctx w) = cpFile_calls src (Some dst) (js_or file None) 1 xs ∧
  emits (ctx w) =
    ((λ i, (i, SigFinish)) <$> seq 1 (length xs)) ++ [(0, SigFinish)].
Proof.
  intros Hdst Hxs. cbn zeta.
  assert (start_copy file dir src dst xs =
          let c0 := index ReadDir 0 (fresh (new_Ctx file dir)).2 in
          let d0 := mkXDir 0 src (Some dst) (None, None) DRead xs [] in
          let '(c1, d1, l1, _) := Directory.Read_next d0 [] c0 in
          mkWorld c1 (NDir d1 l1)) as ->.
  { unfold start_copy, Directory.new_Directory, truthy. simpl.
    destruct (String.eqb dst "") eqn:He; [by apply String.eqb_eq in He|].
    simpl. unfold Directory.Read_enter. simpl.
    rewrite (filter_all (Directory.is_type "file") xs),
      (filter_none (Directory.is_type "directory") xs).
    - by destruct (Directory.Read_next _ _ _) as [[[c1 d1] l1] s1].
    - apply Forall_forall. intros x Hx. rewrite Forall_forall in Hxs.
      unfold Directory.is_type. by rewrite (Hxs x Hx).
    - apply Forall_forall. intros x Hx. rewrite Forall_forall in Hxs.
      unfold Directory.is_type. by rewrite (Hxs x Hx). }
  destruct xs as [|x todo]; [done|].
  cbn -[run copy_each].
  match goal with
  | |- context [run _ (mkWorld ?c3 (NDir ?d3 _))] =>
      destruct (drain todo c3 x 1 d3)
        as (d' & Hroot & Hid & Hst & Hcalls & Hemits);
        [done|done|done|simpl; lia|done|simpl; set_solver|]
  end.
  cbn zeta in Hroot, Hcalls, Hemits. rewrite Hroot, Hcalls, Hemits.
  unfold dir_state. simpl in *. rewrite Hid. simpl. by rewrite Hst.
Qed.

Lemma files_only_copy_completes_witness :
  let w := run (copy_each 1 3) three_files in
  dir_state 0 (root w) = Some DFinished ∧
  children_of (root w) = [] ∧
  calls (ctx w) =
    [(1, CpFile "src" "u1" "a" (Some "dst") (Some "skip"));
     (2, CpFile "src" "u2" "b" (Some "dst") (Some "skip"));
     (3, CpFile "src" "u3" "c" (Some "dst") (Some "skip"))] ∧
  emits (ctx w) =
    [(1, SigFinish); (2, SigFinish); (3, SigFinish); (0, SigFinish)].
Proof.
  apply (files_only_copy_completes (Some "skip") (None, None) "src" "dst"
           [entry "file" "u1" "a"; entry "file" "u2" "b"; entry "file" "u3" "c"]).
  - discriminate.
  - repeat constructor.
Defined.
(** ** The books of a copy *)

Lemma elem_of_ids (m n : Node) : m ∈ nodes n → node_id m ∈ ids n.
Proof. intros H. unfold ids. apply list_elem_of_fmap. by exists m. Qed.

Lemma elem_of_ids_inv (i : NodeId) (n : Node) :
  i ∈ ids n → ∃ m, m ∈ nodes n ∧ node_id m = i.
Proof.
  unfold ids. intros H. apply list_elem_of_fmap in H as (m & -> & Hm).
  by exists m.
Qed.

Lemma node_id_in_ids (n : Node) : node_id n ∈ ids n.
Proof. destruct (ids_head n) as [t ->]. by left. Qed.

Lemma elem_of_concat_ids (i : NodeId) (l : list Node) :
  i ∈ concat (map ids l) ↔ ∃ ch, ch ∈ l ∧ i ∈ ids ch.
Proof.
  induction l as [|x l IH]; simpl.
  - split; [by intros ?%elem_of_nil|]. intros (ch & H & _).
    by apply elem_of_nil in H.
  - rewrite elem_of_app, IH. split.
    + intros [H|(ch & H1 & H2)]; [exists x; split; [by left|done]|].
      exists ch. split; [by right|done].
    + intros (ch & [-> |H1]%elem_of_cons & H2); [by left|right; by exists ch].
Qed.

Lemma registered_same (s : bool) (c c' : Ctx) (m : Node) :
  (∀ b, (b, node_id m) ∈ members c' ↔ (b, node_id m) ∈ members c) →
  registered s c m → registered s c' m.
Proof.
  intros H [H1 H2]. split.
  - intros b Hb. apply H1. by apply H.
  - intros Hs. apply H. by apply H2.
Qed.

Lemma registered_tree_same (s : bool) (c c' : Ctx) (n : Node) :
  (∀ b i, i ∈ ids n → ((b, i) ∈ members c' ↔ (b, i) ∈ members c)) →
  Forall (registered s c) (nodes n) → Forall (registered s c') (nodes n).
Proof.
  intros H. rewrite !Forall_forall. intros Hn m Hm.
  apply (registered_same s c); [|by apply Hn].
  intros b. apply H. by apply elem_of_ids.
Qed.

Lemma unregistered_ids (n : Node) :
  ∀ b i, (b, i) ∈ unregistered n → i ∈ ids n.
Proof.
  induction n as [f|d l IH] using Node_ind'; intros b i; simpl.
  - destruct (f_state f); rewrite elem_of_singleton; intros [= _ ->]; by left.
  - rewrite ids_dir, elem_of_union. intros [H|H].
    + right. rewrite elem_of_union_list in H. destruct H as (X & HX & Hi).
      apply list_elem_of_fmap in HX as (ch & -> & Hch).
      apply elem_of_concat_ids. exists ch. split; [done|].
      rewrite Forall_forall in IH. by apply (IH ch Hch b).
    + destruct (d_state d); apply elem_of_singleton in H as [= _ ->]; by left.
Qed.

(** [destroy] changes no registration outside the tree it is called on. *)
Lemma destroy_frame (n : Node) (c : Ctx) :
  next_id (Directory.destroy n c) = next_id c ∧
  (∀ b i, (b, i) ∈ members (Directory.destroy n c) → (b, i) ∈ members c) ∧
  (∀ b i, i ∉ ids n →
          ((b, i) ∈ members (Directory.destroy n c) ↔ (b, i) ∈ members c)).
Proof.
  rewrite destroy_unregisters. simpl. split_and!; [done| |].
  - intros b i. set_solver.
  - intros b i Hi. rewrite elem_of_difference. split; [tauto|].
    intros H. split; [done|]. intros Hu. by apply Hi, (unregistered_ids n b).
Qed.

Lemma NoDup_replace (a x x' b : list NodeId) :
  NoDup (a ++ x ++ b) → NoDup x' →
  (∀ i, i ∈ x' → i ∈ x ∨ ((i ∉ a) ∧ (i ∉ b))) →
  NoDup (a ++ x' ++ b).
Proof.
  rewrite !NoDup_app. intros (Ha & Hax & Hx & Hxb & Hb) Hx' Hsub.
  split_and!; try done.
  - intros i Hi. rewrite elem_of_app. intros [H|H].
    + destruct (Hsub i H) as [H'|[H' _]]; [|done].
      apply (Hax i Hi). apply elem_of_app. by left.
    + apply (Hax i Hi). apply elem_of_app. by right.
  - intros i Hi. destruct (Hsub i Hi) as [H'|[_ H']]; [by apply Hxb|done].
Qed.

Lemma accounted_dir (s : bool) (c : Ctx) (d : XDir) (l : list Node) :
  accounted s c (NDir d l) ↔
  NoDup (d_id d :: concat (map ids l)) ∧
  Forall (λ i, i < next_id c) (d_id d :: concat (map ids l)) ∧
  (∀ b i, (b, i) ∈ members c → i < next_id c) ∧
  registered s c (NDir d l) ∧
  Forall (λ ch, Forall (registered s c) (nodes ch)) l ∧
  Forall (λ ch, Forall state_kept (nodes ch)) l.
Proof.
  unfold accounted, numbered. rewrite ids_dir, !Forall_nodes. simpl. tauto.
Qed.

Lemma registered_dir (s : bool) (c : Ctx) (d d' : XDir) (l l' : list Node) :
  d_id d' = d_id d → d_state d' = d_state d →
  registered s c (NDir d l) → registered s c (NDir d' l').
Proof. unfold registered. simpl. by intros -> ->. Qed.

Lemma kept_refl (s : bool) (n : Node) (c : Ctx) :
  accounted s c n → kept s n c c n.
Proof.
  intros Ha. split_and!; try done.
  intros i Hi. split; [by left|].
  destruct Ha as ((_ & Hlt) & _). rewrite Forall_forall in Hlt. by apply Hlt.
Qed.

Lemma kept_trans (s : bool) (n n1 n2 : Node) (c c1 c2 : Ctx) :
  kept s n c c1 n1 → kept s n1 c1 c2 n2 → kept s n c c2 n2.
Proof.
  intros (Hn1 & Hid1 & Hi1 & Hf1 & Ha1) (Hn2 & Hid2 & Hi2 & Hf2 & Ha2).
  split_and!; [lia|congruence| | |done].
  - intros i Hi. destruct (Hi2 i Hi) as [[H|H] Hlt]; split; try done.
    + destruct (Hi1 i H) as [H' _]. done.
    + right. lia.
  - intros b i Hi Hlt. rewrite <- (Hf1 b i Hi Hlt). apply Hf2; [|lia].
    intros H. destruct (Hi1 i H) as [[H'|H'] _]; [done|lia].
Qed.

(** A node moves from the bucket of its state to the bucket of its new
    state; its children stay. *)
Lemma kept_move (s : bool) (n n' : Node) (c c' : Ctx) :
  accounted s c n →
  node_id n' = node_id n → tail (nodes n') = tail (nodes n) →
  state_kept n' →
  next_id c' = next_id c →
  members c' =
    {[ (bucket n', node_id n) ]} ∪ (members c ∖ {[ (bucket n, node_id n) ]}) →
  kept s n c c' n'.
Proof.
  intros ((Hnd & Hlt) & Hbelow & Hreg & Hst) Hid Htl Hst' Hnext Hmem.
  assert (nodes n = n :: tail (nodes n)) as Hn by (by destruct n).
  assert (nodes n' = n' :: tail (nodes n)) as Hn'
    by (rewrite <- Htl; by destruct n').
  assert (ids n' = ids n) as Hids
    by (unfold ids; rewrite Hn, Hn'; simpl; by rewrite Hid).
  rewrite Forall_forall in Hlt.
  assert (∀ b i, i ≠ node_id n → ((b, i) ∈ members c' ↔ (b, i) ∈ members c))
    as Hother.
  { intros b i Hi. rewrite Hmem. set_solver. }
  split_and!; [lia|done| | |].
  - intros i Hi. rewrite Hids in Hi. split; [by left|].
    rewrite Hnext. by apply Hlt.
  - intros b i Hi _. apply Hother. intros ->. apply Hi, node_id_in_ids.
  - split_and!.
    + split; [by rewrite Hids|]. rewrite Hids, Hnext. by apply Forall_forall.
    + intros b i. rewrite Hmem, Hnext. rewrite elem_of_union, elem_of_singleton.
      intros [[= _ ->]|H]; [apply Hlt, node_id_in_ids|].
      apply (Hbelow b). set_solver.
    + rewrite Hn', Forall_cons. rewrite Hn, !Forall_cons in Hreg, Hst.
      destruct Hreg as [[Hreg1 Hreg2] Hreg]. split.
      * split; rewrite Hid.
        -- intros b. rewrite Hmem, elem_of_union, elem_of_singleton.
           intros [[= -> ]|H]; [done|].
           apply elem_of_difference in H as [H1 H2].
           rewrite (Hreg1 b H1) in H2. by apply not_elem_of_singleton in H2.
        -- intros _. rewrite Hmem. set_solver.
      * assert (NoDup (node_id n :: map node_id (tail (nodes n)))) as Hnd'
          by (unfold ids in Hnd; by rewrite Hn in Hnd).
        apply NoDup_cons in Hnd' as [Hnotin _].
        rewrite Forall_forall in Hreg. apply Forall_forall. intros m Hm.
        apply (registered_same s c); [|by apply Hreg].
        intros b. apply Hother. intros Heq. apply Hnotin.
        apply list_elem_of_fmap. by exists m.
    + rewrite Hn', Forall_cons. rewrite Hn, Forall_cons in Hst. tauto.
Qed.

(** A node changes but neither its state nor its children, and the context
    keeps its registrations. *)
Lemma kept_relabel (s : bool) (n n' : Node) (c c' : Ctx) :
  accounted s c n →
  node_id n' = node_id n → tail (nodes n') = tail (nodes n) →
  bucket n' = bucket n → state_kept n' →
  next_id c' = next_id c → members c' = members c →
  kept s n c c' n'.
Proof.
  intros ((Hnd & Hlt) & Hbelow & Hreg & Hst) Hid Htl Hb Hst' Hnext Hmem.
  assert (nodes n = n :: tail (nodes n)) as Hn by (by destruct n).
  assert (nodes n' = n' :: tail (nodes n)) as Hn'
    by (rewrite <- Htl; by destruct n').
  assert (ids n' = ids n) as Hids
    by (unfold ids; rewrite Hn, Hn'; simpl; by rewrite Hid).
  rewrite Forall_forall in Hlt.
  split_and!; [lia|done| | |].
  - intros i Hi. rewrite Hids in Hi. split; [by left|].
    rewrite Hnext. by apply Hlt.
  - intros b i _ _. by rewrite Hmem.
  - unfold accounted, numbered. rewrite Hids, Hnext, Hmem.
    split_and!; try done; [by apply Forall_forall| |].
    + rewrite Hn', Forall_cons. rewrite Hn, Forall_cons in Hreg.
      destruct Hreg as [Hreg1 Hreg]. split.
      * unfold registered in *. rewrite Hmem, Hid, Hb. done.
      * apply (Forall_impl _ _ _ Hreg). intros m. unfold registered.
        by rewrite Hmem.
    + rewrite Hn', Forall_cons. rewrite Hn, Forall_cons in Hst. tauto.
Qed.

Lemma accounted_lt (s : bool) (c : Ctx) (n : Node) (i : NodeId) :
  accounted s c n → i ∈ ids n → i < next_id c.
Proof.
  intros ((_ & Hlt) & _) Hi. rewrite Forall_forall in Hlt. by apply Hlt.
Qed.

(** A Directory gets one more child: a leaf, numbered and registered at
    this moment. *)
Lemma kept_spawn (s : bool) (d d' : XDir) (l : list Node) (x : Node)
    (c c' : Ctx) :
  accounted s c (NDir d l) →
  d_id d' = d_id d → d_state d' = d_state d →
  nodes x = [x] → node_id x = next_id c → state_kept x →
  next_id c' = S (next_id c) →
  members c' = {[ (bucket x, next_id c) ]} ∪ members c →
  kept s (NDir d l) c c' (NDir d' (l ++ [x])).
Proof.
  intros Ha Hid Hst Hleaf Hx Hkept Hnext Hmem.
  apply accounted_dir in Ha as (Hnd & Hall & Hbelow & Hreg & Hregl & Hstl).
  assert (ids x = [next_id c]) as Hidx by (unfold ids; by rewrite Hleaf, <- Hx).
  assert (ids (NDir d' (l ++ [x])) = ids (NDir d l) ++ [next_id c]) as Hids.
  { rewrite !ids_dir, concat_ids_app. simpl. rewrite Hidx, app_nil_r.
    by rewrite Hid. }
  assert (∀ b i, i < next_id c → ((b, i) ∈ members c' ↔ (b, i) ∈ members c))
    as Hold.
  { intros b i Hi. rewrite Hmem, elem_of_union, elem_of_singleton.
    split; [|by right]. intros [[= _ ->]|H]; [lia|done]. }
  rewrite <- ids_dir in Hall, Hnd. rewrite Forall_forall in Hall.
  split_and!; [lia|done| | |].
  - intros i. rewrite Hids, elem_of_app, list_elem_of_singleton.
    intros [Hi| ->]; [split; [by left|]|split; [right|]; lia].
    specialize (Hall i Hi). lia.
  - intros b i _ Hi. by apply Hold.
  - apply accounted_dir. rewrite <- ids_dir, Hids.
    split_and!.
    + apply NoDup_app. split_and!; [done| |apply NoDup_singleton].
      intros i Hi. rewrite list_elem_of_singleton. intros ->.
      specialize (Hall _ Hi). lia.
    + apply Forall_app. split.
      * apply Forall_forall. intros i Hi. specialize (Hall i Hi). lia.
      * apply Forall_singleton. lia.
    + intros b i. rewrite Hmem, elem_of_union, elem_of_singleton.
      intros [[= _ ->]|H]; [lia|]. specialize (Hbelow b i H). lia.
    + apply (registered_dir s c' d d' l); [done|done|].
      apply (registered_same s c); [|done]. intros b. apply Hold.
      apply Hall. rewrite ids_dir. by left.
    + apply Forall_app. split.
      * rewrite Forall_forall in Hregl. apply Forall_forall. intros ch Hch.
        apply (registered_tree_same s c); [|by apply Hregl].
        intros b i Hi. apply Hold, Hall. rewrite ids_dir. right.
        apply elem_of_concat_ids. by exists ch.
      * apply Forall_singleton. rewrite Hleaf. apply Forall_singleton.
        split; rewrite Hx.
        -- intros b. rewrite Hmem, elem_of_union, elem_of_singleton.
           intros [[= ->]|H]; [done|]. specialize (Hbelow b _ H). lia.
        -- intros _. rewrite Hmem. set_solver.
    + apply Forall_app. split; [done|]. apply Forall_singleton.
      rewrite Hleaf. by apply Forall_singleton.
Qed.

Lemma accounted_child (s : bool) (c : Ctx) (d : XDir) (mid post : list Node)
    (ch : Node) :
  accounted s c (NDir d (mid ++ ch :: post)) → accounted s c ch.
Proof.
  intros (Hnd & Hall & Hbelow & Hreg & Hregl & Hstl)%accounted_dir.
  rewrite concat_ids_app, concat_ids_cons in Hnd, Hall.
  rewrite !Forall_app, !Forall_cons in Hregl, Hstl.
  unfold accounted, numbered. split_and!; try tauto.
  - apply NoDup_cons in Hnd as [_ Hnd].
    apply NoDup_app in Hnd as (_ & _ & Hnd).
    by apply NoDup_app in Hnd as (Hnd & _).
  - apply Forall_cons in Hall as [_ Hall].
    apply Forall_app in Hall as [_ Hall].
    by apply Forall_app in Hall as [Hall _].
Qed.

(** What happened in a child, seen from its Directory. *)
Lemma kept_child (s : bool) (d : XDir) (mid post : list Node) (ch ch1 : Node)
    (c c1 : Ctx) :
  accounted s c (NDir d (mid ++ ch :: post)) →
  kept s ch c c1 ch1 →
  kept s (NDir d (mid ++ ch :: post)) c c1 (NDir d (mid ++ ch1 :: post)).
Proof.
  intros Ha (Hnext & Hid & Hi & Hf & Ha1).
  pose proof (λ i, accounted_lt s c _ i Ha) as Hlt.
  apply accounted_dir in Ha as (Hnd & Hall & Hbelow & Hreg & Hregl & Hstl).
  destruct Ha1 as ((Hnd1 & Hlt1) & Hbelow1 & Hreg1 & Hst1).
  rewrite Forall_forall in Hlt1.
  rewrite !Forall_app, !Forall_cons in Hregl, Hstl.
  destruct Hregl as (Hregm & Hregch & Hregp), Hstl as (Hstm & Hstch & Hstp).
  rewrite concat_ids_app, concat_ids_cons in Hnd.
  assert (∀ i, i ∈ ids (NDir d (mid ++ ch :: post)) → i ∉ ids ch →
               ∀ b, (b, i) ∈ members c1 ↔ (b, i) ∈ members c) as Hout.
  { intros i Hin Hnot b. apply Hf; [done|]. by apply Hlt. }
  assert (∀ i, i ∈ d_id d :: concat (map ids mid) ++ concat (map ids post) →
               (i ∉ ids ch) ∧ i ∈ ids (NDir d (mid ++ ch :: post))) as Hsib.
  { intros i Hin. rewrite ids_dir, concat_ids_app, concat_ids_cons.
    apply NoDup_cons in Hnd as [Hd Hnd].
    apply NoDup_app in Hnd as (_ & Hm & Hnd).
    apply NoDup_app in Hnd as (_ & Hc & _).
    apply elem_of_cons in Hin as [-> |Hin].
    - split; [|by left]. intros H. apply Hd. rewrite !elem_of_app. auto.
    - apply elem_of_app in Hin as [Hin|Hin].
      + split; [|right; rewrite !elem_of_app; auto].
        intros H. apply (Hm i Hin). rewrite elem_of_app. auto.
      + split; [|right; rewrite !elem_of_app; auto].
        intros H. by apply (Hc i H). }
  split_and!; [done|done| | |].
  - intros i. rewrite !ids_dir, !concat_ids_app, !concat_ids_cons.
    rewrite !elem_of_cons, !elem_of_app.
    intros [-> |[H|[H|H]]].
    + split; [by left; left|]. specialize (Hlt (d_id d)).
      rewrite ids_dir in Hlt. specialize (Hlt ltac:(by left)). lia.
    + split; [left; right; by left|].
      assert (i < next_id c); [|lia]. apply Hlt.
      rewrite ids_dir, concat_ids_app, elem_of_cons, elem_of_app. auto.
    + destruct (Hi i H) as [[H'|H'] Hlt']; (split; [|done]); [|by right].
      left. right. right. by left.
    + split; [left; right; right; by right|].
      assert (i < next_id c); [|lia]. apply Hlt.
      rewrite ids_dir, concat_ids_app, concat_ids_cons, elem_of_cons,
        !elem_of_app. auto.
  - intros b i Hnot Hlti. apply Hf; [|done]. intros H. apply Hnot.
    rewrite ids_dir, concat_ids_app, concat_ids_cons, elem_of_cons,
      !elem_of_app. auto.
  - apply accounted_dir. rewrite concat_ids_app, concat_ids_cons.
    split_and!.
    + rewrite app_comm_cons. rewrite app_comm_cons in Hnd.
      apply (NoDup_replace _ (ids ch)); [done|done|].
      intros i Hi'. destruct (Hi i Hi') as [[H|H] _]; [by left|right].
      assert (∀ j, j ∈ ids (NDir d (mid ++ ch :: post)) → j ≠ i) as Hne.
      { intros j Hj ->. specialize (Hlt _ Hj). lia. }
      split.
      * intros Hin. apply (Hne i); [|done].
        rewrite ids_dir, concat_ids_app, app_comm_cons, elem_of_app. auto.
      * intros Hin. apply (Hne i); [|done].
        rewrite ids_dir, concat_ids_app, concat_ids_cons, elem_of_cons,
          !elem_of_app. auto.
    + apply Forall_forall. intros i.
      rewrite elem_of_cons, !elem_of_app. intros [-> |[H|[H|H]]].
      * specialize (Hlt (d_id d)). rewrite ids_dir in Hlt.
        specialize (Hlt ltac:(by left)). lia.
      * assert (i < next_id c); [|lia]. apply Hlt.
        rewrite ids_dir, concat_ids_app, elem_of_cons, elem_of_app. auto.
      * by apply Hlt1.
      * assert (i < next_id c); [|lia]. apply Hlt.
        rewrite ids_dir, concat_ids_app, concat_ids_cons, elem_of_cons,
          !elem_of_app. auto.
    + done.
    + apply (registered_dir s c1 d d (mid ++ ch :: post)); [done|done|].
      apply (registered_same s c); [|done]. intros b.
      destruct (Hsib (d_id d)) as [H1 H2]; [by left|]. by apply Hout.
    + rewrite !Forall_app, !Forall_cons. split_and!; [|done|].
      * rewrite Forall_forall in Hregm. apply Forall_forall. intros x Hx.
        apply (registered_tree_same s c); [|by apply Hregm].
        intros b i Hix. destruct (Hsib i) as [H1 H2]; [|by apply Hout].
        right. apply elem_of_app. left. apply elem_of_concat_ids. by exists x.
      * rewrite Forall_forall in Hregp. apply Forall_forall. intros x Hx.
        apply (registered_tree_same s c); [|by apply Hregp].
        intros b i Hix. destruct (Hsib i) as [H1 H2]; [|by apply Hout].
        right. apply elem_of_app. right. apply elem_of_concat_ids. by exists x.
    + rewrite !Forall_app, !Forall_cons. done.
Qed.

(** A child that finished is destroyed and taken out of the list. *)
Lemma kept_remove (s : bool) (d : XDir) (mid post : list Node) (ch : Node)
    (c : Ctx) :
  accounted s c (NDir d (mid ++ ch :: post)) →
  kept s (NDir d (mid ++ ch :: post)) c (Directory.destroy ch c)
    (NDir d (mid ++ post)).
Proof.
  intros Ha. pose proof (λ i, accounted_lt s c _ i Ha) as Hlt.
  destruct (destroy_frame ch c) as (Hnext & Hsub & Hsame).
  apply accounted_dir in Ha as (Hnd & Hall & Hbelow & Hreg & Hregl & Hstl).
  rewrite !Forall_app, !Forall_cons in Hregl, Hstl.
  destruct Hregl as (Hregm & Hregch & Hregp), Hstl as (Hstm & Hstch & Hstp).
  rewrite concat_ids_app, concat_ids_cons in Hnd, Hall.
  assert (∀ i, i ∈ d_id d :: concat (map ids mid) ++ concat (map ids post) →
               (i ∉ ids ch) ∧ i ∈ ids (NDir d (mid ++ ch :: post))) as Hsib.
  { intros i Hin. rewrite ids_dir, concat_ids_app, concat_ids_cons.
    apply NoDup_cons in Hnd as [Hd Hnd].
    apply NoDup_app in Hnd as (_ & Hm & Hnd).
    apply NoDup_app in Hnd as (_ & Hc & _).
    apply elem_of_cons in Hin as [-> |Hin].
    - split; [|by left]. intros H. apply Hd. rewrite !elem_of_app. auto.
    - apply elem_of_app in Hin as [Hin|Hin].
      + split; [|right; rewrite !elem_of_app; auto].
        intros H. apply (Hm i Hin). rewrite elem_of_app. auto.
      + split; [|right; rewrite !elem_of_app; auto].
        intros H. by apply (Hc i H). }
  split_and!; [lia|done| | |].
  - intros i. rewrite ids_dir, concat_ids_app. intros Hi.
    destruct (Hsib i Hi) as [_ H]. split; [by left|].
    rewrite Hnext. by apply Hlt.
  - intros b i Hnot _. apply Hsame. intros H. apply Hnot.
    rewrite ids_dir, concat_ids_app, concat_ids_cons, elem_of_cons,
      !elem_of_app. auto.
  - apply accounted_dir. rewrite concat_ids_app, Hnext. split_and!.
    + rewrite app_comm_cons. rewrite app_comm_cons in Hnd.
      apply NoDup_app in Hnd as (H1 & H2 & H3).
      apply NoDup_app in H3 as (_ & _ & H3).
      apply NoDup_app. split_and!; [done| |done].
      intros i Hi Hp. apply (H2 i Hi). apply elem_of_app. by right.
    + rewrite app_comm_cons in Hall. rewrite app_comm_cons.
      apply Forall_app in Hall as [H1 H2]. apply Forall_app in H2 as [_ H2].
      by apply Forall_app.
    + intros b i H. apply (Hbelow b). by apply Hsub.
    + apply (registered_dir s _ d d (mid ++ ch :: post)); [done|done|].
      apply (registered_same s c); [|done]. intros b.
      destruct (Hsib (d_id d)) as [H1 H2]; [by left|]. by apply Hsame.
    + rewrite !Forall_app. split.
      * rewrite Forall_forall in Hregm. apply Forall_forall. intros x Hx.
        apply (registered_tree_same s c); [|by apply Hregm].
        intros b i Hix. destruct (Hsib i) as [H1 H2]; [|by apply Hsame].
        right. apply elem_of_app. left. apply elem_of_concat_ids. by exists x.
      * rewrite Forall_forall in Hregp. apply Forall_forall. intros x Hx.
        apply (registered_tree_same s c); [|by apply Hregp].
        intros b i Hix. destruct (Hsib i) as [H1 H2]; [|by apply Hsame].
        right. apply elem_of_app. right. apply elem_of_concat_ids. by exists x.
    + rewrite !Forall_app. done.
Qed.

(** [Read.next] keeps the books. *)
Lemma Read_next_kept (s : bool) (d d' : XDir) (l l' : list Node) (c c' : Ctx)
    (sig : option Signal) :
  accounted s c (NDir d l) → d_state d = DRead →
  Directory.Read_next d l c = (c', d', l', sig) →
  kept s (NDir d l) c c' (NDir d' l').
Proof.
  intros Ha Hs. unfold Directory.Read_next.
  destruct (d_fstats d) as [|x fs].
  - destruct (d_dstats d) as [|y ds].
    + case_bool_decide as Hl; intros [= <- <- <- <-].
      * apply kept_move; try done. simpl. by rewrite Hs.
      * by apply kept_refl.
    + intros [= <- <- <- <-]. by apply kept_spawn.
  - intros [= <- <- <- <-]. by apply kept_spawn.
Qed.

(** An event at a File keeps the books. *)
Lemma on_file_kept (s : bool) (ev : Event) (parent : option XDir)
    (f f' : XFile) (c c' : Ctx) (sig : option Signal) :
  accounted s c (NFile f) →
  on_file ev parent f c = (c', f', sig) →
  kept s (NFile f) c c' (NFile f').
Proof.
  intros Ha.
  assert (f_state f = FPending) as Hst
    by (destruct Ha as (_ & _ & _ & H); exact (List.Forall_inv H)).
  unfold on_file, startable_file.
  destruct ev, parent as [p|];
    try (intros [= <- <- <-]; by apply kept_refl).
  - (* Start *)
    case_bool_decide as Hl; simpl; [|intros [= <- <- <-]; by apply kept_refl].
    case_bool_decide as Hin; [|intros [= <- <- <-]; by apply kept_refl].
    unfold File.setState. rewrite Hst. intros [= <- <- <-].
    apply kept_move; try done. simpl. by rewrite Hl.
  - (* CpFileDone *)
    case_bool_decide as Hl; [|intros [= <- <- <-]; by apply kept_refl].
    unfold File.Working_callback. destruct err as [e|].
    + destruct (String.eqb _ _); intros [= <- <- <-];
        (apply kept_move; try done); simpl; by rewrite Hl.
    + intros [= <- <- <-]. apply kept_move; try done. simpl. by rewrite Hl.
  - (* FileSetPolicy *)
    intros [= <- <- <-]. by apply kept_relabel.
  - intros [= <- <- <-]. by apply kept_relabel.
  - (* Resolve *)
    unfold File.resolve. rewrite Hst. simpl.
    intros [= <- <- <-]. by apply kept_refl.
Qed.

Lemma kept_accounted (s : bool) (n n' : Node) (c c' : Ctx) :
  kept s n c c' n' → accounted s c' n'.
Proof. by intros (_ & _ & _ & _ & H). Qed.

Lemma retry_children_kept (s : bool) (d : XDir) (l : list Node) :
  Forall (λ ch, ∀ parent c, accounted s c ch →
                  kept s ch c (Directory.retry parent ch c).1
                    (Directory.retry parent ch c).2) l →
  ∀ pre c,
    accounted s c (NDir d (pre ++ l)) →
    kept s (NDir d (pre ++ l)) c
      (forEach_map (Directory.retry (Some d)) l c).1
      (NDir d (pre ++ (forEach_map (Directory.retry (Some d)) l c).2)).
Proof.
  induction 1 as [|ch l Hch _ IH]; intros pre c Ha; simpl.
  - by apply kept_refl.
  - specialize (Hch (Some d) c (accounted_child s c d pre l ch Ha)).
    destruct (Directory.retry (Some d) ch c) as [c1 ch1]. simpl in Hch.
    pose proof (kept_child s d pre l ch ch1 c c1 Ha Hch) as Hk.
    pose proof (kept_accounted _ _ _ _ _ Hk) as Ha1.
    specialize (IH (pre ++ [ch1]) c1). rewrite <- app_assoc in IH.
    specialize (IH Ha1).
    destruct (forEach_map (Directory.retry (Some d)) l c1) as [c2 l2].
    simpl in *. rewrite <- app_assoc in IH. by apply (kept_trans s _ _ _ _ _ _ Hk).
Qed.

(** [retry] keeps the books. *)
Lemma retry_kept (s : bool) (n : Node) :
  ∀ parent c,
    accounted s c n →
    kept s n c (Directory.retry parent n c).1 (Directory.retry parent n c).2.
Proof.
  induction n as [f|d l IH] using Node_ind'; intros parent c Ha.
  - by apply kept_refl.
  - pose proof (retry_children_kept s d l IH [] c Ha) as Hk. simpl in *.
    destruct (forEach_map (Directory.retry (Some d)) l c) as [c1 l1].
    simpl in Hk. pose proof (kept_accounted _ _ _ _ _ Hk) as Ha1.
    unfold Directory.State_retry.
    destruct (d_state d) eqn:Hs; simpl; try done.
    apply (kept_trans s _ _ _ _ _ _ Hk).
    apply kept_move; try done. simpl. by rewrite Hs.
Qed.

(** An event at a Directory keeps the books. *)
Lemma on_dir_kept (s : bool) (ev : Event) (parent : option XDir) (d : XDir)
    (l : list Node) (c c' : Ctx) (n' : Node) (sig : option Signal) :
  ordered (NDir d l) → accounted s c (NDir d l) →
  on_dir ev parent d l c = (c', n', sig) →
  kept s (NDir d l) c c' n'.
Proof.
  intros Ho Ha. apply ordered_dir in Ho as [Hin Hol].
  unfold on_dir, startable_dir.
  destruct ev; try (intros [= <- <- <-]; by apply kept_refl).
  - (* Start *)
    destruct parent as [p|]; [|intros [= <- <- <-]; by apply kept_refl].
    case_bool_decide as Hs; simpl; [|intros [= <- <- <-]; by apply kept_refl].
    destruct (bool_decide _); [|intros [= <- <- <-]; by apply kept_refl].
    unfold Directory.setState. rewrite Hs. simpl. intros [= <- <- <-].
    apply kept_move; try done. simpl. by rewrite Hs.
  - (* MkdircDone *)
    destruct (d_state d) eqn:Hs; try (intros [= <- <- <-]; by apply kept_refl).
    assert (l = []) as -> by (apply (in_order_not_read d l Hin); by rewrite Hs).
    unfold Directory.Making_callback. destruct r as [e|uuid].
    + destruct (String.eqb _ _); simpl; intros [= <- <- <-];
        (apply kept_move; try done); simpl; by rewrite Hs.
    + simpl. intros [= <- <- <-]. apply kept_move; try done.
      simpl. by rewrite Hs.
  - (* ReaddirDone *)
    destruct (d_state d) eqn:Hs; try (intros [= <- <- <-]; by apply kept_refl).
    assert (l = []) as -> by (apply (in_order_not_read d l Hin); by rewrite Hs).
    unfold Directory.Reading_callback. destruct r as [e|xstats].
    + simpl. intros [= <- <- <-]. apply kept_move; try done.
      simpl. by rewrite Hs.
    + unfold Directory.State_setState, Directory.construct, Directory.Read_enter.
      match goal with
      | |- context [Directory.Read_next ?d0 ?l0 ?c0] =>
          assert (kept s (NDir d []) c c0 (NDir d0 l0)) as Hk
            by (apply kept_move; try done; simpl; by rewrite Hs);
          destruct (Directory.Read_next d0 l0 c0) as [[[c1 d1] l1] s1] eqn:Hn
      end.
      intros [= <- <- <-].
      apply (kept_trans s _ _ _ _ _ _ Hk).
      apply (Read_next_kept s _ _ _ _ _ _ _ (kept_accounted _ _ _ _ _ Hk)
               eq_refl Hn).
  - (* SetPolicy *)
    unfold Directory.setPolicy.
    set (d0 := if String.eqb type "same"
               then with_d_policy d (policy, snd (d_policy d))
               else with_d_policy d (fst (d_policy d), policy)).
    assert (d_state d0 = d_state d ∧ d_id d0 = d_id d) as [Hs0 Hi0]
      by (unfold d0; by destruct (String.eqb _ _)).
    assert (kept s (NDir d l) c c (NDir d0 l)) as Hk
      by (apply kept_relabel; try done; simpl; by rewrite Hs0).
    pose proof (retry_kept s (NDir d0 l) parent c
                  (kept_accounted _ _ _ _ _ Hk)) as Hr.
    destruct (Directory.retry parent (NDir d0 l) c) as [c1 n1].
    intros [= <- <- <-]. by apply (kept_trans s _ _ _ _ _ _ Hk).
  - (* Retry *)
    pose proof (retry_kept s (NDir d l) parent c Ha) as Hr.
    destruct (Directory.retry parent (NDir d l) c) as [c1 n1].
    by intros [= <- <- <-].
Qed.

(** The listeners of a Directory keep the books. *)
Lemma on_child_signal_kept (s : bool) (s1 s2 : option Signal) (d d2 : XDir)
    (mid post l2 : list Node) (ch ch1 : Node) (c c1 c2 : Ctx) :
  ordered (NDir d (mid ++ ch :: post)) →
  accounted s c (NDir d (mid ++ ch :: post)) →
  kept s ch c c1 ch1 →
  Directory.on_child_signal s1 d mid ch1 post c1 = (c2, d2, l2, s2) →
  kept s (NDir d (mid ++ ch :: post)) c c2 (NDir d2 l2).
Proof.
  intros Ho Ha Hch Hs.
  apply ordered_dir in Ho as [(Hne & _) _].
  assert (d_state d = DRead) as Hread by (apply Hne; by destruct mid).
  pose proof (kept_child s d mid post ch ch1 c c1 Ha Hch) as Hk.
  pose proof (kept_accounted _ _ _ _ _ Hk) as Ha1.
  unfold Directory.on_child_signal in Hs. destruct s1 as [[e|]|].
  - apply (kept_trans s _ _ _ _ _ _ Hk).
    by apply (Read_next_kept s _ _ _ _ _ _ _ Ha1 Hread Hs).
  - apply (kept_trans s _ _ _ _ _ _ Hk).
    pose proof (kept_remove s d mid post ch1 c1 Ha1) as Hr.
    apply (kept_trans s _ _ _ _ _ _ Hr).
    by apply (Read_next_kept s _ _ _ _ _ _ _ (kept_accounted _ _ _ _ _ Hr)
                Hread Hs).
  - by injection Hs as <- <- <- <-.
Qed.

(** An event delivered anywhere in the tree keeps the books. *)
Lemma deliver_kept (s : bool) (ev : Event) (id : NodeId) (n : Node) :
  ∀ parent c c' n' sig,
    ordered n ∧ accounted s c n →
    deliver ev id parent n c = Some (c', n', sig) →
    kept s n c c' n'.
Proof.
  apply (deliver_ind ev id (λ parent n c, ordered n ∧ accounted s c n)
           (λ parent n c c' n' sig, kept s n c c' n')).
  - intros parent f c c' f' sig [_ Ha]. by apply on_file_kept.
  - intros parent d l c c' n' sig [Ho Ha]. by apply on_dir_kept.
  - intros parent d mid ch post c [Ho Ha]. split.
    + apply ordered_dir in Ho as [_ Hol].
      rewrite Forall_app, Forall_cons in Hol. tauto.
    + by apply (accounted_child s c d mid post).
  - intros parent d mid ch post c c1 ch1 s1 c2 d2 l2 s2 [Ho Ha] _ Hch.
    by apply (on_child_signal_kept s s1 s2 d d2 mid post l2 ch ch1 c c1 c2).
Qed.

Lemma accounted_relax (c : Ctx) (n : Node) :
  accounted true c n → accounted false c n.
Proof.
  intros (Hn & Hb & Hr & Hs). split_and!; try done.
  apply (Forall_impl _ _ _ Hr). by intros m [H _].
Qed.

Lemma step_accounted (s : bool) (ev : Event) (w : World) :
  (s = true → ev ≠ DestroyRoot) →
  ordered (root w) → accounted s (ctx w) (root w) →
  accounted s (ctx (step ev w)) (root (step ev w)).
Proof.
  intros Hev Ho Ha. unfold step. destruct (target ev) as [id|] eqn:Ht.
  - destruct (deliver ev id None (root w) (ctx w)) as [[[c n] sig]|] eqn:Hd;
      [|done].
    by apply (deliver_kept s) in Hd as (_ & _ & _ & _ & H).
  - assert (s = false) as -> by (destruct s, ev; try done; by destruct Hev).
    simpl. destruct (destroy_frame (root w) (ctx w)) as (Hnext & Hsub & _).
    destruct Ha as ((Hnd & Hlt) & Hb & Hr & Hs).
    unfold accounted, numbered. rewrite Hnext. split_and!; try done.
    + intros b i H. apply (Hb b). by apply Hsub.
    + apply (Forall_impl _ _ _ Hr). intros m [H _]. split; [|done].
      intros b Hbm. apply H. by apply Hsub.
Qed.

Lemma start_copy_accounted (file : Policy) (dir : Policy * Policy)
    (srcUUID dstUUID : string) (xstats : list Xstat) :
  let w := start_copy file dir srcUUID dstUUID xstats in
  accounted true (ctx w) (root w).
Proof.
  unfold start_copy, Directory.new_Directory. simpl.
  set (c0 := mkCtx ∅ file dir [] [] 1).
  assert (∀ d, d_id d = 0 →
            accounted true (index (dir_bucket_of (d_state d)) 0 c0) (NDir d []))
    as Hnew.
  { intros d Hd. apply accounted_dir. simpl. rewrite Hd.
    split_and!; try done.
    - apply NoDup_singleton.
    - apply Forall_singleton. lia.
    - intros b i. rewrite elem_of_union, elem_of_singleton.
      intros [[= _ ->]|H]; [lia|]. by apply elem_of_empty in H.
    - split; simpl; rewrite Hd; [|set_solver]. intros b. set_solver. }
  destruct (negb _).
  - unfold Directory.construct, Directory.Read_enter.
    match goal with
    | |- context [Directory.Read_next ?d1 ?l1 ?c1] =>
        pose proof (Hnew d1 eq_refl) as Ha;
        destruct (Directory.Read_next d1 l1 c1) as [[[c2 d2] l2] s2] eqn:Hn
    end.
    simpl. eapply kept_accounted.
    by apply (Read_next_kept true _ _ _ _ _ _ _ Ha) in Hn.
  - apply (Hnew (mkXDir 0 srcUUID None (None, None) DPending [] []) eq_refl).
Qed.

Lemma run_accounted (s : bool) (evs : list Event) :
  ∀ w, (s = true → DestroyRoot ∉ evs) →
       ordered (root w) → accounted s (ctx w) (root w) →
       accounted s (ctx (run evs w)) (root (run evs w)).
Proof.
  unfold run. induction evs as [|ev evs IH]; intros w Hev Ho Ha; simpl; [done|].
  apply IH.
  - intros Hs. specialize (Hev Hs). by apply not_elem_of_cons in Hev as [_ ?].
  - by apply step_ordered.
  - apply step_accounted; try done.
    intros Hs. specialize (Hev Hs). by apply not_elem_of_cons in Hev as [? _].
Qed.

(** X15. In every execution of a copy the nodes of the tree carry distinct
    identifiers, and a node of the tree is registered in no bucket but the one
    of its state (a Directory: of [dir.state]; a File: of the state it entered
    last). As long as the copy was not destroyed, it is registered in that one:
    every node of the tree is in exactly one bucket. *)
Theorem nodes_are_registered_by_state (file : Policy) (dir : Policy * Policy)
    (srcUUID dstUUID : string) (xstats : list Xstat) (evs : list Event)
    (m : Node) :
  let w := run evs (start_copy file dir srcUUID dstUUID xstats) in
  m ∈ nodes (root w) →
  NoDup (ids (root w)) ∧
  (∀ b, (b, node_id m) ∈ members (ctx w) → b = bucket m) ∧
  (DestroyRoot ∉ evs → (bucket m, node_id m) ∈ members (ctx w)).
Proof.
  intros w Hm.
  pose proof (start_copy_ordered file dir srcUUID dstUUID xstats) as Ho.
  pose proof (start_copy_accounted file dir srcUUID dstUUID xstats) as Ha.
  cbn zeta in Ha.
  pose proof (run_accounted false evs _ ltac:(done) Ho (accounted_relax _ _ Ha))
    as ((Hnd & _) & _ & Hreg & _).
  rewrite Forall_forall in Hreg. destruct (Hreg m Hm) as [Hin _].
  split_and!; [done|done|].
  intros Hev.
  pose proof (run_accounted true evs _ (λ _, Hev) Ho Ha) as (_ & _ & Hreg' & _).
  rewrite Forall_forall in Hreg'. destruct (Hreg' m Hm) as [_ Hin'].
  by apply Hin'.
Qed.

Lemma nodes_are_registered_by_state_witness :
  let w := run (first_fails ++ [Start 2]) three_files in
  let failed := default (root w) (find_node 1 (root w)) in
  let working := default (root w) (find_node 2 (root w)) in
  bucket failed = FailedFile ∧ bucket working = WorkingFile ∧
  buckets_of 1 (ctx w) = [FailedFile] ∧ buckets_of 2 (ctx w) = [WorkingFile] ∧
  (FailedFile, 1) ∈ members (ctx w) ∧ (WorkingFile, 2) ∈ members (ctx w).
Proof.
  split; [vm_compute; reflexivity|]. split; [vm_compute; reflexivity|].
  split; [vm_compute; reflexivity|]. split; [vm_compute; reflexivity|].
  split.
  - apply (nodes_are_registered_by_state (Some "skip") (None, None) "src" "dst"
             [entry "file" "u1" "a"; entry "file" "u2" "b"; entry "file" "u3" "c"]
             (first_fails ++ [Start 2])
             (default (root (run (first_fails ++ [Start 2]) three_files))
                (find_node 1 (root (run (first_fails ++ [Start 2]) three_files))))).
    + vm_compute. apply list_elem_of_further, list_elem_of_here.
    + unfold first_fails. simpl. rewrite !not_elem_of_cons.
      split_and!; try discriminate. apply not_elem_of_nil.
  - apply (nodes_are_registered_by_state (Some "skip") (None, None) "src" "dst"
             [entry "file" "u1" "a"; entry "file" "u2" "b"; entry "file" "u3" "c"]
             (first_fails ++ [Start 2])
             (default (root (run (first_fails ++ [Start 2]) three_files))
                (find_node 2 (root (run (first_fails ++ [Start 2]) three_files))))).
    + vm_compute. do 2 apply list_elem_of_further. apply list_elem_of_here.
    + unfold first_fails. simpl. rewrite !not_elem_of_cons.
      split_and!; try discriminate. apply not_elem_of_nil.
Defined.
(** ** The logs of a copy *)

(** The logs are the signals emitted ([emits]) and the calls made ([calls]);
    the lemmas below follow them through every function of the two machines,
    as [kept] follows the buckets. *)
Lemma emitters_emits (i : NodeId) (sg : Signal) (c : Ctx) :
  (i, sg) ∈ emits c → i ∈ emitters c.
Proof. intros H. unfold emitters. apply list_elem_of_fmap. by exists (i, sg). Qed.

(** [destroy] writes in no log and numbers nothing. *)
Lemma logs_destroy (n : Node) (c : Ctx) :
  emits (Directory.destroy n c) = emits c ∧
  copiers (Directory.destroy n c) = copiers c ∧
  next_id (Directory.destroy n c) = next_id c.
Proof. by rewrite destroy_unregisters. Qed.

Lemma told_tallied (n n' : Node) (c c' : Ctx) : told n c c' n' → tallied c' n'.
Proof. by intros (_ & _ & _ & _ & _ & H). Qed.

Lemma told_refl (n : Node) (c : Ctx) : tallied c n → told n c c n.
Proof.
  intros H. split_and!; [done|done|by left|by left| |done].
  intros i [Hi|Hi]; [by left|lia].
Qed.

Lemma told_trans (s : bool) (n n1 n2 : Node) (c c1 c2 : Ctx) :
  kept s n c c1 n1 →
  told n c c1 n1 → told n1 c1 c2 n2 → told n c c2 n2.
Proof.
  intros (Hnext & _ & Hids & _) (Hm1 & Hk1 & He1 & Hc1 & Hg1 & _)
    (Hm2 & Hk2 & He2 & Hc2 & Hg2 & Ht).
  split_and!; [auto|auto| | | |done].
  - intros i Hi. destruct (He2 i Hi) as [H|[H|H]].
    + by apply He1.
    + destruct (Hids i H) as [[H'|H'] _]; auto.
    + right. right. lia.
  - intros i Hi. destruct (Hc2 i Hi) as [H|[H|H]].
    + by apply Hc1.
    + destruct (Hids i H) as [[H'|H'] _]; auto.
    + right. right. lia.
  - intros i Hi.
    assert (i ∈ ids n1 ∨ (i, SigFinish) ∈ emits c1 ∨
            (next_id c1 ≤ i ∧ i < next_id c2)) as [H|[H|H]].
    { destruct Hi as [Hi|[Hi1 Hi2]].
      - destruct (Hg1 i (or_introl Hi)); auto.
      - destruct (decide (i < next_id c1)) as [Hlt|Hge]; [|right; right; lia].
        destruct (Hg1 i (or_intror (conj Hi1 Hlt))); auto. }
    + apply Hg2. by left.
    + right. by apply Hm2.
    + apply Hg2. by right.
Qed.

(** What is in the logs for a node stays so when the logs only grow by
    entries of other nodes. *)
Lemma logged_same (c c' : Ctx) (m : Node) :
  (node_id m ∈ emitters c' → node_id m ∈ emitters c) →
  (node_id m ∈ copiers c' → node_id m ∈ copiers c) →
  (∀ x, x ∈ emits c → x ∈ emits c') →
  (∀ i, i ∈ copiers c → i ∈ copiers c') →
  logged c m → logged c' m.
Proof.
  intros He Hc Hme Hmc (H1 & H2 & H3 & H4). split_and!.
  - intros H ?. by apply H1, He.
  - intros H. destruct (H2 H) as (sg & Hin & Hsg). exists sg. auto.
  - intros H ?. by apply H3, Hc.
  - intros H. by apply Hmc, H4.
Qed.

Lemma logged_relabel (c : Ctx) (m m' : Node) :
  node_id m' = node_id m → active m' = active m →
  pending m' = pending m → started m' = started m →
  (∀ sg, announces sg m → announces sg m') →
  logged c m → logged c m'.
Proof.
  unfold logged. intros -> -> -> -> Hsg (H1 & H2 & H3 & H4).
  split_and!; try done. intros H. destruct (H2 H) as (sg & ? & ?).
  exists sg. auto.
Qed.

(** A node makes a move: it may emit once, if it was active and is at rest
    now, in the state the signal tells of; and it may call [cpFile] once, if it
    was not started and now is. *)
Lemma told_move (s : bool) (n n' : Node) (c c' : Ctx) (e : option Signal)
    (k : bool) :
  accounted s c n → tallied c n →
  node_id n' = node_id n → tail (nodes n') = tail (nodes n) →
  next_id c' = next_id c →
  emits c' =
    emits c ++ match e with Some sg => [(node_id n, sg)] | None => [] end →
  copiers c' = copiers c ++ (if k then [node_id n] else []) →
  (is_Some e → active n = true) →
  (active n' = true → active n = true ∧ e = None) →
  (active n' = false →
   match e with
   | Some sg => announces sg n'
   | None => active n = false ∧ ∀ sg, announces sg n → announces sg n'
   end) →
  (k = true → pending n = true) →
  (pending n' = true → pending n = true ∧ k = false) →
  (started n' = true → started n = true ∨ k = true) →
  told n c c' n'.
Proof.
  intros Ha (Hne & Hnc & Hbe & Hbc & Hq) Hid Htl Hnext Hem Hcp He He' Hrest
    Hk Hk' Hst.
  assert (nodes n = n :: tail (nodes n)) as Hn by (by destruct n).
  assert (nodes n' = n' :: tail (nodes n)) as Hn'
    by (rewrite <- Htl; by destruct n').
  rewrite Hn, Forall_cons in Hq. destruct Hq as [(Hq1 & Hq2 & Hq3 & Hq4) Hq].
  assert (node_id n < next_id c) as Hlt
    by (apply (accounted_lt s c n); [done|apply node_id_in_ids]).
  assert (Forall (λ m, node_id m ≠ node_id n) (tail (nodes n))) as Hother.
  { destruct Ha as ((Hnd & _) & _). unfold ids in Hnd. rewrite Hn in Hnd.
    simpl in Hnd. apply NoDup_cons in Hnd as [Hnotin _].
    apply Forall_forall. intros m Hm Heq. apply Hnotin.
    apply list_elem_of_fmap. by exists m. }
  assert (emitters c' =
          emitters c ++ match e with Some _ => [node_id n] | None => [] end)
    as Hem'.
  { unfold emitters. rewrite Hem, map_app. by destruct e. }
  assert (∀ x, x ∈ emits c → x ∈ emits c') as Hmono
    by (intros x Hx; rewrite Hem, elem_of_app; by left).
  assert (∀ i, i ∈ copiers c → i ∈ copiers c') as Hmonoc
    by (intros i Hi; rewrite Hcp, elem_of_app; by left).
  split_and!; [done|done| | | |].
  - intros i. rewrite Hem', elem_of_app. intros [H|H]; [by left|].
    destruct e; [|by apply elem_of_nil in H].
    apply list_elem_of_singleton in H as ->. right. left. apply node_id_in_ids.
  - intros i. rewrite Hcp, elem_of_app. intros [H|H]; [by left|].
    destruct k; [|by apply elem_of_nil in H].
    apply list_elem_of_singleton in H as ->. right. left. apply node_id_in_ids.
  - intros i [Hi|Hi]; [|lia]. left.
    assert (ids n' = ids n) as ->; [|done].
    unfold ids. rewrite Hn'. by rewrite Hn at 2; simpl; rewrite Hid.
  - unfold tallied. rewrite Hem', Hcp, Hnext. split_and!.
    + destruct e; [|by rewrite app_nil_r].
      apply NoDup_app. split_and!; [done| |apply NoDup_singleton].
      intros i Hi ->%list_elem_of_singleton. by apply Hq1; [apply He|].
    + destruct k; [|by rewrite app_nil_r].
      apply NoDup_app. split_and!; [done| |apply NoDup_singleton].
      intros i Hi ->%list_elem_of_singleton. by apply Hq3; [apply Hk|].
    + apply Forall_app. split; [done|]. destruct e; [|done].
      by apply Forall_singleton.
    + apply Forall_app. split; [done|]. destruct k; [|done].
      by apply Forall_singleton.
    + rewrite Hn', Forall_cons. split.
      * unfold logged. rewrite Hid. split_and!.
        -- intros Hact. destruct (He' Hact) as [Hact' ->].
           rewrite Hem', app_nil_r. by apply Hq1.
        -- intros Hact. specialize (Hrest Hact). destruct e as [sg|].
           ++ exists sg. split; [|done]. rewrite Hem, elem_of_app. right.
              by left.
           ++ destruct Hrest as [Hact' Hsg].
              destruct (Hq2 Hact') as (sg & Hin & Hann). exists sg. auto.
        -- intros Hp. destruct (Hk' Hp) as [Hp' ->].
           rewrite Hcp, app_nil_r. by apply Hq3.
        -- intros Hs'. rewrite Hcp, elem_of_app.
           destruct (Hst Hs') as [H| ->]; [left; by apply Hq4|right; by left].
      * rewrite Forall_forall in Hq, Hother. apply Forall_forall. intros m Hm.
        apply (logged_same c); [| |done|done|by apply Hq].
        -- rewrite Hem', elem_of_app. intros [H|H]; [done|].
           destruct e; [|by apply elem_of_nil in H].
           apply list_elem_of_singleton in H. by destruct (Hother m Hm).
        -- rewrite Hcp, elem_of_app. intros [H|H]; [done|].
           destruct k; [|by apply elem_of_nil in H].
           apply list_elem_of_singleton in H. by destruct (Hother m Hm).
Qed.

Lemma tallied_dir (c : Ctx) (d : XDir) (l : list Node) :
  tallied c (NDir d l) ↔
  NoDup (emitters c) ∧ NoDup (copiers c) ∧
  Forall (λ i, i < next_id c) (emitters c) ∧
  Forall (λ i, i < next_id c) (copiers c) ∧
  logged c (NDir d l) ∧ Forall (λ ch, Forall (logged c) (nodes ch)) l.
Proof. unfold tallied. rewrite Forall_nodes. tauto. Qed.

Lemma logged_dir (c : Ctx) (d d' : XDir) (l l' : list Node) :
  d_id d' = d_id d → d_state d' = d_state d →
  logged c (NDir d l) → logged c (NDir d' l').
Proof.
  intros Hid Hs. apply logged_relabel; simpl; try done; by rewrite ?Hs.
Qed.

(** A Directory gets one more child, numbered at this moment. *)
Lemma told_spawn (d d' : XDir) (l : list Node) (x : Node) (c c' : Ctx) :
  tallied c (NDir d l) →
  d_id d' = d_id d → d_state d' = d_state d →
  nodes x = [x] → node_id x = next_id c →
  active x = true → started x = false →
  next_id c' = S (next_id c) →
  emits c' = emits c → copiers c' = copiers c →
  told (NDir d l) c c' (NDir d' (l ++ [x])).
Proof.
  intros (Hne & Hnc & Hbe & Hbc & Hq & Hql)%tallied_dir Hid Hst Hleaf Hx
    Hact Hnst Hnext Hem Hcp.
  assert (emitters c' = emitters c) as Hem' by (unfold emitters; by rewrite Hem).
  split_and!; [by rewrite Hem|by rewrite Hcp|rewrite Hem'; by left
              |rewrite Hcp; by left| |].
  { intros i Hi. left. rewrite !ids_dir in *.
    rewrite concat_ids_app, elem_of_cons, elem_of_app, Hid.
    rewrite elem_of_cons in Hi. destruct Hi as [[Hi|Hi]|Hi]; [auto|auto|].
    right. right. simpl. unfold ids. rewrite Hleaf, app_nil_r. simpl.
    apply list_elem_of_singleton. lia. }
  apply tallied_dir. rewrite Hem', Hcp, Hnext.
  rewrite Forall_forall in Hbe, Hbc.
  assert (∀ m, logged c m → logged c' m) as Hkeep.
  { intros m. apply logged_same; by rewrite ?Hem', ?Hem, ?Hcp. }
  split_and!; try done.
  - apply Forall_forall. intros i Hi. specialize (Hbe i Hi). lia.
  - apply Forall_forall. intros i Hi. specialize (Hbc i Hi). lia.
  - apply Hkeep. by apply (logged_dir c d d' l).
  - apply Forall_app. split.
    + apply (Forall_impl _ _ _ Hql). intros ch Hch.
      by apply (Forall_impl _ _ _ Hch).
    + apply Forall_singleton. rewrite Hleaf. apply Forall_singleton.
      unfold logged. rewrite Hx, Hem', Hcp, Hact, Hnst. split_and!; try done.
      * intros _ Hin. specialize (Hbe _ Hin). lia.
      * intros _ Hin. specialize (Hbc _ Hin). lia.
Qed.

(** What happened to the logs in a child, seen from its Directory. *)
Lemma told_child (s : bool) (d : XDir) (mid post : list Node) (ch ch1 : Node)
    (c c1 : Ctx) :
  accounted s c (NDir d (mid ++ ch :: post)) →
  tallied c (NDir d (mid ++ ch :: post)) →
  told ch c c1 ch1 →
  told (NDir d (mid ++ ch :: post)) c c1 (NDir d (mid ++ ch1 :: post)).
Proof.
  intros Ha Ht (Hme & Hmc & He & Hc & Hg & Ht1).
  pose proof (λ i, accounted_lt s c _ i Ha) as Hlt.
  apply accounted_dir in Ha as (Hnd & _).
  apply tallied_dir in Ht as (_ & _ & _ & _ & Hq & Hql).
  destruct Ht1 as (Hne1 & Hnc1 & Hbe1 & Hbc1 & Hq1).
  rewrite !Forall_app, !Forall_cons in Hql. destruct Hql as (Hqm & _ & Hqp).
  rewrite concat_ids_app, concat_ids_cons in Hnd.
  assert (∀ i, i ∈ ids ch → i ∈ ids (NDir d (mid ++ ch :: post))) as Hsub.
  { intros i Hi. rewrite ids_dir, concat_ids_app, concat_ids_cons,
      elem_of_cons, !elem_of_app. auto. }
  assert (∀ i, i ∈ d_id d :: concat (map ids mid) ++ concat (map ids post) →
               (i ∉ ids ch) ∧ i < next_id c) as Hsib.
  { intros i Hin.
    assert (i ∈ ids (NDir d (mid ++ ch :: post))) as Hi'.
    { rewrite ids_dir, concat_ids_app, concat_ids_cons, elem_of_cons,
        !elem_of_app. rewrite elem_of_cons, elem_of_app in Hin. tauto. }
    split; [|by apply Hlt].
    apply NoDup_cons in Hnd as [Hd Hnd].
    apply NoDup_app in Hnd as (_ & Hm & Hnd).
    apply NoDup_app in Hnd as (_ & Hc' & _).
    apply elem_of_cons in Hin as [-> |Hin].
    - intros H. apply Hd. rewrite !elem_of_app. auto.
    - apply elem_of_app in Hin as [Hin|Hin].
      + intros H. apply (Hm i Hin). rewrite elem_of_app. auto.
      + intros H. by apply (Hc' i H). }
  assert (∀ m, node_id m ∈ d_id d :: concat (map ids mid)
                              ++ concat (map ids post) →
               logged c m → logged c1 m) as Hkeep.
  { intros m Hm. destruct (Hsib _ Hm) as [Hnot Hlti].
    apply logged_same; [| |done|done].
    - intros H. destruct (He _ H) as [?|[?|?]]; [done|done|lia].
    - intros H. destruct (Hc _ H) as [?|[?|?]]; [done|done|lia]. }
  split_and!; [done|done| | | |].
  - intros i Hi. destruct (He i Hi) as [?|[?|?]]; auto.
  - intros i Hi. destruct (Hc i Hi) as [?|[?|?]]; auto.
  - intros i Hi. rewrite !ids_dir, !concat_ids_app, !concat_ids_cons in *.
    rewrite elem_of_cons, !elem_of_app in Hi.
    rewrite elem_of_cons, !elem_of_app.
    assert (i ∈ ids ch ∨ next_id c ≤ i ∧ i < next_id c1 →
            i ∈ ids ch1 ∨ (i, SigFinish) ∈ emits c1) as Hg' by apply Hg.
    tauto.
  - apply tallied_dir. split_and!; try done.
    + apply (logged_dir c1 d d (mid ++ ch :: post)); [done|done|].
      apply (Hkeep (NDir d (mid ++ ch :: post))); [by left|done].
    + rewrite !Forall_app, !Forall_cons. split_and!; [|done|].
      * rewrite Forall_forall in Hqm. apply Forall_forall. intros x Hx.
        specialize (Hqm x Hx). rewrite Forall_forall in Hqm.
        apply Forall_forall. intros m Hm. apply Hkeep; [|by apply Hqm].
        right. apply elem_of_app. left. apply elem_of_concat_ids.
        exists x. split; [done|]. by apply elem_of_ids.
      * rewrite Forall_forall in Hqp. apply Forall_forall. intros x Hx.
        specialize (Hqp x Hx). rewrite Forall_forall in Hqp.
        apply Forall_forall. intros m Hm. apply Hkeep; [|by apply Hqp].
        right. apply elem_of_app. right. apply elem_of_concat_ids.
        exists x. split; [done|]. by apply elem_of_ids.
Qed.

(** A node that announces [finish] has no children, and has emitted it. *)
Lemma finished_leaf (m : Node) :
  ordered m → announces SigFinish m → ids m = [node_id m].
Proof.
  destruct m as [f|d l]; [done|]. intros [Hin _]%ordered_dir Hsg.
  assert (l = []) as ->; [|done].
  apply (in_order_not_read d l Hin). intros Hs. simpl in Hsg.
  by rewrite Hs in Hsg.
Qed.

Lemma finished_emitted (c : Ctx) (m : Node) :
  logged c m → announces SigFinish m → (node_id m, SigFinish) ∈ emits c.
Proof.
  intros (_ & Hrest & _) Hsg.
  assert (active m = false ∧ ∀ sg, announces sg m → sg = SigFinish) as [Ha Hs].
  { destruct m as [f|d l]; simpl in *.
    - destruct (f_live f); try done. by destruct Hsg.
    - destruct (d_state d); try done. by destruct Hsg. }
  destruct (Hrest Ha) as (sg & Hin & Hsg'). by rewrite <- (Hs sg Hsg').
Qed.

(** A child that finished is destroyed and taken out of the list. *)
Lemma told_remove (d : XDir) (mid post : list Node) (ch : Node) (c : Ctx) :
  tallied c (NDir d (mid ++ ch :: post)) →
  ordered ch → announces SigFinish ch →
  told (NDir d (mid ++ ch :: post)) c (Directory.destroy ch c)
    (NDir d (mid ++ post)).
Proof.
  intros (Hne & Hnc & Hbe & Hbc & Hq & Hql)%tallied_dir Ho Hsg.
  destruct (logs_destroy ch c) as (Hem & Hcp & Hnext).
  assert (emitters (Directory.destroy ch c) = emitters c) as Hem'
    by (unfold emitters; by rewrite Hem).
  assert (∀ m, logged c m → logged (Directory.destroy ch c) m) as Hkeep.
  { intros m. apply logged_same; by rewrite ?Hem', ?Hem, ?Hcp. }
  rewrite !Forall_app, !Forall_cons in Hql. destruct Hql as (Hqm & Hqc & Hqp).
  split_and!; [by rewrite Hem|by rewrite Hcp|rewrite Hem'; by left
              |rewrite Hcp; by left| |].
  { intros i [Hi|Hi]; [|lia]. rewrite Hem.
    rewrite ids_dir, concat_ids_app, concat_ids_cons in Hi.
    rewrite ids_dir, concat_ids_app.
    rewrite elem_of_cons, !elem_of_app in Hi.
    rewrite elem_of_cons, !elem_of_app.
    destruct Hi as [Hi|[Hi|[Hi|Hi]]]; [auto|auto| |auto].
    right. rewrite (finished_leaf ch Ho Hsg) in Hi.
    apply list_elem_of_singleton in Hi as ->.
    apply finished_emitted; [|done].
    rewrite Forall_forall in Hqc. apply Hqc. by destruct ch; left. }
  apply tallied_dir. rewrite Hem', Hcp, Hnext. split_and!; try done.
  - apply Hkeep. by apply (logged_dir c d d (mid ++ ch :: post)).
  - apply Forall_app. split.
    + apply (Forall_impl _ _ _ Hqm). intros x Hx.
      by apply (Forall_impl _ _ _ Hx).
    + apply (Forall_impl _ _ _ Hqp). intros x Hx.
      by apply (Forall_impl _ _ _ Hx).
Qed.

Ltac by_state H :=
  simpl; rewrite ?H; simpl;
  first [ done
        | by intros [? [=]]
        | by intros ?; eexists
        | by intros ?; split
        | by intros ?; left
        | by intros ?; right ].

Ltac logs_eq :=
  unfold emitters, copiers; simpl;
  rewrite ?List.filter_app, ?map_app; simpl; rewrite ?app_nil_r; done.

(** [Read.next] and the logs. *)
Lemma Read_next_told (s : bool) (d d' : XDir) (l l' : list Node) (c c' : Ctx)
    (sig : option Signal) :
  accounted s c (NDir d l) → tallied c (NDir d l) → d_state d = DRead →
  Directory.Read_next d l c = (c', d', l', sig) →
  told (NDir d l) c c' (NDir d' l').
Proof.
  intros Ha Ht Hs. unfold Directory.Read_next.
  destruct (d_fstats d) as [|x fs].
  - destruct (d_dstats d) as [|y ds].
    + case_bool_decide as Hl; intros [= <- <- <- <-].
      * apply (told_move s _ _ _ _ (Some SigFinish) false); try done;
          try logs_eq; by_state Hs.
      * by apply told_refl.
    + intros [= <- <- <- <-]. by apply told_spawn.
  - intros [= <- <- <- <-]. by apply told_spawn.
Qed.

(** An event at a File and the logs. *)
Lemma on_file_told (s : bool) (ev : Event) (parent : option XDir)
    (f f' : XFile) (c c' : Ctx) (sig : option Signal) :
  accounted s c (NFile f) → tallied c (NFile f) →
  on_file ev parent f c = (c', f', sig) →
  told (NFile f) c c' (NFile f').
Proof.
  intros Ha Ht.
  assert (f_state f = FPending) as Hst
    by (destruct Ha as (_ & _ & _ & H); exact (List.Forall_inv H)).
  unfold on_file, startable_file.
  destruct ev, parent as [p|];
    try (intros [= <- <- <-]; by apply told_refl).
  - (* Start *)
    case_bool_decide as Hl; simpl; [|intros [= <- <- <-]; by apply told_refl].
    case_bool_decide as Hin; [|intros [= <- <- <-]; by apply told_refl].
    unfold File.setState. rewrite Hst. intros [= <- <- <-].
    apply (told_move s _ _ _ _ None true); try done; try logs_eq;
      by_state Hl.
  - (* CpFileDone *)
    case_bool_decide as Hl; [|intros [= <- <- <-]; by apply told_refl].
    unfold File.Working_callback. destruct err as [e|].
    + destruct (String.eqb _ _); intros [= <- <- <-].
      * apply (told_move s _ _ _ _ None false); try done; try logs_eq;
          by_state Hl.
      * apply (told_move s _ _ _ _ (Some (SigError e)) false); try done;
          try logs_eq; by_state Hl.
    + intros [= <- <- <-].
      apply (told_move s _ _ _ _ (Some SigFinish) false); try done;
        try logs_eq; by_state Hl.
  - (* FileSetPolicy *)
    intros [= <- <- <-].
    apply (told_move s _ _ _ _ None false); try done; try logs_eq;
      by_state Hst.
  - intros [= <- <- <-].
    apply (told_move s _ _ _ _ None false); try done; try logs_eq;
      by_state Hst.
  - (* Resolve *)
    unfold File.resolve. rewrite Hst. simpl.
    intros [= <- <- <-]. by apply told_refl.
Qed.

Lemma tallied_child (c : Ctx) (d : XDir) (mid post : list Node) (ch : Node) :
  tallied c (NDir d (mid ++ ch :: post)) → tallied c ch.
Proof.
  intros (Hne & Hnc & Hbe & Hbc & _ & Hql)%tallied_dir.
  rewrite !Forall_app, !Forall_cons in Hql. unfold tallied. tauto.
Qed.

Lemma retry_children_told (s : bool) (d : XDir) (l : list Node) :
  Forall (λ ch, ∀ parent c, accounted s c ch → tallied c ch →
                  told ch c (Directory.retry parent ch c).1
                    (Directory.retry parent ch c).2) l →
  ∀ pre c,
    accounted s c (NDir d (pre ++ l)) → tallied c (NDir d (pre ++ l)) →
    told (NDir d (pre ++ l)) c
      (forEach_map (Directory.retry (Some d)) l c).1
      (NDir d (pre ++ (forEach_map (Directory.retry (Some d)) l c).2)).
Proof.
  induction 1 as [|ch l Hch _ IH]; intros pre c Ha Ht; simpl.
  - by apply told_refl.
  - pose proof (accounted_child s c d pre l ch Ha) as Hach.
    specialize (Hch (Some d) c Hach (tallied_child c d pre l ch Ht)).
    pose proof (retry_kept s ch (Some d) c Hach) as Hkch.
    destruct (Directory.retry (Some d) ch c) as [c1 ch1]. simpl in Hch, Hkch.
    pose proof (kept_child s d pre l ch ch1 c c1 Ha Hkch) as Hk.
    pose proof (told_child s d pre l ch ch1 c c1 Ha Ht Hch) as Hto.
    specialize (IH (pre ++ [ch1]) c1). rewrite <- app_assoc in IH.
    specialize (IH (kept_accounted _ _ _ _ _ Hk) (told_tallied _ _ _ _ Hto)).
    destruct (forEach_map (Directory.retry (Some d)) l c1) as [c2 l2].
    simpl in *. rewrite <- app_assoc in IH.
    by apply (told_trans s _ _ _ _ _ _ Hk).
Qed.

(** [retry] and the logs: [mkdirc] may be called again, [cpFile] is not, and
    nothing is emitted. *)
Lemma retry_told (s : bool) (n : Node) :
  ∀ parent c,
    accounted s c n → tallied c n →
    told n c (Directory.retry parent n c).1 (Directory.retry parent n c).2.
Proof.
  induction n as [f|d l IH] using Node_ind'; intros parent c Ha Ht.
  - by apply told_refl.
  - pose proof (retry_children_told s d l IH [] c Ha Ht) as Hto.
    assert (Forall (λ ch, ∀ parent c, accounted s c ch →
                      kept s ch c (Directory.retry parent ch c).1
                        (Directory.retry parent ch c).2) l) as Hall
      by (apply Forall_forall; intros ch _; apply retry_kept).
    pose proof (retry_children_kept s d l Hall [] c Ha) as Hk.
    simpl in *.
    destruct (forEach_map (Directory.retry (Some d)) l c) as [c1 l1].
    simpl in Hk, Hto. unfold Directory.State_retry.
    destruct (d_state d) eqn:Hs; simpl; try done.
    apply (told_trans s _ _ _ _ _ _ Hk Hto).
    apply (told_move s _ _ _ _ None false);
      try done; try logs_eq; try (by apply (kept_accounted _ _ _ _ _ Hk));
      try (by apply (told_tallied _ _ _ _ Hto)); by_state Hs.
Qed.

(** ** What a signal tells *)

(** A node signals only as it comes to rest, and the signal tells where:
    [error] in Failed, [finish] in Finished. *)
Lemma Read_next_speaks (d d' : XDir) (l l' : list Node) (c c' : Ctx)
    (sg : Signal) :
  Directory.Read_next d l c = (c', d', l', Some sg) →
  announces sg (NDir d' l').
Proof.
  unfold Directory.Read_next.
  destruct (d_fstats d) as [|x fs].
  - destruct (d_dstats d) as [|y ds].
    + case_bool_decide as Hl; by intros [= <- <- <- <-].
    + by intros [= <- <- <- <-].
  - by intros [= <- <- <- <-].
Qed.

Lemma on_file_speaks (ev : Event) (parent : option XDir) (f f' : XFile)
    (c c' : Ctx) (sg : Signal) :
  on_file ev parent f c = (c', f', Some sg) → announces sg (NFile f').
Proof.
  unfold on_file.
  destruct ev, parent as [p|]; try done.
  - destruct (startable_file f c); [|done].
    unfold File.setState. by destruct (f_state f).
  - case_bool_decide as Hl; [|done].
    unfold File.Working_callback. destruct err as [e|].
    + destruct (String.eqb _ _); intros [= <- <- <-]. simpl. by eexists.
    + by intros [= <- <- <-].
  - by destruct (File.resolve p f c) as [[? ?]|?].
Qed.

Lemma on_dir_speaks (ev : Event) (parent : option XDir) (d : XDir)
    (l : list Node) (c c' : Ctx) (n' : Node) (sg : Signal) :
  on_dir ev parent d l c = (c', n', Some sg) → announces sg n'.
Proof.
  unfold on_dir.
  destruct ev; try done.
  - destruct parent as [p|]; [|done].
    destruct (startable_dir d c); [|done].
    unfold Directory.setState. by destruct (d_state d).
  - destruct (d_state d) eqn:Hs; try done.
    unfold Directory.Making_callback. destruct r as [e|uuid].
    + destruct (String.eqb _ _); simpl; intros [= <- <- <-]. simpl. by eexists.
    + simpl. by intros [= <- <- <-].
  - destruct (d_state d) eqn:Hs; try done.
    unfold Directory.Reading_callback. destruct r as [e|xstats].
    + simpl. intros [= <- <- <-]. simpl. by eexists.
    + unfold Directory.State_setState, Directory.construct,
        Directory.Read_enter.
      match goal with
      | |- context [Directory.Read_next ?d0 ?l0 ?c0] =>
          destruct (Directory.Read_next d0 l0 c0) as [[[c1 d1] l1] s1] eqn:Hn
      end.
      intros [= <- <- ->]. by apply Read_next_speaks in Hn.
  - by destruct (Directory.setPolicy type policy parent d l c).
  - by destruct (Directory.retry parent (NDir d l) c).
Qed.

Lemma deliver_speaks (ev : Event) (id : NodeId) (n : Node) :
  ∀ parent c c' n' sg,
    deliver ev id parent n c = Some (c', n', Some sg) → announces sg n'.
Proof.
  intros parent c c' n' sg Hd.
  apply (deliver_ind ev id (λ _ _ _, True)
           (λ parent n c c' n' sig, ∀ sg, sig = Some sg → announces sg n'))
    with (n := n) (parent := parent) (c := c) (c' := c') (s := Some sg);
    try done.
  - intros p f c0 c1 f1 sig _ Hf sg0 ->. by apply on_file_speaks in Hf.
  - intros p d l c0 c1 n1 sig _ Hf sg0 ->. by apply on_dir_speaks in Hf.
  - intros p d mid ch post c0 c1 ch1 s1 c2 d2 l2 s2 _ _ _ Hs sg0 ->.
    unfold Directory.on_child_signal in Hs.
    destruct s1 as [[e|]|]; [| |done]; by apply Read_next_speaks in Hs.
Qed.

(** An event at a Directory and the logs. *)
Lemma on_dir_told (s : bool) (ev : Event) (parent : option XDir) (d : XDir)
    (l : list Node) (c c' : Ctx) (n' : Node) (sig : option Signal) :
  ordered (NDir d l) → accounted s c (NDir d l) → tallied c (NDir d l) →
  on_dir ev parent d l c = (c', n', sig) →
  told (NDir d l) c c' n'.
Proof.
  intros Ho Ha Ht. apply ordered_dir in Ho as [Hin Hol].
  unfold on_dir, startable_dir.
  destruct ev; try (intros [= <- <- <-]; by apply told_refl).
  - (* Start *)
    destruct parent as [p|]; [|intros [= <- <- <-]; by apply told_refl].
    case_bool_decide as Hs; simpl; [|intros [= <- <- <-]; by apply told_refl].
    destruct (bool_decide _); [|intros [= <- <- <-]; by apply told_refl].
    unfold Directory.setState. rewrite Hs. simpl. intros [= <- <- <-].
    apply (told_move s _ _ _ _ None false); try done; try logs_eq;
      by_state Hs.
  - (* MkdircDone *)
    destruct (d_state d) eqn:Hs; try (intros [= <- <- <-]; by apply told_refl).
    assert (l = []) as -> by (apply (in_order_not_read d l Hin); by rewrite Hs).
    unfold Directory.Making_callback. destruct r as [e|uuid].
    + destruct (String.eqb _ _); simpl; intros [= <- <- <-].
      * apply (told_move s _ _ _ _ None false); try done; try logs_eq;
          by_state Hs.
      * apply (told_move s _ _ _ _ (Some (SigError e)) false); try done;
          try logs_eq; by_state Hs.
    + simpl. intros [= <- <- <-].
      apply (told_move s _ _ _ _ None false); try done; try logs_eq;
        by_state Hs.
  - (* ReaddirDone *)
    destruct (d_state d) eqn:Hs; try (intros [= <- <- <-]; by apply told_refl).
    assert (l = []) as -> by (apply (in_order_not_read d l Hin); by rewrite Hs).
    unfold Directory.Reading_callback. destruct r as [e|xstats].
    + simpl. intros [= <- <- <-].
      apply (told_move s _ _ _ _ (Some (SigError e)) false); try done;
        try logs_eq; by_state Hs.
    + unfold Directory.State_setState, Directory.construct, Directory.Read_enter.
      match goal with
      | |- context [Directory.Read_next ?d0 ?l0 ?c0] =>
          assert (kept s (NDir d []) c c0 (NDir d0 l0)) as Hk
            by (apply kept_move; try done; simpl; by rewrite Hs);
          assert (told (NDir d []) c c0 (NDir d0 l0)) as Hto
            by (apply (told_move s _ _ _ _ None false);
                try done; try logs_eq; by_state Hs);
          destruct (Directory.Read_next d0 l0 c0) as [[[c1 d1] l1] s1] eqn:Hn
      end.
      intros [= <- <- <-].
      apply (told_trans s _ _ _ _ _ _ Hk Hto).
      apply (Read_next_told s _ _ _ _ _ _ _ (kept_accounted _ _ _ _ _ Hk)
               (told_tallied _ _ _ _ Hto) eq_refl Hn).
  - (* SetPolicy *)
    unfold Directory.setPolicy.
    set (d0 := if String.eqb type "same"
               then with_d_policy d (policy, snd (d_policy d))
               else with_d_policy d (fst (d_policy d), policy)).
    assert (d_state d0 = d_state d ∧ d_id d0 = d_id d) as [Hs0 Hi0]
      by (unfold d0; by destruct (String.eqb _ _)).
    assert (kept s (NDir d l) c c (NDir d0 l)) as Hk
      by (apply kept_relabel; try done; simpl; by rewrite Hs0).
    assert (told (NDir d l) c c (NDir d0 l)) as Hto.
    { apply (told_move s _ _ _ _ None false); try done;
        try (by rewrite app_nil_r); simpl; rewrite ?Hs0;
        first [done | by intros ?; split]. }
    pose proof (retry_told s (NDir d0 l) parent c
                  (kept_accounted _ _ _ _ _ Hk) (told_tallied _ _ _ _ Hto))
      as Hr.
    destruct (Directory.retry parent (NDir d0 l) c) as [c1 n1].
    intros [= <- <- <-]. by apply (told_trans s _ _ _ _ _ _ Hk Hto).
  - (* Retry *)
    pose proof (retry_told s (NDir d l) parent c Ha Ht) as Hr.
    destruct (Directory.retry parent (NDir d l) c) as [c1 n1].
    by intros [= <- <- <-].
Qed.

(** The listeners of a Directory and the logs. *)
Lemma on_child_signal_told (s : bool) (s1 s2 : option Signal) (d d2 : XDir)
    (mid post l2 : list Node) (ch ch1 : Node) (c c1 c2 : Ctx) :
  ordered (NDir d (mid ++ ch :: post)) →
  accounted s c (NDir d (mid ++ ch :: post)) →
  tallied c (NDir d (mid ++ ch :: post)) →
  kept s ch c c1 ch1 → told ch c c1 ch1 →
  ordered ch1 → (∀ sg, s1 = Some sg → announces sg ch1) →
  Directory.on_child_signal s1 d mid ch1 post c1 = (c2, d2, l2, s2) →
  told (NDir d (mid ++ ch :: post)) c c2 (NDir d2 l2).
Proof.
  intros Ho Ha Ht Hkch Htch Hoch Hsg Hs.
  apply ordered_dir in Ho as [(Hne & _) _].
  assert (d_state d = DRead) as Hread by (apply Hne; by destruct mid).
  pose proof (kept_child s d mid post ch ch1 c c1 Ha Hkch) as Hk.
  pose proof (told_child s d mid post ch ch1 c c1 Ha Ht Htch) as Hto.
  pose proof (kept_accounted _ _ _ _ _ Hk) as Ha1.
  pose proof (told_tallied _ _ _ _ Hto) as Ht1.
  unfold Directory.on_child_signal in Hs. destruct s1 as [[e|]|].
  - apply (told_trans s _ _ _ _ _ _ Hk Hto).
    by apply (Read_next_told s _ _ _ _ _ _ _ Ha1 Ht1 Hread Hs).
  - apply (told_trans s _ _ _ _ _ _ Hk Hto).
    pose proof (kept_remove s d mid post ch1 c1 Ha1) as Hr.
    pose proof (told_remove d mid post ch1 c1 Ht1 Hoch (Hsg _ eq_refl))
      as Htr.
    apply (told_trans s _ _ _ _ _ _ Hr Htr).
    by apply (Read_next_told s _ _ _ _ _ _ _ (kept_accounted _ _ _ _ _ Hr)
                (told_tallied _ _ _ _ Htr) Hread Hs).
  - by injection Hs as <- <- <- <-.
Qed.

(** An event delivered anywhere in the tree, the books and the logs. *)
Lemma deliver_told (s : bool) (ev : Event) (id : NodeId) (n : Node) :
  ∀ parent c c' n' sig,
    ordered n ∧ accounted s c n ∧ tallied c n →
    deliver ev id parent n c = Some (c', n', sig) →
    told n c c' n'.
Proof.
  apply (deliver_ind ev id
           (λ parent n c, ordered n ∧ accounted s c n ∧ tallied c n)
           (λ parent n c c' n' sig, told n c c' n')).
  - intros parent f c c' f' sig (_ & Ha & Ht). by apply (on_file_told s).
  - intros parent d l c c' n' sig (Ho & Ha & Ht). by apply (on_dir_told s).
  - intros parent d mid ch post c (Ho & Ha & Ht). split_and!.
    + apply ordered_dir in Ho as [_ Hol].
      rewrite Forall_app, Forall_cons in Hol. tauto.
    + by apply (accounted_child s c d mid post).
    + by apply (tallied_child c d mid post).
  - intros parent d mid ch post c c1 ch1 s1 c2 d2 l2 s2 (Ho & Ha & Ht) Hd Hch.
    assert (ordered ch) as Hoch.
    { apply ordered_dir in Ho as [_ Hol].
      rewrite Forall_app, Forall_cons in Hol. tauto. }
    apply (on_child_signal_told s s1 s2 d d2 mid post l2 ch ch1 c c1 c2);
      try done.
    + apply (deliver_kept s ev id ch (Some d) c c1 ch1 s1); [|done]. split.
      * done.
      * by apply (accounted_child s c d mid post).
    + by apply (deliver_settles ev id ch (Some d) c c1 ch1 s1 Hoch) in Hd as [? _].
    + intros sg ->. by apply (deliver_speaks ev id ch (Some d) c c1 ch1 sg).
Qed.

(** ** The logs of every execution *)

Lemma told_complete (n n' : Node) (c c' : Ctx) :
  complete c n → told n c c' n' → complete c' n'.
Proof.
  intros Hc (Hm & _ & _ & _ & Hg & _) i Hi.
  destruct (decide (i < next_id c)) as [Hlt|Hge].
  - destruct (Hc i Hlt) as [H|H]; [apply Hg; by left|right; by apply Hm].
  - apply Hg. right. lia.
Qed.

(** The logs of a copy after one more event. *)
Lemma step_tallied (ev : Event) (w : World) :
  ordered (root w) → accounted false (ctx w) (root w) →
  tallied (ctx w) (root w) ∧ complete (ctx w) (root w) →
  tallied (ctx (step ev w)) (root (step ev w)) ∧
  complete (ctx (step ev w)) (root (step ev w)).
Proof.
  intros Ho Ha [Ht Hc]. unfold step. destruct (target ev) as [id|] eqn:Hev.
  - destruct (deliver ev id None (root w) (ctx w)) as [[[c n] sig]|] eqn:Hd;
      [|done].
    apply (deliver_told false) in Hd; [|done]. split.
    + by apply told_tallied in Hd.
    + by apply (told_complete (root w) n (ctx w) c).
  - simpl. destruct (logs_destroy (root w) (ctx w)) as (Hem & Hcp & Hnext).
    destruct Ht as (H1 & H2 & H3 & H4 & H5). split.
    + unfold tallied, emitters. rewrite Hem, Hcp, Hnext.
      split_and!; try done.
      apply (Forall_impl _ _ _ H5). intros m.
      apply logged_same; unfold emitters; by rewrite ?Hem, ?Hcp.
    + unfold complete. by rewrite Hem, Hnext.
Qed.

(** Nothing is ever taken out of the log of signals. *)
Lemma step_emits (ev : Event) (w : World) (x : NodeId * Signal) :
  ordered (root w) → accounted false (ctx w) (root w) →
  tallied (ctx w) (root w) →
  x ∈ emits (ctx w) → x ∈ emits (ctx (step ev w)).
Proof.
  intros Ho Ha Ht. unfold step. destruct (target ev) as [id|] eqn:Hev.
  - destruct (deliver ev id None (root w) (ctx w)) as [[[c n] sig]|] eqn:Hd;
      [|done].
    apply (deliver_told false) in Hd as [Hm _]; [|done]. apply Hm.
  - simpl. by destruct (logs_destroy (root w) (ctx w)) as (-> & _).
Qed.

Lemma run_emits (evs : list Event) (x : NodeId * Signal) :
  ∀ w, ordered (root w) → accounted false (ctx w) (root w) →
       tallied (ctx w) (root w) ∧ complete (ctx w) (root w) →
       x ∈ emits (ctx w) → x ∈ emits (ctx (run evs w)).
Proof.
  unfold run. induction evs as [|ev evs IH]; intros w Ho Ha Ht Hx; simpl;
    [done|].
  apply IH; [by apply step_ordered|by apply step_accounted|
             by apply step_tallied|apply step_emits; tauto].
Qed.

Lemma run_tallied (evs : list Event) :
  ∀ w, ordered (root w) → accounted false (ctx w) (root w) →
       tallied (ctx w) (root w) ∧ complete (ctx w) (root w) →
       tallied (ctx (run evs w)) (root (run evs w)) ∧
       complete (ctx (run evs w)) (root (run evs w)).
Proof.
  unfold run. induction evs as [|ev evs IH]; intros w Ho Ha Ht; simpl; [done|].
  apply IH; [by apply step_ordered|by apply step_accounted|
             by apply step_tallied].
Qed.

Lemma start_copy_tallied (file : Policy) (dir : Policy * Policy)
    (srcUUID dstUUID : string) (xstats : list Xstat) :
  let w := start_copy file dir srcUUID dstUUID xstats in
  tallied (ctx w) (root w) ∧ complete (ctx w) (root w).
Proof.
  unfold start_copy, Directory.new_Directory. simpl.
  set (c0 := mkCtx ∅ file dir [] [] 1).
  assert (∀ d b, d_id d = 0 → active (NDir d []) = true →
            accounted true (index (dir_bucket_of (d_state d)) 0 c0) (NDir d [])
            ∧ tallied (index b 0 c0) (NDir d [])
            ∧ complete (index b 0 c0) (NDir d [])) as Hnew.
  { intros d b Hd Hact. split_and!.
    - apply accounted_dir. simpl. rewrite Hd. split_and!; try done.
      + apply NoDup_singleton.
      + apply Forall_singleton. lia.
      + intros b' i. rewrite elem_of_union, elem_of_singleton.
        intros [[= _ ->]|H]; [lia|]. by apply elem_of_empty in H.
      + split; simpl; rewrite Hd; [|set_solver]. intros b'. set_solver.
    - apply tallied_dir. unfold emitters, copiers, logged.
      rewrite Hact. simpl.
      split_and!; try done; try apply NoDup_nil_2;
        intros _ H; by apply elem_of_nil in H.
    - intros i Hi. left. rewrite ids_dir, Hd. simpl in *.
      apply list_elem_of_singleton. lia. }
  destruct (negb _).
  - unfold Directory.construct, Directory.Read_enter.
    match goal with
    | |- context [Directory.Read_next ?d1 ?l1 ?c1] =>
        destruct (Hnew d1 ReadDir eq_refl eq_refl) as (Ha & Ht & Hc);
        destruct (Directory.Read_next d1 l1 c1) as [[[c2 d2] l2] s2] eqn:Hn
    end.
    simpl. apply (Read_next_told true _ _ _ _ _ _ _ Ha Ht) in Hn; [|done].
    split; [by apply told_tallied in Hn|by apply (told_complete _ _ _ _ Hc)].
  - destruct (Hnew (mkXDir 0 srcUUID None (None, None) DPending [] [])
                PendingDir eq_refl eq_refl) as (_ & ? & ?).
    done.
Qed.

(** The logs of a copy are in order from the start and after every event. *)
Lemma copy_tallied (file : Policy) (dir : Policy * Policy)
    (srcUUID dstUUID : string) (xstats : list Xstat) (evs : list Event) :
  let w := run evs (start_copy file dir srcUUID dstUUID xstats) in
  tallied (ctx w) (root w) ∧ complete (ctx w) (root w).
Proof.
  pose proof (start_copy_ordered file dir srcUUID dstUUID xstats) as Ho.
  pose proof (start_copy_accounted file dir srcUUID dstUUID xstats) as Ha.
  pose proof (start_copy_tallied file dir srcUUID dstUUID xstats) as Ht.
  cbn zeta in *. apply run_tallied; [done|by apply accounted_relax|done].
Qed.

(** X16. Whatever happens to a copy, every node tells its listeners once how
    it ended, and not before: no node has emitted twice; a node of the tree
    that is still active (not Failed, not Finished) has emitted nothing; a
    node that is at rest has emitted, 'error' if it is Failed and 'finish' if
    it is Finished. *)
Theorem one_signal_per_node (file : Policy) (dir : Policy * Policy)
    (srcUUID dstUUID : string) (xstats : list Xstat) (evs : list Event)
    (m : Node) :
  let w := run evs (start_copy file dir srcUUID dstUUID xstats) in
  m ∈ nodes (root w) →
  NoDup (emitters (ctx w)) ∧
  (active m = true → node_id m ∉ emitters (ctx w)) ∧
  (active m = false →
   ∃ sg, (node_id m, sg) ∈ emits (ctx w) ∧ announces sg m).
Proof.
  intros w Hm.
  destruct (copy_tallied file dir srcUUID dstUUID xstats evs)
    as [(Hnd & _ & _ & _ & Hlog) _].
  rewrite Forall_forall in Hlog. destruct (Hlog m Hm) as (H1 & H2 & _).
  by split_and!.
Qed.

Lemma one_signal_per_node_witness :
  let w := run (first_fails ++ [Start 2]) three_files in
  let failed := default (root w) (find_node 1 (root w)) in
  let working := default (root w) (find_node 2 (root w)) in
  active failed = false ∧ active working = true ∧
  (∃ sg, (node_id failed, sg) ∈ emits (ctx w) ∧ announces sg failed) ∧
  (node_id working ∉ emitters (ctx w)).
Proof.
  split; [vm_compute; reflexivity|]. split; [vm_compute; reflexivity|].
  split.
  - apply (one_signal_per_node (Some "skip") (None, None) "src" "dst"
             [entry "file" "u1" "a"; entry "file" "u2" "b"; entry "file" "u3" "c"]
             (first_fails ++ [Start 2])
             (default (root (run (first_fails ++ [Start 2]) three_files))
                (find_node 1 (root (run (first_fails ++ [Start 2]) three_files))))).
    + vm_compute. apply list_elem_of_further, list_elem_of_here.
    + vm_compute; reflexivity.
  - apply (one_signal_per_node (Some "skip") (None, None) "src" "dst"
             [entry "file" "u1" "a"; entry "file" "u2" "b"; entry "file" "u3" "c"]
             (first_fails ++ [Start 2])
             (default (root (run (first_fails ++ [Start 2]) three_files))
                (find_node 2 (root (run (first_fails ++ [Start 2]) three_files))))).
    + vm_compute. do 2 apply list_elem_of_further. apply list_elem_of_here.
    + vm_compute; reflexivity.
Defined.

(** X17. [cpFile] is called once for a File, when it leaves Pending, and never
    again, whatever is retried or resolved later: no File is among the callers
    of [cpFile] twice; a File of the tree that is still Pending has not called
    it; a File that has left Pending has. *)
Theorem cpFile_once_per_file (file : Policy) (dir : Policy * Policy)
    (srcUUID dstUUID : string) (xstats : list Xstat) (evs : list Event)
    (m : Node) :
  let w := run evs (start_copy file dir srcUUID dstUUID xstats) in
  m ∈ nodes (root w) →
  NoDup (copiers (ctx w)) ∧
  (pending m = true → node_id m ∉ copiers (ctx w)) ∧
  (started m = true → node_id m ∈ copiers (ctx w)).
Proof.
  intros w Hm.
  destruct (copy_tallied file dir srcUUID dstUUID xstats evs)
    as [(_ & Hnd & _ & _ & Hlog) _].
  rewrite Forall_forall in Hlog. destruct (Hlog m Hm) as (_ & _ & H3 & H4).
  by split_and!.
Qed.

Lemma cpFile_once_per_file_witness :
  let evs := first_fails ++ [Start 2; CpFileDone 2 (Some ECONFLICT);
                             FileSetPolicy 2 (Some "rename"); Resolve 2] in
  let w := run evs three_files in
  let conflict := default (root w) (find_node 2 (root w)) in
  let w' := run first_fails three_files in
  let waiting := default (root w') (find_node 2 (root w')) in
  started conflict = true ∧ pending waiting = true ∧
  copiers (ctx w) = [1; 2] ∧ copiers (ctx w') = [1] ∧
  node_id conflict ∈ copiers (ctx w) ∧ (node_id waiting ∉ copiers (ctx w')).
Proof.
  split; [vm_compute; reflexivity|]. split; [vm_compute; reflexivity|].
  split; [vm_compute; reflexivity|]. split; [vm_compute; reflexivity|].
  split.
  - apply (cpFile_once_per_file (Some "skip") (None, None) "src" "dst"
             [entry "file" "u1" "a"; entry "file" "u2" "b"; entry "file" "u3" "c"]
             (first_fails ++ [Start 2; CpFileDone 2 (Some ECONFLICT);
                              FileSetPolicy 2 (Some "rename"); Resolve 2])
             (default
                (root (run (first_fails ++
                              [Start 2; CpFileDone 2 (Some ECONFLICT);
                               FileSetPolicy 2 (Some "rename"); Resolve 2])
                         three_files))
                (find_node 2
                   (root (run (first_fails ++
                                 [Start 2; CpFileDone 2 (Some ECONFLICT);
                                  FileSetPolicy 2 (Some "rename"); Resolve 2])
                            three_files))))).
    + vm_compute. do 2 apply list_elem_of_further. apply list_elem_of_here.
    + vm_compute; reflexivity.
  - apply (cpFile_once_per_file (Some "skip") (None, None) "src" "dst"
             [entry "file" "u1" "a"; entry "file" "u2" "b"; entry "file" "u3" "c"]
             first_fails
             (default (root (run first_fails three_files))
                (find_node 2 (root (run first_fails three_files))))).
    + vm_compute. do 2 apply list_elem_of_further. apply list_elem_of_here.
    + vm_compute; reflexivity.
Defined.

(** ** Finishing *)

(** Who emitted once, emitted one signal. *)
Lemma emitted_once (c : Ctx) (i : NodeId) (sg sg' : Signal) :
  NoDup (emitters c) → (i, sg) ∈ emits c → (i, sg') ∈ emits c → sg = sg'.
Proof.
  unfold emitters. induction (emits c) as [|[j x] l IH]; simpl.
  - intros _ H. by apply elem_of_nil in H.
  - intros [Hj Hl]%NoDup_cons H1 H2.
    assert (∀ y, (j, y) ∈ l → False) as Hnot.
    { intros y Hy. apply Hj. apply list_elem_of_fmap. by exists (j, y). }
    apply elem_of_cons in H1 as [H1|H1]; apply elem_of_cons in H2 as [H2|H2].
    + congruence.
    + injection H1 as -> ->. by destruct (Hnot sg').
    + injection H2 as -> ->. by destruct (Hnot sg).
    + by apply IH.
Qed.

(** The logs of a world whose root Directory is Finished. *)
Lemma finished_logs (w : World) (d : XDir) (l : list Node) :
  ordered (root w) → tallied (ctx w) (root w) → complete (ctx w) (root w) →
  root w = NDir d l → d_state d = DFinished →
  l = [] ∧
  emitters (ctx w) ≡ₚ seq 0 (next_id (ctx w)) ∧
  Forall (λ x, x.2 = SigFinish) (emits (ctx w)).
Proof.
  intros Ho (Hnd & _ & Hbe & _ & Hlog) Hc Hroot Hs.
  rewrite Hroot in Hlog, Hc, Ho.
  apply ordered_dir in Ho as [Hin _].
  assert (l = []) as -> by (apply (in_order_not_read d l Hin); by rewrite Hs).
  assert (∀ i, i < next_id (ctx w) → (i, SigFinish) ∈ emits (ctx w)) as Hall.
  { intros i Hi. destruct (Hc i Hi) as [H|H]; [|done].
    apply list_elem_of_singleton in H as ->.
    apply (finished_emitted (ctx w) (NDir d [])).
    - exact (List.Forall_inv Hlog).
    - simpl. by rewrite Hs. }
  rewrite Forall_forall in Hbe. split_and!; [done| |].
  - apply NoDup_Permutation; [done|apply NoDup_seq|].
    intros i. rewrite elem_of_seq. split.
    + intros Hi. specialize (Hbe i Hi). lia.
    + intros [_ Hi]. apply (emitters_emits i SigFinish). apply Hall. lia.
  - apply Forall_forall. intros [i sg] Hin'. simpl.
    apply (emitted_once (ctx w) i); [done|done|]. apply Hall, Hbe.
    by apply (emitters_emits i sg).
Qed.

(** X18. The copy finishes only when everything finished: when the root
    Directory is Finished, it has no children left, every node that was ever
    made in this copy has emitted exactly one signal, and that signal was
    'finish'; nobody has emitted 'error'. *)
Theorem finish_means_all_finished (file : Policy) (dir : Policy * Policy)
    (srcUUID dstUUID : string) (xstats : list Xstat) (evs : list Event)
    (d : XDir) (l : list Node) :
  let w := run evs (start_copy file dir srcUUID dstUUID xstats) in
  root w = NDir d l → d_state d = DFinished →
  l = [] ∧
  emitters (ctx w) ≡ₚ seq 0 (next_id (ctx w)) ∧
  Forall (λ x, x.2 = SigFinish) (emits (ctx w)).
Proof.
  intros w Hroot Hs.
  destruct (copy_tallied file dir srcUUID dstUUID xstats evs) as [Ht Hc].
  apply (finished_logs w d l); try done.
  apply run_ordered, start_copy_ordered.
Qed.

Lemma finish_means_all_finished_witness :
  let w := run (Start 1 :: CpFileDone 1 None :: others_succeed) three_files in
  dir_state 0 (root w) = Some DFinished ∧
  emits (ctx w) = [(1, SigFinish); (2, SigFinish); (3, SigFinish);
                   (0, SigFinish)] ∧
  emitters (ctx w) ≡ₚ seq 0 (next_id (ctx w)) ∧
  Forall (λ x, x.2 = SigFinish) (emits (ctx w)).
Proof.
  split; [vm_compute; reflexivity|]. split; [vm_compute; reflexivity|].
  eapply (finish_means_all_finished (Some "skip") (None, None) "src" "dst"
            [entry "file" "u1" "a"; entry "file" "u2" "b"; entry "file" "u3" "c"]
            (Start 1 :: CpFileDone 1 None :: others_succeed)).
  - vm_compute. reflexivity.
  - reflexivity.
Defined.

(** X19. An error is final for the whole copy: once any node, at any depth,
    has emitted 'error', the root Directory is never Finished, whatever is
    delivered to the tree afterwards. *)
Theorem error_is_final (file : Policy) (dir : Policy * Policy)
    (srcUUID dstUUID : string) (xstats : list Xstat) (evs evs' : list Event)
    (i : NodeId) (e : Err) (d : XDir) (l : list Node) :
  let w := run evs (start_copy file dir srcUUID dstUUID xstats) in
  let w' := run evs' w in
  (i, SigError e) ∈ emits (ctx w) →
  root w' = NDir d l → d_state d ≠ DFinished.
Proof.
  intros w w' Hin Hroot Hs.
  pose proof (run_ordered evs _
                (start_copy_ordered file dir srcUUID dstUUID xstats)) as Ho.
  pose proof (start_copy_accounted file dir srcUUID dstUUID xstats) as Ha.
  cbn zeta in Ha.
  pose proof (run_accounted false evs _ ltac:(done)
                (start_copy_ordered file dir srcUUID dstUUID xstats)
                (accounted_relax _ _ Ha)) as Ha'.
  pose proof (copy_tallied file dir srcUUID dstUUID xstats evs) as Ht.
  cbn zeta in Ht. fold w in Ho, Ha', Ht.
  pose proof (run_emits evs' _ w Ho Ha' Ht Hin) as Hin'.
  destruct (run_tallied evs' w Ho Ha' Ht) as [Ht' Hc'].
  destruct (finished_logs w' d l (run_ordered evs' w Ho) Ht' Hc' Hroot Hs)
    as (_ & _ & Hall).
  rewrite Forall_forall in Hall. by specialize (Hall _ Hin').
Qed.

Lemma error_is_final_witness :
  let w := run first_fails three_files in
  let w' := run (others_succeed ++ [Retry 0; SetPolicy 0 "same" (Some "skip")])
              w in
  let d0 := mkXDir 0 "src" (Some "dst") (Some "skip", None) DRead [] [] in
  emits (ctx w) = [(1, SigError EIO)] ∧
  emits (ctx w') = [(1, SigError EIO); (2, SigFinish); (3, SigFinish)] ∧
  root w' = NDir d0 (children_of (root w')) ∧
  d_state d0 ≠ DFinished.
Proof.
  split; [vm_compute; reflexivity|]. split; [vm_compute; reflexivity|].
  split; [vm_compute; reflexivity|].
  apply (error_is_final (Some "skip") (None, None) "src" "dst"
           [entry "file" "u1" "a"; entry "file" "u2" "b"; entry "file" "u3" "c"]
           first_fails
           (others_succeed ++ [Retry 0; SetPolicy 0 "same" (Some "skip")])
           1 EIO
           (mkXDir 0 "src" (Some "dst") (Some "skip", None) DRead [] [])
           (children_of
              (root (run (others_succeed ++
                            [Retry 0; SetPolicy 0 "same" (Some "skip")])
                       (run first_fails three_files))))).
  - vm_compute. apply list_elem_of_here.
  - vm_compute. reflexivity.
Defined.
End XCopyFacts.

